(** * Windowed inference and overlap-aware stitching of [stt_gui]

    A shallow embedding of [stt_gui/stt_app/profiles/stt_utils.py], of the
    worker methods and the result dialog of
    [stt_gui/stt_app/profiles/wav_to_text_silero.py] and of the progress
    slot of [stt_gui/stt_app/profiles/__init__.py], followed by the
    properties of the windowing / stitching engine.

    Conventions of the embedding:
    - Python integers are [Z]; Python floats are finite numbers, kept as
      the rationals [Q] they denote. Where the code truncates a float to an
      integer ([int(overlap_ratio * winsize)],
      [int(max_win_secs * EXPECTED_SRATE)], [int(i / num * 100)]) the
      product or quotient is rounded to the nearest binary64 number, ties
      to even, as the machine does, and a rounded value beyond the largest
      float is an [OverflowError] at the conversion. Similarity scores,
      thresholds and audio samples are exact: their rounding is not
      represented, and a sample is never NaN or infinite;
    - Python strings are lists of characters;
    - torch tensors live in a heap of cells and are handled by address, so
      that in-place operations and freshness of allocations are visible;
    - functions with effects (heap, model calls, exceptions, the abort flag of
      a worker) are written in a state-and-exception monad [M].

    A run of the windower is called valid when the signal has at least one
    sample, [max_winsize >= 1], [overlap_ratio] is a float in [0, 1) and
    the window has at most [2^53] samples, a number that floats count
    exactly. *)

From Stdlib Require Import List ZArith QArith Qabs Qminmax Qfield Qround
  Qpower Lia Ascii String Bool.
From stdpp Require Import base list.
Import ListNotations.
Open Scope Z_scope.

(* ================================================================== *)
(** * Python values: sequences, slices, ranges                         *)
(* ================================================================== *)

Module Py.

(** A Python [str]. *)
Definition str := list ascii.

(** String literals for examples. *)
Definition lit (s : string) : str := list_ascii_of_string s.

(** [len(x)] *)
Definition len {A} (l : list A) : Z := Z.of_nat (length l).

(** How a slice bound [i] is read against a sequence of length [n]:
    a negative bound counts from the end, and every bound is clamped
    to [0, n]. *)
Definition bound (n i : Z) : Z :=
  if i <? 0 then Z.max 0 (i + n) else Z.min i n.

(** The indices [(a, b)] selected by [x[lo:hi]] ([None] is an omitted
    bound). *)
Definition slice_indices (n : Z) (lo hi : option Z) : Z * Z :=
  (match lo with None => 0 | Some i => bound n i end,
   match hi with None => n | Some j => bound n j end).

(** [x[lo:hi]] *)
Definition slice {A} (l : list A) (lo hi : option Z) : list A :=
  let '(a, b) := slice_indices (len l) lo hi in
  take (Z.to_nat (b - a)) (drop (Z.to_nat a) l).

(** [len(range(start, stop, step))] for [step <> 0]. *)
Definition range_len (start stop step : Z) : Z :=
  if 0 <? step then Z.max 0 ((stop - start + step - 1) / step)
  else Z.max 0 ((start - stop - step - 1) / (- step)).

(** [list(range(start, stop, step))] for [step <> 0]. *)
Definition range_items (start stop step : Z) : list Z :=
  map (fun k => start + Z.of_nat k * step)
      (seq 0 (Z.to_nat (range_len start stop step))).

(** [range(stop)] *)
Definition range (stop : Z) : list Z := range_items 0 stop 1.

(** [int(x)] of a float: truncation towards zero. *)
Definition int (x : Q) : Z := Z.quot (Qnum x) (Zpos (Qden x)).

(** ** Floats

    A float is a binary64 number: a significand of 53 bits and a power of
    two. The result of an arithmetic operation is the exact result rounded
    to the nearest such number, ties to the even significand. *)

(** The integer nearest to [y], ties to even. *)
Definition round_half_even (y : Q) : Z :=
  let f := Qfloor y in
  match (y - inject_Z f ?= 1 # 2)%Q with
  | Lt => f
  | Gt => f + 1
  | Eq => if Z.even f then f else f + 1
  end.

(** The binary exponent [e] of a positive [x]: [2^e <= x < 2^(e+1)]. *)
Definition exponent (x : Q) : Z :=
  let k := Z.log2 (Qnum x) - Z.log2 (Zpos (Qden x)) in
  if Qle_bool (2 ^ k) x then k else k - 1.

(** A positive [x] rounded to 53 significant bits. *)
Definition round_positive (x : Q) : Q :=
  let s := 52 - exponent x in
  (inject_Z (round_half_even (x * 2 ^ s)) * 2 ^ (- s))%Q.

(** The float nearest to [x]; the exponent is not bounded here, see
    [overflows]. *)
Definition round_float (x : Q) : Q :=
  match (x ?= 0)%Q with
  | Eq => 0%Q
  | Gt => round_positive x
  | Lt => (- round_positive (- x))%Q
  end.

(** [x] is a float. *)
Definition is_float (x : Q) : Prop := (round_float x == x)%Q.

(** A rounded value of magnitude [2^1024] or more is beyond the largest
    float: the machine has infinity there. *)
Definition overflows (x : Q) : bool := Qle_bool (2 ^ 1024) (Qabs x).

(** [a * b] and [a / b] of floats, and [float(i)] of an integer. *)
Definition float_mul (a b : Q) : Q := round_float (a * b).
Definition float_div (a b : Q) : Q := round_float (a / b).
Definition float_of_int (i : Z) : Q := round_float (inject_Z i).

(** [enumerate(l, start)] *)
Definition enumerate {A} (l : list A) (start : Z) : list (Z * A) :=
  combine (map (fun k => start + Z.of_nat k) (seq 0 (length l))) l.

End Py.

(* ================================================================== *)
(** * The Levenshtein package                                          *)
(* ================================================================== *)

Module Levenshtein.
Import Py.

(** Edit distance in which an insertion and a deletion cost 1 and a
    substitution costs 2. *)
Fixpoint distance (s1 : str) : str -> Z :=
  fix inner (s2 : str) : Z :=
    match s1, s2 with
    | [], _ => len s2
    | _, [] => len s1
    | a :: s1', b :: s2' =>
        Z.min (Z.min (distance s1' s2 + 1) (inner s2' + 1))
              (distance s1' s2' + (if Ascii.eqb a b then 0 else 2))
    end.

(** Modelled from the spec: [Levenshtein.ratio], the similarity function of
    the third-party Levenshtein package, which the repository imports and
    does not contain. The spec calls it the Levenshtein ratio: a normalized
    similarity score in [0,1] derived from edit distance, 1.0 for identical
    strings, 0.0 for strings totally dissimilar relative to their combined
    length, and a zero-length comparison trivially scores 1.0. This is the
    package's formula [(lensum - distance) / lensum], with 1.0 when
    [lensum] is 0. *)
Definition ratio (s1 s2 : str) : Q :=
  let lensum := len s1 + len s2 in
  if lensum =? 0 then 1%Q
  else (inject_Z (lensum - distance s1 s2) / inject_Z lensum)%Q.

End Levenshtein.

(* ================================================================== *)
(** * String processing                                                *)
(* ================================================================== *)

Import Py.

(** One iteration of the scan of [merge_overlapping_strings]: the pair
    [(match, match_score)] after candidate [i]. *)
Definition merge_step (str1 str2 : str) (thresh : Q)
    (acc : Z * Q) (i : Z) : Z * Q :=
  let score := Levenshtein.ratio (slice str1 (Some (- i)) None)
                                 (slice str2 None (Some i)) in
  if Qle_bool thresh score then (i, score) else acc.

(** [merge_overlapping_strings(str1, str2, thresh, max_range)]; the Python
    variable [match] is [match_] here. *)
Definition merge_overlapping_strings (str1 str2 : str) (thresh : Q)
    (max_range : option Z) : str * Z * Q :=
  let max_range :=
    match max_range with
    | None => Z.min (len str1) (len str2)
    | Some m => m
    end in
  let '(match_, match_score) :=
    fold_left (merge_step str1 str2 thresh) (range max_range) (0, (-1)%Q) in
  let result := str1 ++ slice str2 (Some match_) None in
  (result, match_, match_score).


(* ================================================================== *)
(** * Effects: heap of tensors, model calls, exceptions, abort flag    *)
(* ================================================================== *)

Module Torch.

Inductive device := cpu | cuda.
Inductive dtype := float16 | float32 | float64.

Definition device_eqb (a b : device) : bool :=
  match a, b with cpu, cpu | cuda, cuda => true | _, _ => false end.

(** The storage of a tensor: its samples, numeric type and device. A
    tensor of shape [(1, n)] is kept as its single row. *)
Record cell := Cell { data : list Q; dt : dtype; dev : device }.

(** A tensor is the address of its cell. *)
Definition tensor := nat.

(** The exceptions that occur; [InvalidAddress] is the embedding's own,
    for an address that was never allocated. *)
Inductive exn :=
| ValueError | RuntimeError | TypeError | IndexError | OverflowError
| InvalidAddress.

Record world := World {
  heap : list cell;
  (** the batches the model was called on, oldest first *)
  calls : list (list Q);
  (** the controlling thread sets [_abort] before this read of it *)
  abort_at : option nat;
  (** how often [_abort] was read *)
  polls : nat;
  (** the values emitted through [progressSignal], oldest first *)
  progress : list Z }.

Definition set_heap (w : world) (h : list cell) : world :=
  World h (calls w) (abort_at w) (polls w) (progress w).

(** The world after allocating [cells]. *)
Definition extend (w : world) (cells : list cell) : world :=
  set_heap w (heap w ++ cells).

Inductive outcome (A : Type) :=
| Ret (a : A)
| Raise (e : exn).
Arguments Ret {A} a.
Arguments Raise {A} e.

(** A computation runs in a world and leaves a world, also when it
    raises. *)
Definition M (A : Type) : Type := world -> outcome A * world.

Definition ret {A} (a : A) : M A := fun w => (Ret a, w).

Definition raise {A} (e : exn) : M A := fun w => (Raise e, w).

Definition bind {A B} (m : M A) (k : A -> M B) : M B :=
  fun w =>
    match m w with
    | (Ret a, w') => k a w'
    | (Raise e, w') => (Raise e, w')
    end.

Declare Scope monad_scope.
Delimit Scope monad_scope with monad.
Notation "x <- m ;; k" := (bind m (fun x => k))
  (at level 20, m at level 99, k at level 200) : monad_scope.
Notation "' p <- m ;; k" := (bind m (fun x => match x with p => k end))
  (at level 20, p pattern, m at level 99, k at level 200) : monad_scope.
Notation "m ;; k" := (bind m (fun _ => k))
  (at level 100, k at level 200, right associativity) : monad_scope.
Open Scope monad_scope.

(** A [for] loop that threads the local variables [s]. *)
Fixpoint foldM {S A} (body : S -> A -> M S) (l : list A) (s : S) : M S :=
  match l with
  | [] => ret s
  | a :: l' => s' <- body s a ;; foldM body l' s'
  end.

(** A [for] loop whose body may [return]: [inr r] leaves the loop with
    the returned value [r], [inl s] goes on with the locals [s]. *)
Fixpoint for_return {S A R} (body : S -> A -> M (S + R)) (l : list A)
    (s : S) : M (S + R) :=
  match l with
  | [] => ret (inl s)
  | a :: l' =>
      r <- body s a ;;
      match r with
      | inl s' => for_return body l' s'
      | inr v => ret (inr v)
      end
  end.

(** ** Tensors *)

Definition alloc (c : cell) : M tensor :=
  fun w => (Ret (length (heap w)), extend w [c]).

Definition deref (t : tensor) : M cell :=
  fun w =>
    match heap w !! t with
    | Some c => (Ret c, w)
    | None => (Raise InvalidAddress, w)
    end.

(** Overwrites the samples of [t], keeping numeric type and device. *)
Definition write (t : tensor) (vs : list Q) : M unit :=
  c <- deref t ;;
  fun w => (Ret tt, set_heap w (<[t := Cell vs (dt c) (dev c)]> (heap w))).

(** [len(t)] *)
Definition tlen (t : tensor) : M Z :=
  c <- deref t ;; ret (len (data c)).

(** The values of [t[lo:hi]]. *)
Definition getitem (t : tensor) (lo hi : option Z) : M (list Q) :=
  c <- deref t ;; ret (slice (data c) lo hi).

(** Broadcasting the right-hand side of an assignment or in-place
    operation to a destination of [n] samples: same length, or a single
    sample repeated; anything else is a shape error. *)
Definition broadcast (n : nat) (vs : list Q) : M (list Q) :=
  if (length vs =? n)%nat then ret vs
  else match vs with
       | [v] => ret (replicate n v)
       | _ => raise RuntimeError
       end.

(** [t[lo:hi] = f(t[lo:hi], vs)], elementwise, in place. *)
Definition inplace (f : Q -> Q -> Q) (t : tensor) (lo hi : option Z)
    (vs : list Q) : M unit :=
  c <- deref t ;;
  let '(a, b) := slice_indices (len (data c)) lo hi in
  let old := slice (data c) lo hi in
  vs' <- broadcast (length old) vs ;;
  write t (take (Z.to_nat a) (data c) ++ zip_with f old vs'
           ++ drop (Z.to_nat a + length old) (data c)).

(** [t[lo:hi] = vs] *)
Definition setitem := inplace (fun _ v => v).
(** [t[lo:hi] *= vs] *)
Definition imul := inplace Qmult.
(** [t[lo:hi] += vs] *)
Definition iadd := inplace Qplus.

(** [t *= q] for a number [q]. *)
Definition imul_scalar (t : tensor) (q : Q) : M unit :=
  c <- deref t ;; write t (map (fun x => (x * q)%Q) (data c)).

(** [torch.zeros_like(t[lo:hi])]: a new tensor of zeros with the shape,
    numeric type and device of the slice. *)
Definition zeros_like (t : tensor) (lo hi : option Z) : M tensor :=
  c <- deref t ;;
  alloc (Cell (replicate (length (slice (data c) lo hi)) 0%Q) (dt c)
              (dev c)).

(** [t.to(d)]: [t] itself when it is on [d] already, a copy on [d]
    otherwise. *)
Definition to_ (t : tensor) (d : device) : M tensor :=
  c <- deref t ;;
  if device_eqb (dev c) d then ret t else alloc (Cell (data c) (dt c) d).

(** The values of [torch.linspace(a, b, steps)]. *)
Definition linspace (a b : Q) (steps : Z) : list Q :=
  map (fun i => (a + inject_Z i * ((b - a) / inject_Z (steps - 1)))%Q)
      (range steps).

(** Calling the model on [batch]; the call is recorded with the batch as
    it is at that moment. *)
Definition call {O} (model : tensor -> M O) (batch : tensor) : M O :=
  c <- deref batch ;;
  (fun w => (Ret tt, World (heap w) (calls w ++ [data c]) (abort_at w)
                            (polls w) (progress w))) ;;
  model batch.

(** A model given by a function of the samples of its batch, returning a
    new tensor on device [d]. *)
Definition tensor_model (f : list Q -> list Q) (d : device)
    (batch : tensor) : M tensor :=
  c <- deref batch ;; alloc (Cell (f (data c)) (dt c) d).

(** A model given by a function of the samples of its batch, returning a
    Python value. *)
Definition value_model {O} (f : list Q -> O) (batch : tensor) : M O :=
  c <- deref batch ;; ret (f (data c)).

End Torch.

Import Torch.
Open Scope monad_scope.

(** [list(range(start, stop, step))]; a zero step is a [ValueError]. *)
Definition range3 (start stop step : Z) : M (list Z) :=
  if step =? 0 then raise ValueError else ret (range_items start stop step).

(** [a * i] for a float [a] and an integer [i]: the integer is converted
    to a float, which fails for an integer beyond the range of floats; a
    product beyond that range is infinite. *)
Definition float_times_int (a : Q) (i : Z) : M Q :=
  let b := float_of_int i in
  if overflows b then raise OverflowError else ret (float_mul a b).

(** [int(x)] for a float [x]; an infinite [x] cannot be converted. *)
Definition int_of_float (x : Q) : M Z :=
  if overflows x then raise OverflowError else ret (int x).

(** Unpacking the result of a method that may have returned [None]. *)
Definition unpack {A} (r : option A) : M A :=
  match r with
  | Some a => ret a
  | None => raise TypeError
  end.

(** [ch[0][0]] for the pair [(texts, embeddings)] an STT model returns. *)
Definition first_text {E} (ch : list str * E) : M str :=
  match fst ch with
  | t :: _ => ret t
  | [] => raise IndexError
  end.

(* ================================================================== *)
(** * stt_utils.py: audio signal processing and windowed inference     *)
(* ================================================================== *)

Module stt_utils.

(** [linear_fade(tnsr, fade_in, fade_out)], in place. *)
Definition linear_fade (tnsr : tensor) (fade_in fade_out : Z) : M unit :=
  (if 0 <? fade_in then
     let ramp_in := linspace 0 1 (fade_in + 2) in
     imul tnsr None (Some (fade_in + 1)) (slice ramp_in (Some 1) None)
   else ret tt) ;;
  (if 0 <? fade_out then
     let ramp_out := linspace 1 0 (fade_out + 2) in
     imul tnsr (Some (- fade_out - 1)) None
          (slice ramp_out None (Some (-1)))
   else ret tt).

(** The body of the loop of [windowed_run] for the window starting at
    [beg]; [chunks] is the loop's local list. Printing is left out. *)
Definition window_body {O C} (model : tensor -> M O) (tnsr : tensor)
    (winsize : Z) (batch : tensor) (chunk_hook : O -> M C)
    (chunks : list C) (beg : Z) : M (list C) :=
  let end_ := beg + winsize in
  chunk <- getitem tnsr (Some beg) (Some end_) ;;
  imul_scalar batch 0 ;;
  setitem batch None (Some (len chunk)) chunk ;;
  out <- call model batch ;;
  output <- chunk_hook out ;;
  ret (chunks ++ [output]).

(** [windowed_run(model, tnsr, max_winsize, overlap_ratio, device,
    chunk_hook)] *)
Definition windowed_run {O C} (model : tensor -> M O) (tnsr : tensor)
    (max_winsize : Z) (overlap_ratio : Q) (device : device)
    (chunk_hook : O -> M C) : M (list C * list Z * Z * Z) :=
  n <- tlen tnsr ;;
  let winsize := Z.min max_winsize n in
  product <- float_times_int overlap_ratio winsize ;;
  overlap <- int_of_float product ;;
  let stride := winsize - overlap in
  z <- zeros_like tnsr None (Some winsize) ;;
  batch <- to_ z device ;;
  window_range <- range3 0 n stride ;;
  chunks <- foldM (fun chunks '(i, beg) =>
                     window_body model tnsr winsize batch chunk_hook
                                 chunks beg)
                  (enumerate window_range 1) [] ;;
  ret (chunks, window_range, winsize, overlap).

(** [windowed_audio_rendering(model, tnsr, max_winsize, overlap_ratio,
    device)] *)
Definition windowed_audio_rendering (model : tensor -> M tensor)
    (tnsr : tensor) (max_winsize : Z) (overlap_ratio : Q)
    (device : device) : M (tensor * list Z * Z * Z) :=
  '(chunks, begs, winsize, overlap) <-
    windowed_run model tnsr max_winsize overlap_ratio device
                 (fun ch => to_ ch cpu) ;;
  foldM (fun _ ch => linear_fade ch overlap 0)
        (slice chunks (Some 1) None) tt ;;
  foldM (fun _ ch => linear_fade ch 0 overlap)
        (slice chunks None (Some (-1))) tt ;;
  result <- zeros_like tnsr None None ;;
  len_result <- tlen result ;;
  foldM (fun _ '(beg, ch) =>
           let end_ := Z.min (beg + winsize) len_result in
           let chunksize := end_ - beg in
           v <- getitem ch None (Some chunksize) ;;
           iadd result (Some beg) (Some end_) v)
        (combine begs chunks) tt ;;
  ret (result, begs, winsize, overlap).

(** The body of the merge loop of [windowed_stt_rendering] for the chunk
    [ch], numbered [i]: the new locals [(merged, match_scores)]. Printing is
    left out. *)
Definition merge_body (overlap_merge_threshold : Q)
    (max_overlap_characters : option Z) (locals : str * list Q)
    (ich : Z * str) : str * list Q :=
  let '(merged, match_scores) := locals in
  let '(i, ch) := ich in
  let '(merged, _, match_score) :=
    merge_overlapping_strings merged ch overlap_merge_threshold
                              max_overlap_characters in
  (merged, match_scores ++ [match_score]).

(** The merge loop of [windowed_stt_rendering]: the locals
    [(merged, match_scores)] after the given chunks. *)
Definition merge_chunks (chunks : list str) (overlap_merge_threshold : Q)
    (max_overlap_characters : option Z) : str * list Q :=
  fold_left (merge_body overlap_merge_threshold max_overlap_characters)
            (enumerate chunks 1) ([], []).

(** [windowed_stt_rendering(model, tnsr, max_winsize, overlap_ratio,
    device, overlap_merge_threshold, max_overlap_characters)] *)
Definition windowed_stt_rendering {E} (model : tensor -> M (list str * E))
    (tnsr : tensor) (max_winsize : Z) (overlap_ratio : Q) (device : device)
    (overlap_merge_threshold : Q) (max_overlap_characters : option Z)
    : M (str * list Q) :=
  '(chunks, begs, winsize, overlap) <-
    windowed_run model tnsr max_winsize overlap_ratio device first_text ;;
  ret (merge_chunks chunks overlap_merge_threshold max_overlap_characters).

End stt_utils.

(* ================================================================== *)
(** * wav_to_text_silero.py: the worker's abortable variants           *)
(* ================================================================== *)

Module WavToTextSileroWorker.

Definition OVERLAP_MERGE_THRESHOLD : Q := 9 # 10.
Definition MAX_OVERLAP_CHARS : Z := 1000.
Definition EXPECTED_SRATE : Z := 16000.

(** Reading [self._abort]. *)
Definition read_abort : M bool :=
  fun w =>
    (Ret match abort_at w with
         | Some k => (k <=? polls w)%nat
         | None => false
         end,
     World (heap w) (calls w) (abort_at w) (S (polls w)) (progress w)).

(** [self.update_progress(val)] *)
Definition update_progress (val : Z) : M unit :=
  fun w =>
    (Ret tt,
     World (heap w) (calls w) (abort_at w) (polls w) (progress w ++ [val])).

(** [int(i / num * 100)] for [1 <= i <= num], as the loops call it: the
    quotient of the two integers is rounded, and so is its product
    with 100. *)
Definition percent (i num : Z) : Z :=
  int (float_mul (float_div (inject_Z i) (inject_Z num)) (float_of_int 100)).

(** [self.windowed_run(...)]; the result [None] is the bare [return] taken
    when the abort flag is seen. *)
Definition windowed_run {O C} (model : tensor -> M O) (tnsr : tensor)
    (max_winsize : Z) (overlap_ratio : Q) (device : device)
    (chunk_hook : O -> M C) : M (option (list C * list Z * Z * Z)) :=
  n <- tlen tnsr ;;
  let winsize := Z.min max_winsize n in
  product <- float_times_int overlap_ratio winsize ;;
  overlap <- int_of_float product ;;
  let stride := winsize - overlap in
  z <- zeros_like tnsr None (Some winsize) ;;
  batch <- to_ z device ;;
  window_range <- range3 0 n stride ;;
  let num_windows := len window_range in
  r <- for_return
         (fun chunks '(i, beg) =>
            aborted <- read_abort ;;
            if aborted : bool then ret (inr tt)
            else
              update_progress (percent i num_windows) ;;
              chunks <- stt_utils.window_body model tnsr winsize batch
                                              chunk_hook chunks beg ;;
              ret (inl chunks))
         (enumerate window_range 1) [] ;;
  match r with
  | inl chunks => ret (Some (chunks, window_range, winsize, overlap))
  | inr _ => ret None
  end.

(** [self.windowed_stt_rendering(...)] *)
Definition windowed_stt_rendering {E} (model : tensor -> M (list str * E))
    (tnsr : tensor) (max_winsize : Z) (overlap_ratio : Q) (device : device)
    (overlap_merge_threshold : Q) (max_overlap_characters : option Z)
    : M (option (str * list Q)) :=
  r <- windowed_run model tnsr max_winsize overlap_ratio device
                    first_text ;;
  '(chunks, begs, winsize, overlap) <- unpack r ;;
  let num_chunks := len chunks in
  r <- for_return
         (fun locals '(i, ch) =>
            aborted <- read_abort ;;
            if aborted : bool then ret (inr tt)
            else
              update_progress (percent i num_chunks) ;;
              ret (inl (stt_utils.merge_body overlap_merge_threshold
                          max_overlap_characters locals (i, ch))))
         (enumerate chunks 1) ([], []) ;;
  match r with
  | inl (merged, match_scores) => ret (Some (merged, match_scores))
  | inr _ => ret None
  end.

(** [self.run(...)] from the point where the model is loaded and the audio
    prepared: [stt_model] is the loaded model and [whole_audio] the
    prepared signal. *)
Definition run {E} (stt_model : tensor -> M (list str * E))
    (whole_audio : tensor) (max_win_secs win_overlap_ratio : Q)
    (device : device) : M str :=
  product <- float_times_int max_win_secs EXPECTED_SRATE ;;
  max_win_samples <- int_of_float product ;;
  r <- windowed_stt_rendering stt_model whole_audio max_win_samples
         win_overlap_ratio device OVERLAP_MERGE_THRESHOLD
         (Some MAX_OVERLAP_CHARS) ;;
  '(whole_text, _) <- unpack r ;;
  ret whole_text.

End WavToTextSileroWorker.


(* ================================================================== *)
(** * Specifications                                                   *)
(* ================================================================== *)

(** The similarity the code computes for candidate overlap [i]: between
    the Python slices [str1[-i:]] and [str2[:i]]. *)
Definition candidate_score (str1 str2 : str) (i : Z) : Q :=
  Levenshtein.ratio (slice str1 (Some (- i)) None) (slice str2 None (Some i)).

(** The last [i] and the first [i] characters of a string. *)
Definition last_chars (i : Z) (s : str) : str :=
  drop (length s - Z.to_nat i) s.
Definition first_chars (i : Z) (s : str) : str :=
  take (Z.to_nat i) s.

(** The similarity as the specification words it: between the last [i]
    characters of [str1] and the first [i] characters of [str2]. *)
Definition stated_score (str1 str2 : str) (i : Z) : Q :=
  Levenshtein.ratio (last_chars i str1) (first_chars i str2).

(** What the specification says of the result [out] of a merge, for a
    given notion [score] of the similarity of a candidate: the match is the
    largest candidate in [0, max_range) that reaches [thresh], with its
    score; without such a candidate the match is 0, the score -1 and the
    result the plain concatenation. *)
Definition merge_postcondition (score : Z -> Q) (str1 str2 : str)
    (thresh : Q) (max_range : option Z) (out : str * Z * Q) : Prop :=
  let max_range :=
    match max_range with
    | None => Z.min (len str1) (len str2)
    | Some m => m
    end in
  let '(result, match_, match_score) := out in
  result = str1 ++ slice str2 (Some match_) None /\
  ((exists i, 0 <= i < max_range /\ Qle_bool thresh (score i) = true) ->
   0 <= match_ < max_range /\
   Qle_bool thresh (score match_) = true /\
   (forall j, match_ < j < max_range -> Qle_bool thresh (score j) = false) /\
   match_score = score match_) /\
  ((forall i, 0 <= i < max_range -> Qle_bool thresh (score i) = false) ->
   match_ = 0 /\ match_score = (-1)%Q /\ result = str1 ++ str2).

(** The state of the scan of [merge_overlapping_strings] after the
    candidates below [n]. *)
Definition scan_inv (score : Z -> Q) (thresh : Q) (n : Z) (acc : Z * Q)
    : Prop :=
  (0 <= fst acc < n /\
   Qle_bool thresh (score (fst acc)) = true /\
   (forall j, fst acc < j < n -> Qle_bool thresh (score j) = false) /\
   snd acc = score (fst acc))
  \/ ((forall i, 0 <= i < n -> Qle_bool thresh (score i) = false) /\
      acc = (0, (-1)%Q)).

(** The buffer a window starting at [beg] should hand to the model: the
    samples of the signal that the window covers, then zeros up to
    [winsize]. *)
Definition window_samples (signal : list Q) (winsize beg : Z) : list Q :=
  slice signal (Some beg) (Some (beg + winsize)).

(** The contract of the opaque collaborators of the windower: called on an
    allocated batch, the model returns without raising, and so does the hook
    on the model's output; neither changes an existing tensor, the call
    record or the worker's state (they may allocate). *)
Definition well_behaved {O C} (model : tensor -> M O)
    (chunk_hook : O -> M C) : Prop :=
  forall batch w, is_Some (heap w !! batch) ->
    exists o cells ch cells',
      model batch w = (Ret o, extend w cells) /\
      chunk_hook o (extend w cells)
      = (Ret ch, extend (extend w cells) cells').

(** The window size, overlap and stride that [windowed_run] derives for a
    signal of [n] samples; the overlap is the truncation of the rounded
    product, as the code computes it when the product is finite. *)
Definition winsize_of (max_winsize n : Z) : Z := Z.min max_winsize n.
Definition overlap_of (overlap_ratio : Q) (winsize : Z) : Z :=
  int (float_mul overlap_ratio (float_of_int winsize)).

(** The window size in samples that the worker's [run] derives from
    [max_win_secs], when the product is finite. *)
Definition max_win_samples_of (max_win_secs : Q) : Z :=
  int (float_mul max_win_secs
         (float_of_int WavToTextSileroWorker.EXPECTED_SRATE)).

(** The product [a * i] of a float and an integer is a finite float. *)
Definition finite_product (a : Q) (i : Z) : bool :=
  negb (overflows (float_of_int i))
  && negb (overflows (float_mul a (float_of_int i))).
Definition stride_of (max_winsize : Z) (overlap_ratio : Q) (n : Z) : Z :=
  winsize_of max_winsize n
  - overlap_of overlap_ratio (winsize_of max_winsize n).

(** [b] is the buffer of the window that starts at [beg]: [winsize]
    samples, first the samples of the signal the window covers, then
    zeros. *)
Definition is_padded_window (signal : list Q) (winsize beg : Z)
    (b : list Q) : Prop :=
  let chunk := window_samples signal winsize beg in
  length b = Z.to_nat winsize /\
  take (length chunk) b = chunk /\
  Forall (fun x => x == 0)%Q (drop (length chunk) b).

(** The world after the batch at address [batch] was refilled with [b]
    and the model call on it recorded. *)
Definition refilled (w : world) (batch : tensor) (cb : cell) (b : list Q)
    : world :=
  World (<[batch := Cell b (dt cb) (dev cb)]> (heap w)) (calls w ++ [b])
        (abort_at w) (polls w) (progress w).

(** The iterations of the loop of [windowed_run], one per start offset:
    each refills the batch with the padded window, calls the model and
    the hook, and yields one chunk. *)
Inductive window_steps {O C} (model : tensor -> M O) (chunk_hook : O -> M C)
    (signal : list Q) (winsize : Z) (batch : tensor)
    : world -> list Z -> list C -> world -> Prop :=
| steps_done (w : world) :
    window_steps model chunk_hook signal winsize batch w [] [] w
| steps_next (w w' : world) (cb : cell) (b : list Q) (o : O) (ch : C)
    (cells cells' : list cell) (beg : Z) (begs : list Z) (chunks : list C) :
    heap w !! batch = Some cb ->
    is_padded_window signal winsize beg b ->
    model batch (refilled w batch cb b)
    = (Ret o, extend (refilled w batch cb b) cells) ->
    chunk_hook o (extend (refilled w batch cb b) cells)
    = (Ret ch, extend (extend (refilled w batch cb b) cells) cells') ->
    window_steps model chunk_hook signal winsize batch
      (extend (extend (refilled w batch cb b) cells) cells')
      begs chunks w' ->
    window_steps model chunk_hook signal winsize batch w (beg :: begs)
                 (ch :: chunks) w'.

(** The heap [h'] has the tensors of [h], each with as many samples and
    the numeric type and device it had, and unchanged if its address is
    below [base]. *)
Definition reshapes (base : nat) (h h' : list cell) : Prop :=
  length h' = length h /\
  forall i c, h !! i = Some c ->
    exists c', h' !! i = Some c'
               /\ length (data c') = length (data c)
               /\ dt c' = dt c /\ dev c' = dev c
               /\ ((i < base)%nat -> c' = c).

(** The tensor [ch] was allocated at [base] or above and has [size]
    samples. *)
Definition chunk_at (base size : nat) (h : list cell) (ch : tensor) : Prop :=
  (base <= ch)%nat /\ exists c, h !! ch = Some c /\ length (data c) = size.

(** ** Concrete inputs *)

(** A world that holds one tensor, the [float32] signal on the CPU at
    address 0, and in which nothing has happened yet. *)
Definition signal_world (signal : list Q) : world :=
  World [Cell signal float32 cpu] [] None 0 [].

(** The same world for a worker whose [_abort] flag is set before the
    [k]-th read of it. *)
Definition worker_world (signal : list Q) (k : nat) : world :=
  World [Cell signal float32 cpu] [] (Some k) 0 [].

(** An STT model that transcribes a window starting with the sample 1 as
    ["ab"] and any other window as ["bc"]. *)
Definition two_word_model : tensor -> M (list str * unit) :=
  value_model (fun v =>
                 match v with
                 | x :: _ => if Qeq_bool x 1 then ([lit "ab"], tt)
                             else ([lit "bc"], tt)
                 | [] => ([lit "bc"], tt)
                 end).

(** The factor by which [linear_fade] scales the sample at position [p]
    for a fade-in of [fade_in] samples, and for a fade-out of [fade_out]
    samples of a tensor of [n] samples. *)
Definition fade_in_gain (fade_in p : Z) : Q :=
  if (0 <? fade_in) && (p <=? fade_in)
  then inject_Z (p + 1) / inject_Z (fade_in + 1)
  else 1.
Definition fade_out_gain (fade_out n p : Z) : Q :=
  if (0 <? fade_out) && (n - fade_out - 1 <=? p)
  then inject_Z (n - p) / inject_Z (fade_out + 1)
  else 1.

(** Whether a tensor of [n] samples is long enough for a fade of [fade]
    samples: the ramp has [fade + 1] factors. *)
Definition fade_fits (fade n : Z) : bool :=
  (fade <=? 0) || (fade + 1 <=? n).

(** The world [w] with the worker's state (abort flag, number of reads of
    it, emitted progress) replaced. *)
Definition with_worker (w : world) (a : option nat) (p : nat) (g : list Z)
    : world :=
  World (heap w) (calls w) a p g.

(** A computation that neither reads nor writes the worker's state. *)
Definition oblivious {A} (m : M A) : Prop :=
  forall w a p g,
    m (with_worker w a p g) = (fst (m w), with_worker (snd (m w)) a p g).

(* ================================================================== *)
(** * profiles/__init__.py: the dialog that shows a worker's progress  *)
(* ================================================================== *)

Module ProfileDialog.

Definition PROGRESS_BAR_RANGE : Z * Z := (0, 100).

(** [update_progress(step)] for a progress bar that shows [value]: the
    value it shows afterwards, or [None] when the assertion fails. *)
Definition update_progress (with_progress_bar : bool) (value step : Z)
    : option Z :=
  if with_progress_bar then
    let '(minval, maxval) := PROGRESS_BAR_RANGE in
    if (minval <=? step) && (step <=? maxval) then Some step else None
  else Some value.

End ProfileDialog.

(** The slot [update_progress] of the dialog run on each value the worker
    emitted through [progressSignal], in the order of emission. *)
Definition deliver_progress (with_progress_bar : bool) (value : Z)
    (steps : list Z) : option Z :=
  fold_left (fun v step =>
               match v with
               | Some x => ProfileDialog.update_progress with_progress_bar
                                                         x step
               | None => None
               end)
            steps (Some value).

(* ================================================================== *)
(** * wav_to_text_silero.py: the dialog that shows the transcript      *)
(* ================================================================== *)

(** [sep.join(l)] *)
Definition str_join (sep : str) (l : list str) : str :=
  match l with
  | [] => []
  | x :: rest => x ++ flat_map (fun y => sep ++ y) rest
  end.

Module NewlinedProfileDialog.

Definition MAX_CHARS_PER_LINE : Z := 100.

(** The list [rslt] that [setup_result_layout] cuts [result] into. *)
Definition lines (result : str) : list str :=
  map (fun i => slice result (Some i) (Some (i + MAX_CHARS_PER_LINE)))
      (range_items 0 (len result) MAX_CHARS_PER_LINE).

(** [setup_result_layout(result)]: the text of the label it returns. *)
Definition setup_result_layout (result : str) : str :=
  str_join ["010"%char] (lines result).

End NewlinedProfileDialog.




(* ================================================================== *)
(** * wav_to_text_silero.py: preparing the audio                       *)
(* ================================================================== *)

(** [t.sum()], [t.mean()] and, for a tensor with first sample [a] and
    further samples [r], [t.max()]. *)
Definition tensor_sum (l : list Q) : Q := fold_right Qplus 0%Q l.
Definition tensor_mean (l : list Q) : Q :=
  (tensor_sum l / inject_Z (len l))%Q.
Definition tensor_max (a : Q) (r : list Q) : Q := fold_left Qmax r a.

(** What [prepare_arr] returns: a new tensor, or a tensor of [n] samples
    that are all NaN, which a cell of the heap cannot hold. *)
Inductive prepared :=
| Audio (t : tensor)
| NaNs (n : nat).

(** The samples after the resampling step of [prepare_arr]; [resample]
    stands for [torchaudio.transforms.Resample]. *)
Definition resampled (resample : Z -> Z -> list Q -> list Q)
    (arr : list Q) (arr_sr : Z) (target_sr : option Z) : list Q :=
  match target_sr with
  | Some sr => if arr_sr =? sr then arr else resample arr_sr sr arr
  | None => arr
  end.

(** [prepare_arr(arr, arr_sr, target_sr, normalize)] for a
    one-dimensional array [arr] of samples that [float32] represents. The
    mean, the subtraction and the division are exact here: their rounding
    in [float32] is not represented, so that a result is the code's result
    only where that rounding changes nothing (as for silence) or up to
    rounding. *)
Definition prepare_arr (resample : Z -> Z -> list Q -> list Q)
    (arr : list Q) (arr_sr : Z) (target_sr : option Z) (normalize : bool)
    : M prepared :=
  let wav := resampled resample arr arr_sr target_sr in
  if normalize then
    let result := map (fun x => (x - tensor_mean wav)%Q) wav in
    match map Qabs result with
    | [] => raise RuntimeError
    | a :: r =>
        let peak := tensor_max a r in
        if Qeq_bool peak 0 then ret (NaNs (length result))
        else
          t <- alloc (Cell (map (fun x => (x / peak)%Q) result) float32 cpu) ;;
          ret (Audio t)
    end
  else
    t <- alloc (Cell wav float32 cpu) ;; ret (Audio t).

(* ================================================================== *)
(** * The reused buffer on samples that are not finite                 *)
(* ================================================================== *)

(** The cells above hold finite samples. What the two statements
    [batch *= 0] and [batch[:, :len(chunk)] = chunk] of the loop of
    [windowed_run] leave in the reused buffer is stated here for samples
    of any kind, given their multiplication by zero: the chunk, then the
    old samples times zero. The chunk is not longer than the buffer. *)
Definition refill {S} (mul0 : S -> S) (batch chunk : list S)
    : list S :=
  chunk ++ drop (length chunk) (map mul0 batch).

(** The buffers that the loop of [windowed_run] hands to the model, one
    per start offset, for samples of any kind; [batch] is the buffer
    before the loop. *)
Fixpoint window_buffers {S} (mul0 : S -> S) (signal : list S) (winsize : Z)
    (batch : list S) (begs : list Z) : list (list S) :=
  match begs with
  | [] => []
  | beg :: begs' =>
      let chunk := slice signal (Some beg) (Some (beg + winsize)) in
      let batch' := refill mul0 batch chunk in
      batch' :: window_buffers mul0 signal winsize batch' begs'
  end.




(* ================================================================== *)
(** * Python slices and ranges                                         *)
(* ================================================================== *)

Lemma range_eq (n : Z) : range n = map Z.of_nat (seq 0 (Z.to_nat n)).
Proof.
  unfold range, range_items, range_len.
  change (0 <? 1) with true. cbv iota.
  replace (n - 0 + 1 - 1) with n by lia. rewrite Z.div_1_r.
  replace (Z.to_nat (Z.max 0 n)) with (Z.to_nat n) by lia.
  apply map_ext. intros k. lia.
Qed.

Lemma slice_from_0 {A} (l : list A) : slice l (Some 0) None = l.
Proof.
  unfold slice, slice_indices, bound, len.
  change (0 <? 0) with false. cbv iota.
  rewrite Z.min_l by lia. simpl (Z.to_nat 0). rewrite drop_0.
  apply take_ge. lia.
Qed.

(* ================================================================== *)
(** * The fuzzy merge                                                  *)
(* ================================================================== *)

Lemma merge_step_eq (str1 str2 : str) (thresh : Q) (acc : Z * Q) (i : Z) :
  merge_step str1 str2 thresh acc i
  = if Qle_bool thresh (candidate_score str1 str2 i)
    then (i, candidate_score str1 str2 i) else acc.
Proof. reflexivity. Qed.

Lemma scan_candidates (str1 str2 : str) (thresh : Q) (n : nat) :
  scan_inv (candidate_score str1 str2) thresh (Z.of_nat n)
    (fold_left (merge_step str1 str2 thresh)
               (map Z.of_nat (seq 0 n)) (0, (-1)%Q)).
Proof.
  induction n as [|n IH].
  - right. split; [intros i Hi; lia | reflexivity].
  - rewrite seq_S, map_app, fold_left_app. simpl fold_left.
    rewrite merge_step_eq.
    set (acc := fold_left _ _ _) in *.
    destruct (Qle_bool thresh (candidate_score str1 str2 (Z.of_nat n)))
      eqn:Hq.
    + left. simpl. split; [lia |]. split; [exact Hq |].
      split; [intros j Hj; lia | reflexivity].
    + destruct IH as [(Hm & Hqm & Hmax & Hs) | (Hnone & Hacc)].
      * left. split; [lia |]. split; [exact Hqm |]. split; [| exact Hs].
        intros j Hj. destruct (Z.eq_dec j (Z.of_nat n)) as [-> | Hne];
          [exact Hq | apply Hmax; lia].
      * right. split; [| exact Hacc].
        intros i Hi. destruct (Z.eq_dec i (Z.of_nat n)) as [-> | Hne];
          [exact Hq | apply Hnone; lia].
Qed.

Lemma scan_range (str1 str2 : str) (thresh : Q) (max_range : Z) :
  scan_inv (candidate_score str1 str2) thresh max_range
    (fold_left (merge_step str1 str2 thresh) (range max_range) (0, (-1)%Q)).
Proof.
  rewrite range_eq.
  pose proof (scan_candidates str1 str2 thresh (Z.to_nat max_range)) as H.
  destruct (Z_le_gt_dec 0 max_range) as [Hle | Hgt].
  - rewrite Z2Nat.id in H by exact Hle. exact H.
  - replace (Z.to_nat max_range) with 0%nat in * by lia.
    right. split; [intros i Hi; lia | reflexivity].
Qed.

(** C1, as amended: the result of [merge_overlapping_strings] is
    [(str1 + str2[match:], match, match_score)] where [match] is the largest
    candidate [i] in [0, max_range) whose similarity between the Python
    slices [str1[-i:]] and [str2[:i]] reaches [thresh] (for [i = 0] the first
    slice is the whole of [str1], not the empty string), with that
    candidate's score; if no candidate qualifies, [match = 0],
    [match_score = -1] and the result is [str1 + str2]. *)
Theorem merge_overlapping_strings_spec (str1 str2 : str) (thresh : Q)
    (max_range : option Z) :
  merge_postcondition (candidate_score str1 str2) str1 str2 thresh max_range
    (merge_overlapping_strings str1 str2 thresh max_range).
Proof.
  unfold merge_postcondition, merge_overlapping_strings.
  set (mr := match max_range with
             | None => Z.min (len str1) (len str2)
             | Some m => m
             end).
  pose proof (scan_range str1 str2 thresh mr) as Hscan.
  destruct (fold_left _ _ _) as [m s].
  unfold scan_inv in Hscan. cbn [fst snd] in Hscan.
  split; [reflexivity |].
  destruct Hscan as [(Hm & Hqm & Hmax & Hs) | (Hnone & Hacc)].
  - split.
    + intros _. split; [lia |]. split; [exact Hqm |].
      split; [exact Hmax | exact Hs].
    + intros Hno. rewrite Hno in Hqm by lia. discriminate.
  - injection Hacc as -> ->. split.
    + intros (i & Hi & Hq). rewrite Hnone in Hq by exact Hi. discriminate.
    + intros _. rewrite slice_from_0. repeat split.
Qed.

(** C1, as stated, fails: for ["a"], ["b"] and threshold 1 the candidate 0
    qualifies when the similarity is taken between the last 0 characters of
    [str1] and the first 0 characters of [str2] (two empty strings, ratio 1),
    but the code returns the score -1. *)
Lemma merge_overlapping_strings_stated_fails :
  ~ merge_postcondition (stated_score (lit "a") (lit "b"))
      (lit "a") (lit "b") 1 None
      (merge_overlapping_strings (lit "a") (lit "b") 1 None).
Proof.
  assert (Hrun : merge_overlapping_strings (lit "a") (lit "b") 1 None
                 = (lit "ab", 0, (-1)%Q)) by (vm_compute; reflexivity).
  rewrite Hrun. unfold merge_postcondition.
  intros (_ & Hsome & _).
  destruct Hsome as (_ & _ & _ & Hscore).
  - exists 0. split; [vm_compute; split; [discriminate | reflexivity] |].
    vm_compute. reflexivity.
  - vm_compute in Hscore. discriminate Hscore.
Qed.

(** C8: [merge_overlapping_strings("abc", "def", thresh=0.99)] returns the
    plain concatenation ["abcdef"] with [match_score = -1], and no candidate
    of the search range, the length-0 candidate included, reaches the
    threshold. *)
Theorem merge_abc_def_no_overlap :
  merge_overlapping_strings (lit "abc") (lit "def") (99 # 100) None
  = (lit "abcdef", 0, (-1)%Q)
  /\ range (Z.min (len (lit "abc")) (len (lit "def"))) = [0; 1; 2]
  /\ Forall (fun i => Qle_bool (99 # 100)
                        (candidate_score (lit "abc") (lit "def") i) = false)
            [0; 1; 2].
Proof.
  split; [vm_compute; reflexivity |].
  split; [vm_compute; reflexivity |].
  repeat constructor.
Qed.

(* ================================================================== *)
(** * The monad                                                        *)
(* ================================================================== *)

Lemma bind_ret_inv {A B} (m : M A) (k : A -> M B) (w w' : world) (b : B) :
  bind m k w = (Ret b, w') ->
  exists a w1, m w = (Ret a, w1) /\ k a w1 = (Ret b, w').
Proof.
  unfold bind. destruct (m w) as [[a | e] w1]; intros H.
  - exists a, w1. split; [reflexivity | exact H].
  - discriminate H.
Qed.

Lemma bind_ret {A B} (m : M A) (k : A -> M B) (w w1 : world) (a : A) :
  m w = (Ret a, w1) -> bind m k w = k a w1.
Proof. intros H. unfold bind. rewrite H. reflexivity. Qed.

Lemma bind_raise {A B} (m : M A) (k : A -> M B) (w w1 : world) (e : exn) :
  m w = (Raise e, w1) -> bind m k w = (Raise e, w1).
Proof. intros H. unfold bind. rewrite H. reflexivity. Qed.

Lemma bind_run {A B} (m m' : M A) (k : A -> M B) (w w1 : world) :
  m w = m' w1 -> bind m k w = bind m' k w1.
Proof. intros H. unfold bind. rewrite H. reflexivity. Qed.

(** A loop whose body adds one element to its local list per iteration
    ends, when it ends normally, with one element per item. *)
Lemma foldM_length {A C} (body : list C -> A -> M (list C)) :
  (forall s a w s' w',
      body s a w = (Ret s', w') -> length s' = S (length s)) ->
  forall l s w s' w',
    foldM body l s w = (Ret s', w') ->
    length s' = (length s + length l)%nat.
Proof.
  intros Hbody l. induction l as [|a l IH]; intros s w s' w' H.
  - injection H as <- _. simpl. lia.
  - simpl in H. apply bind_ret_inv in H. destruct H as (s1 & w1 & H1 & H2).
    apply Hbody in H1. apply IH in H2. simpl. lia.
Qed.

(* ================================================================== *)
(** * The text stitcher                                                *)
(* ================================================================== *)

Lemma enumerate_length {A} (l : list A) (start : Z) :
  length (enumerate l start) = length l.
Proof.
  unfold enumerate. rewrite length_combine, length_map, length_seq. lia.
Qed.

Lemma enumerate_cons {A} (a : A) (l : list A) (start : Z) :
  enumerate (a :: l) start = (start, a) :: enumerate l (start + 1).
Proof.
  unfold enumerate. simpl. f_equal; [f_equal; lia |].
  rewrite <- seq_shift, map_map. f_equal. apply map_ext. intros k. lia.
Qed.

(** The merge loop appends one score per chunk. *)
Lemma merge_loop_scores (thresh : Q) (moc : option Z)
    (l : list (Z * str)) (acc : str * list Q) :
  exists more,
    snd (fold_left (stt_utils.merge_body thresh moc) l acc) = snd acc ++ more
    /\ length more = length l.
Proof.
  revert acc. induction l as [|[i ch] l IH]; intros [merged scores].
  - exists []. simpl. rewrite app_nil_r. split; reflexivity.
  - change (fold_left (stt_utils.merge_body thresh moc) ((i, ch) :: l)
                      (merged, scores))
      with (fold_left (stt_utils.merge_body thresh moc) l
              (stt_utils.merge_body thresh moc (merged, scores) (i, ch))).
    remember (stt_utils.merge_body thresh moc (merged, scores) (i, ch))
      as acc1 eqn:Hacc.
    unfold stt_utils.merge_body in Hacc.
    destruct (merge_overlapping_strings merged ch thresh moc)
      as [[merged' k] score].
    subst acc1.
    destruct (IH (merged', scores ++ [score])) as (more & Hmore & Hlen).
    exists (score :: more). rewrite Hmore. cbn [snd].
    rewrite <- app_assoc. split; [reflexivity | simpl; lia].
Qed.

Lemma merge_chunks_length (chunks : list str) (thresh : Q) (moc : option Z) :
  length (snd (stt_utils.merge_chunks chunks thresh moc)) = length chunks.
Proof.
  unfold stt_utils.merge_chunks.
  destruct (merge_loop_scores thresh moc (enumerate chunks 1) ([], []))
    as (more & Hmore & Hlen).
  rewrite Hmore. simpl. rewrite Hlen. apply enumerate_length.
Qed.

(** A text run is a windower run followed by the merge loop. *)
Lemma windowed_stt_rendering_inv {E} (model : tensor -> M (list str * E))
    (tnsr : tensor) (max_winsize : Z) (overlap_ratio : Q) (device : device)
    (thresh : Q) (moc : option Z) (w w' : world) (out : str * list Q) :
  stt_utils.windowed_stt_rendering model tnsr max_winsize overlap_ratio
    device thresh moc w = (Ret out, w') ->
  exists chunks begs winsize overlap,
    stt_utils.windowed_run model tnsr max_winsize overlap_ratio device
      first_text w = (Ret (chunks, begs, winsize, overlap), w')
    /\ out = stt_utils.merge_chunks chunks thresh moc.
Proof.
  unfold stt_utils.windowed_stt_rendering. intros H.
  apply bind_ret_inv in H.
  destruct H as ([[[chunks begs] winsize] overlap] & w1 & Hrun & Hret).
  injection Hret as <- <-.
  exists chunks, begs, winsize, overlap. split; [exact Hrun | reflexivity].
Qed.

Lemma windowed_stt_rendering_run {E} (model : tensor -> M (list str * E))
    (tnsr : tensor) (max_winsize : Z) (overlap_ratio : Q) (device : device)
    (thresh : Q) (moc : option Z) (w w' : world)
    (chunks : list str) (begs : list Z) (winsize overlap : Z) :
  stt_utils.windowed_run model tnsr max_winsize overlap_ratio device
    first_text w = (Ret (chunks, begs, winsize, overlap), w') ->
  stt_utils.windowed_stt_rendering model tnsr max_winsize overlap_ratio
    device thresh moc w
  = (Ret (stt_utils.merge_chunks chunks thresh moc), w').
Proof.
  intros H. unfold stt_utils.windowed_stt_rendering.
  rewrite (bind_ret _ _ _ _ _ H). reflexivity.
Qed.

(** One window, one chunk: a windower run that returns has as many chunks
    as start offsets, whatever the model. *)
Lemma window_body_length {O C} (model : tensor -> M O) (tnsr : tensor)
    (winsize : Z) (batch : tensor) (chunk_hook : O -> M C)
    (chunks : list C) (beg : Z) (w w' : world) (chunks' : list C) :
  stt_utils.window_body model tnsr winsize batch chunk_hook chunks beg w
  = (Ret chunks', w') ->
  length chunks' = S (length chunks).
Proof.
  unfold stt_utils.window_body. intros H.
  repeat (apply bind_ret_inv in H; destruct H as (? & ? & _ & H)).
  injection H as <- _. rewrite length_app. simpl. lia.
Qed.

Lemma windowed_run_length {O C} (model : tensor -> M O) (tnsr : tensor)
    (max_winsize : Z) (overlap_ratio : Q) (device : device)
    (chunk_hook : O -> M C) (w w' : world)
    (chunks : list C) (begs : list Z) (winsize overlap : Z) :
  stt_utils.windowed_run model tnsr max_winsize overlap_ratio device
    chunk_hook w = (Ret (chunks, begs, winsize, overlap), w') ->
  length chunks = length begs.
Proof.
  unfold stt_utils.windowed_run. intros H.
  apply bind_ret_inv in H. destruct H as (n & w1 & _ & H).
  apply bind_ret_inv in H. destruct H as (product & wp & _ & H).
  apply bind_ret_inv in H. destruct H as (overlap0 & wo & _ & H).
  apply bind_ret_inv in H. destruct H as (z & w2 & _ & H).
  apply bind_ret_inv in H. destruct H as (batch & w3 & _ & H).
  apply bind_ret_inv in H. destruct H as (window_range & w4 & _ & H).
  apply bind_ret_inv in H. destruct H as (chunks0 & w5 & Hloop & H).
  injection H as <- <- _ _ _.
  apply foldM_length in Hloop.
  - rewrite Hloop, enumerate_length. reflexivity.
  - intros s [i beg] v s' v'. apply window_body_length.
Qed.

(** C4, as amended: a text run that returns yields one similarity score
    per window, the first window included (it is merged into the empty
    accumulator): [match_scores] has exactly as many entries as there are
    per-window strings, and as there are start offsets. *)
Theorem match_scores_one_per_window {E}
    (model : tensor -> M (list str * E))
    (tnsr : tensor) (max_winsize : Z) (overlap_ratio : Q) (device : device)
    (thresh : Q) (moc : option Z) (w w' : world)
    (merged : str) (match_scores : list Q) :
  stt_utils.windowed_stt_rendering model tnsr max_winsize overlap_ratio
    device thresh moc w = (Ret (merged, match_scores), w') ->
  exists chunks begs winsize overlap,
    stt_utils.windowed_run model tnsr max_winsize overlap_ratio device
      first_text w = (Ret (chunks, begs, winsize, overlap), w')
    /\ length match_scores = length chunks
    /\ length chunks = length begs.
Proof.
  intros H. apply windowed_stt_rendering_inv in H.
  destruct H as (chunks & begs & winsize & overlap & Hrun & Hout).
  exists chunks, begs, winsize, overlap. split; [exact Hrun |]. split.
  - change match_scores with (snd (merged, match_scores)).
    rewrite Hout. apply merge_chunks_length.
  - exact (windowed_run_length _ _ _ _ _ _ _ _ _ _ _ _ Hrun).
Qed.

Lemma match_scores_one_per_window_witness :
  exists chunks begs winsize overlap,
    stt_utils.windowed_run two_word_model 0%nat 1 0 cpu first_text
      (signal_world [1; 2]%Q)
    = (Ret (chunks, begs, winsize, overlap),
       World [Cell [1; 2]%Q float32 cpu; Cell [2%Q] float32 cpu]
             [[1%Q]; [2%Q]] None 0 [])
    /\ length [1%Q; (2 # 2)%Q] = length chunks
    /\ length chunks = length begs.
Proof.
  apply (match_scores_one_per_window two_word_model 0%nat 1 0 cpu (4 # 5)
           (Some 3) (signal_world [1; 2]%Q) _ (lit "abc")).
  vm_compute. reflexivity.
Defined.

(** C4, as stated, fails: a run over two windows returns two scores, not
    one. *)
Lemma match_scores_not_one_fewer :
  exists chunks begs winsize overlap merged match_scores w',
    stt_utils.windowed_run two_word_model 0%nat 1 0 cpu first_text
      (signal_world [1; 2]%Q)
    = (Ret (chunks, begs, winsize, overlap), w')
    /\ stt_utils.windowed_stt_rendering two_word_model 0%nat 1 0 cpu (4 # 5)
         (Some 3) (signal_world [1; 2]%Q)
       = (Ret (merged, match_scores), w')
    /\ length chunks = 2%nat
    /\ length match_scores <> (length chunks - 1)%nat.
Proof.
  exists [lit "ab"; lit "bc"], [0; 1], 1, 0, (lit "abc"),
    [1%Q; (2 # 2)%Q].
  eexists. split; [vm_compute; reflexivity |].
  split; [vm_compute; reflexivity |].
  split; [reflexivity | simpl; lia].
Qed.

(** ** The first merge, against the empty accumulator *)

Lemma slice_nil {A} (lo hi : option Z) : slice (@nil A) lo hi = [].
Proof.
  unfold slice. destruct (slice_indices _ lo hi) as [a b].
  rewrite drop_nil, take_nil. reflexivity.
Qed.

Lemma slice_prefix {A} (l : list A) (i : Z) :
  0 <= i -> slice l None (Some i) = take (Z.to_nat i) l.
Proof.
  intros Hi. unfold slice, slice_indices, bound, len.
  destruct (Z.ltb_spec i 0) as [Hneg | _]; [lia |].
  simpl (Z.to_nat 0). rewrite drop_0, Z.sub_0_r.
  destruct (Z_le_gt_dec i (Z.of_nat (length l))) as [Hle | Hgt].
  - rewrite Z.min_l by exact Hle. reflexivity.
  - rewrite Z.min_r by lia. rewrite !take_ge by lia. reflexivity.
Qed.

Lemma distance_nil_l (s : str) : Levenshtein.distance [] s = len s.
Proof. destruct s; reflexivity. Qed.

Lemma ratio_nil_nil : Levenshtein.ratio [] [] = 1%Q.
Proof. reflexivity. Qed.

(** Against the empty string a non-empty string scores 0, which is below
    every positive threshold. *)
Lemma ratio_nil_below (s : str) (thresh : Q) :
  s <> [] -> (0 < thresh)%Q ->
  Qle_bool thresh (Levenshtein.ratio [] s) = false.
Proof.
  intros Hs Hpos. apply not_true_is_false. intros Hle.
  apply Qle_bool_iff in Hle. unfold Levenshtein.ratio in Hle.
  rewrite distance_nil_l in Hle.
  assert (Hlen : 0 < len s) by (destruct s; [congruence | unfold len; simpl; lia]).
  change (len (@nil ascii)) with 0 in Hle. rewrite Z.add_0_l in Hle.
  destruct (Z.eqb_spec (len s) 0) as [H0 | _]; [lia |].
  rewrite Z.sub_diag in Hle.
  assert (Hz : (inject_Z 0 / inject_Z (len s) == 0)%Q).
  { unfold Qdiv. rewrite Qmult_0_l. reflexivity. }
  rewrite Hz in Hle. exact (Qlt_not_le _ _ Hpos Hle).
Qed.

Lemma candidate_score_empty_acc (ch : str) (i : Z) :
  0 <= i ->
  candidate_score [] ch i = Levenshtein.ratio [] (take (Z.to_nat i) ch).
Proof.
  intros Hi. unfold candidate_score.
  rewrite slice_nil, slice_prefix by exact Hi. reflexivity.
Qed.

(** Merging a chunk into the empty accumulator returns the chunk unchanged
    with the score 1. *)
Lemma merge_empty_accumulator (ch : str) (thresh : Q) (m : Z) :
  (0 < thresh)%Q -> (thresh <= 1)%Q -> 0 < m ->
  exists k, merge_overlapping_strings [] ch thresh (Some m) = (ch, k, 1%Q).
Proof.
  intros Hpos Hle1 Hm. unfold merge_overlapping_strings.
  pose proof (scan_range [] ch thresh m) as Hscan.
  destruct (fold_left _ _ _) as [k s].
  unfold scan_inv in Hscan. cbn [fst snd] in Hscan.
  assert (H0 : Qle_bool thresh (candidate_score [] ch 0) = true).
  { rewrite candidate_score_empty_acc by lia.
    change (Z.to_nat 0) with 0%nat. rewrite take_0, ratio_nil_nil. apply Qle_bool_iff. exact Hle1. }
  destruct Hscan as [(Hk & Hqk & _ & Hs) | (Hnone & _)].
  - exists k. rewrite app_nil_l.
    rewrite candidate_score_empty_acc in Hqk, Hs by lia.
    destruct ch as [|c ch].
    + rewrite take_nil in Hs. rewrite slice_nil, Hs. reflexivity.
    + assert (k = 0) as ->.
      { destruct (Z.eq_dec k 0) as [-> | Hne]; [reflexivity |].
        rewrite ratio_nil_below in Hqk; [discriminate | | exact Hpos].
        replace (Z.to_nat k) with (S (Z.to_nat (k - 1))) by lia.
        discriminate. }
      rewrite slice_from_0, Hs. reflexivity.
  - rewrite Hnone in H0 by lia. discriminate.
Qed.

Lemma merge_chunks_cons (ch : str) (rest : list str) (thresh : Q) (m : Z) :
  (0 < thresh)%Q -> (thresh <= 1)%Q -> 0 < m ->
  exists scores,
    snd (stt_utils.merge_chunks (ch :: rest) thresh (Some m))
    = 1%Q :: scores
    /\ stt_utils.merge_chunks [ch] thresh (Some m) = (ch, [1%Q]).
Proof.
  intros Hpos Hle1 Hm.
  destruct (merge_empty_accumulator ch thresh m Hpos Hle1 Hm) as (k & Hk).
  assert (Hfirst : stt_utils.merge_body thresh (Some m) ([], []) (1, ch)
                   = (ch, [1%Q])).
  { unfold stt_utils.merge_body. rewrite Hk. reflexivity. }
  unfold stt_utils.merge_chunks. rewrite !enumerate_cons.
  cbn [fold_left]. rewrite Hfirst.
  destruct (merge_loop_scores thresh (Some m) (enumerate rest (1 + 1))
              (ch, [1%Q])) as (more & Hmore & _).
  exists more. split; [exact Hmore | reflexivity].
Qed.

(** C10: in a text run with merge threshold in (0, 1], a positive
    [max_overlap_characters] and at least one window, the first entry of
    [match_scores] is 1 (the first chunk is merged into the empty
    accumulator, where the length-0 candidate compares two empty strings),
    and the merged string after this first step is the first window's
    text. *)
Theorem first_match_score_is_one {E} (model : tensor -> M (list str * E))
    (tnsr : tensor) (max_winsize : Z) (overlap_ratio : Q) (device : device)
    (thresh : Q) (m : Z) (w w' : world)
    (chunks : list str) (begs : list Z) (winsize overlap : Z) :
  (0 < thresh)%Q -> (thresh <= 1)%Q -> 0 < m ->
  stt_utils.windowed_run model tnsr max_winsize overlap_ratio device
    first_text w = (Ret (chunks, begs, winsize, overlap), w') ->
  chunks <> [] ->
  exists ch rest merged scores,
    chunks = ch :: rest
    /\ stt_utils.windowed_stt_rendering model tnsr max_winsize overlap_ratio
         device thresh (Some m) w = (Ret (merged, 1%Q :: scores), w')
    /\ stt_utils.merge_chunks [ch] thresh (Some m) = (ch, [1%Q]).
Proof.
  intros Hpos Hle1 Hm Hrun Hne.
  destruct chunks as [|ch rest]; [congruence |].
  destruct (merge_chunks_cons ch rest thresh m Hpos Hle1 Hm)
    as (scores & Hscores & Hone).
  exists ch, rest,
    (fst (stt_utils.merge_chunks (ch :: rest) thresh (Some m))), scores.
  split; [reflexivity |]. split; [| exact Hone].
  rewrite (windowed_stt_rendering_run _ _ _ _ _ thresh (Some m) _ _ _ _ _ _
             Hrun).
  rewrite <- Hscores. rewrite <- surjective_pairing. reflexivity.
Qed.

Lemma first_match_score_is_one_witness :
  exists ch rest merged scores,
    [lit "ab"; lit "bc"] = ch :: rest
    /\ stt_utils.windowed_stt_rendering two_word_model 0%nat 1 0 cpu (4 # 5)
         (Some 3) (signal_world [1; 2]%Q)
       = (Ret (merged, 1%Q :: scores),
          World [Cell [1; 2]%Q float32 cpu; Cell [2%Q] float32 cpu]
                [[1%Q]; [2%Q]] None 0 [])
    /\ stt_utils.merge_chunks [ch] (4 # 5) (Some 3) = (ch, [1%Q]).
Proof.
  apply (first_match_score_is_one two_word_model 0%nat 1 0 cpu (4 # 5) 3
           (signal_world [1; 2]%Q) _ _ [0; 1] 1 0).
  - reflexivity.
  - discriminate.
  - lia.
  - vm_compute. reflexivity.
  - discriminate.
Defined.

(* ================================================================== *)
(** * Tensor operations                                                *)
(* ================================================================== *)

Lemma deref_ok (t : tensor) (c : cell) (w : world) :
  heap w !! t = Some c -> deref t w = (Ret c, w).
Proof. intros H. unfold deref. rewrite H. reflexivity. Qed.

Lemma write_ok (t : tensor) (vs : list Q) (c : cell) (w : world) :
  heap w !! t = Some c ->
  write t vs w
  = (Ret tt, set_heap w (<[t := Cell vs (dt c) (dev c)]> (heap w))).
Proof.
  intros H. unfold write. rewrite (bind_ret _ _ _ _ _ (deref_ok t c w H)).
  reflexivity.
Qed.

Lemma tlen_ok (t : tensor) (c : cell) (w : world) :
  heap w !! t = Some c -> tlen t w = (Ret (len (data c)), w).
Proof.
  intros H. unfold tlen. rewrite (bind_ret _ _ _ _ _ (deref_ok t c w H)).
  reflexivity.
Qed.

Lemma getitem_ok (t : tensor) (lo hi : option Z) (c : cell) (w : world) :
  heap w !! t = Some c ->
  getitem t lo hi w = (Ret (slice (data c) lo hi), w).
Proof.
  intros H. unfold getitem. rewrite (bind_ret _ _ _ _ _ (deref_ok t c w H)).
  reflexivity.
Qed.

Lemma broadcast_same (n : nat) (vs : list Q) (w : world) :
  length vs = n -> broadcast n vs w = (Ret vs, w).
Proof.
  intros H. unfold broadcast. rewrite (proj2 (Nat.eqb_eq _ _) H).
  reflexivity.
Qed.

(** The samples of a cell after [t[lo:hi] = f(t[lo:hi], vs)]. *)
Lemma inplace_ok (f : Q -> Q -> Q) (t : tensor) (lo hi : option Z)
    (vs : list Q) (c : cell) (w : world) :
  heap w !! t = Some c ->
  length vs = length (slice (data c) lo hi) ->
  inplace f t lo hi vs w
  = (Ret tt,
     set_heap w
       (<[t := Cell (take (Z.to_nat (fst (slice_indices (len (data c)) lo hi)))
                          (data c)
                     ++ zip_with f (slice (data c) lo hi) vs
                     ++ drop (Z.to_nat (fst (slice_indices (len (data c))
                                                           lo hi))
                              + length (slice (data c) lo hi))
                             (data c))
                    (dt c) (dev c)]> (heap w))).
Proof.
  intros H Hlen. unfold inplace.
  rewrite (bind_ret _ _ _ _ _ (deref_ok t c w H)).
  destruct (slice_indices (len (data c)) lo hi) as [a b] eqn:Hab.
  rewrite (bind_ret _ _ _ _ _ (broadcast_same _ vs w Hlen)).
  cbn [fst]. apply write_ok. exact H.
Qed.

Lemma imul_scalar_ok (t : tensor) (q : Q) (c : cell) (w : world) :
  heap w !! t = Some c ->
  imul_scalar t q w
  = (Ret tt,
     set_heap w (<[t := Cell (map (fun x => (x * q)%Q) (data c))
                             (dt c) (dev c)]> (heap w))).
Proof.
  intros H. unfold imul_scalar.
  rewrite (bind_ret _ _ _ _ _ (deref_ok t c w H)). apply write_ok. exact H.
Qed.

Lemma zeros_like_ok (t : tensor) (lo hi : option Z) (c : cell) (w : world) :
  heap w !! t = Some c ->
  zeros_like t lo hi w
  = (Ret (length (heap w)),
     extend w [Cell (replicate (length (slice (data c) lo hi)) 0%Q)
                    (dt c) (dev c)]).
Proof.
  intros H. unfold zeros_like.
  rewrite (bind_ret _ _ _ _ _ (deref_ok t c w H)). reflexivity.
Qed.

(** [t.to(d)] returns an allocated tensor with the samples of [t], at [t]
    or above, and allocates at most the copy. *)
Lemma to_ok (t : tensor) (d : device) (c : cell) (w : world) :
  heap w !! t = Some c ->
  exists t' cells c',
    to_ t d w = (Ret t', extend w cells)
    /\ (t <= t')%nat
    /\ heap (extend w cells) !! t' = Some c'
    /\ data c' = data c /\ dt c' = dt c.
Proof.
  intros H. unfold to_. rewrite (bind_ret _ _ _ _ _ (deref_ok t c w H)).
  destruct (device_eqb (dev c) d).
  - exists t, [], c. unfold extend, set_heap. cbn [heap].
    rewrite app_nil_r. destruct w. repeat split; [lia | exact H].
  - exists (length (heap w)), [Cell (data c) (dt c) d], (Cell (data c) (dt c) d).
    repeat split.
    + apply lookup_lt_Some in H. lia.
    + unfold extend, set_heap. cbn [heap].
      rewrite lookup_app_r by lia. rewrite Nat.sub_diag. reflexivity.
Qed.

(** Calling the model appends the batch to the record of calls and runs
    the model. *)
Lemma call_ok {O} (model : tensor -> M O) (batch : tensor) (c : cell)
    (w : world) :
  heap w !! batch = Some c ->
  call model batch w
  = model batch (World (heap w) (calls w ++ [data c]) (abort_at w) (polls w)
                       (progress w)).
Proof.
  intros H. unfold call.
  rewrite (bind_ret _ _ _ _ _ (deref_ok batch c w H)). reflexivity.
Qed.

(* ================================================================== *)
(** * Slices of lists                                                  *)
(* ================================================================== *)

Lemma slice_length_le {A} (l : list A) (lo hi : option Z) :
  (length (slice l lo hi) <= length l)%nat.
Proof.
  unfold slice. destruct (slice_indices _ lo hi) as [a b].
  rewrite length_take, length_drop. lia.
Qed.

(** A slice with non-negative bounds. *)
Lemma slice_between {A} (l : list A) (a b : Z) :
  0 <= a -> 0 <= b ->
  slice l (Some a) (Some b)
  = take (Z.to_nat (Z.min b (len l)) - Z.to_nat (Z.min a (len l)))
         (drop (Z.to_nat (Z.min a (len l))) l).
Proof.
  intros Ha Hb. unfold slice, slice_indices, bound.
  destruct (Z.ltb_spec a 0); [lia |]. destruct (Z.ltb_spec b 0); [lia |].
  f_equal. unfold len. lia.
Qed.

Lemma window_samples_length (signal : list Q) (winsize beg : Z) :
  0 <= beg -> 0 <= winsize ->
  (length (window_samples signal winsize beg) <= Z.to_nat winsize)%nat.
Proof.
  intros Hb Hw. unfold window_samples.
  rewrite slice_between by lia. rewrite length_take, length_drop.
  unfold len. lia.
Qed.

Lemma zip_with_right {A B} (l1 : list A) (l2 : list B) :
  length l1 = length l2 -> zip_with (fun _ v => v) l1 l2 = l2.
Proof.
  revert l2. induction l1 as [|a l1 IH]; intros [|b l2] H;
    try discriminate; [reflexivity |].
  simpl. f_equal. apply IH. simpl in H. lia.
Qed.

(* ================================================================== *)
(** * The windower                                                     *)
(* ================================================================== *)

(** The buffer built for a window: the covered samples, then what is left
    of the batch after [batch *= 0]. *)
Lemma refill_is_padded_window (signal old : list Q) (winsize beg : Z) :
  0 <= beg -> 0 <= winsize -> length old = Z.to_nat winsize ->
  is_padded_window signal winsize beg
    (window_samples signal winsize beg
     ++ drop (length (window_samples signal winsize beg))
             (map (fun x => (x * 0)%Q) old)).
Proof.
  intros Hb Hw Hold.
  pose proof (window_samples_length signal winsize beg Hb Hw) as Hlen.
  unfold is_padded_window. cbv zeta. split; [| split].
  - rewrite length_app, length_drop, length_map. lia.
  - apply take_app_length.
  - rewrite drop_app_length. apply Forall_drop.
    apply List.Forall_map. apply Forall_forall. intros x _.
    apply Qmult_0_r.
Qed.

(** One iteration of the loop, up to the model call: the batch is refilled
    with the padded window and the call is recorded. *)
Lemma window_body_refill {O C} (model : tensor -> M O) (tnsr : tensor)
    (winsize : Z) (batch : tensor) (chunk_hook : O -> M C)
    (chunks : list C) (beg : Z) (w : world) (ct cb : cell) :
  heap w !! tnsr = Some ct ->
  heap w !! batch = Some cb ->
  tnsr <> batch ->
  length (data cb) = Z.to_nat winsize ->
  0 <= beg -> 0 <= winsize ->
  exists b,
    b = refill (fun x => (x * 0)%Q) (data cb)
               (window_samples (data ct) winsize beg)
    /\ is_padded_window (data ct) winsize beg b
    /\ stt_utils.window_body model tnsr winsize batch chunk_hook chunks beg w
       = (o <- model batch ;; output <- chunk_hook o ;;
          ret (chunks ++ [output])) (refilled w batch cb b).
Proof.
  intros Ht Hb Hne Hlen Hbeg Hws.
  set (chunk := window_samples (data ct) winsize beg).
  set (zs := map (fun x => (x * 0)%Q) (data cb)).
  exists (chunk ++ drop (length chunk) zs). split; [reflexivity |]. split.
  { apply refill_is_padded_window; assumption. }
  pose proof (window_samples_length (data ct) winsize beg Hbeg Hws) as Hcl.
  fold chunk in Hcl.
  assert (Hbl : (batch < length (heap w))%nat) by (eapply lookup_lt_Some; eauto).
  unfold stt_utils.window_body.
  rewrite (bind_ret _ _ _ _ _ (getitem_ok tnsr _ _ ct w Ht)).
  fold (window_samples (data ct) winsize beg). fold chunk.
  rewrite (bind_ret _ _ _ _ _ (imul_scalar_ok batch 0 cb w Hb)). fold zs.
  set (wa := set_heap w (<[batch := Cell zs (dt cb) (dev cb)]> (heap w))).
  assert (Hba : heap wa !! batch = Some (Cell zs (dt cb) (dev cb))).
  { unfold wa, set_heap. cbn [heap]. apply list_lookup_insert_eq. exact Hbl. }
  assert (Hzl : length zs = Z.to_nat winsize).
  { unfold zs. rewrite length_map. exact Hlen. }
  assert (Hsl : slice zs None (Some (len chunk)) = take (length chunk) zs).
  { rewrite slice_prefix by (unfold len; lia). unfold len.
    rewrite Nat2Z.id. reflexivity. }
  assert (Hset : setitem batch None (Some (len chunk)) chunk wa
                 = (Ret tt,
                    set_heap w (<[batch := Cell (chunk ++ drop (length chunk) zs)
                                            (dt cb) (dev cb)]> (heap w)))).
  { unfold setitem. rewrite (inplace_ok _ batch None (Some (len chunk)) chunk
                              _ wa Hba);
      [| cbn [data]; rewrite Hsl, length_take; lia].
    cbn [data dt dev slice_indices fst]. rewrite Hsl.
    change (Z.to_nat 0) with 0%nat. rewrite take_0, app_nil_l.
    rewrite zip_with_right by (rewrite length_take; lia).
    rewrite length_take, Nat.add_0_l, Nat.min_l by lia.
    unfold wa, set_heap. cbn [heap calls abort_at polls progress].
    rewrite list_insert_insert_eq. reflexivity. }
  rewrite (bind_ret _ _ _ _ _ Hset).
  set (wb := set_heap w _).
  assert (Hbb : heap wb !! batch
                = Some (Cell (chunk ++ drop (length chunk) zs) (dt cb) (dev cb))).
  { unfold wb, set_heap. cbn [heap]. apply list_lookup_insert_eq. exact Hbl. }
  rewrite (bind_run _ _ _ _ _ (call_ok model batch _ wb Hbb)).
  reflexivity.
Qed.

Lemma enumerate_snd {A} (l : list A) (start : Z) :
  map snd (enumerate l start) = l.
Proof.
  revert start. induction l as [|a l IH]; intros start; [reflexivity |].
  rewrite enumerate_cons. simpl. f_equal. apply IH.
Qed.

(** The loop of [windowed_run] runs through: with well-behaved
    collaborators every iteration refills the batch, records and makes the
    call, and adds one chunk. *)
Lemma window_loop {O C} (model : tensor -> M O) (chunk_hook : O -> M C)
    (tnsr batch : tensor) (winsize : Z) (ct : cell) (l : list (Z * Z)) :
  well_behaved model chunk_hook ->
  tnsr <> batch -> 0 <= winsize ->
  Forall (fun beg => 0 <= beg) (map snd l) ->
  forall (acc : list C) (w : world) (cb : cell),
    heap w !! tnsr = Some ct ->
    heap w !! batch = Some cb ->
    length (data cb) = Z.to_nat winsize ->
    exists chunks w',
      foldM (fun chunks '(i, beg) =>
               stt_utils.window_body model tnsr winsize batch chunk_hook
                                     chunks beg) l acc w
      = (Ret (acc ++ chunks), w')
      /\ window_steps model chunk_hook (data ct) winsize batch w
           (map snd l) chunks w'.
Proof.
  intros Hwb Hne Hws. induction l as [|[i beg] l IH]; intros Hbegs acc w cb Ht Hb Hlen.
  - exists [], w. rewrite app_nil_r. split; [reflexivity | constructor].
  - simpl in Hbegs. apply Forall_cons in Hbegs. destruct Hbegs as [Hbeg Hbegs].
    destruct (window_body_refill model tnsr winsize batch chunk_hook acc beg
                w ct cb Ht Hb Hne Hlen Hbeg Hws) as (b & _ & Hpad & Hbody).
    assert (Hbl : (batch < length (heap w))%nat)
      by (eapply lookup_lt_Some; eauto).
    set (w1 := refilled w batch cb b) in *.
    assert (Hb1 : heap w1 !! batch = Some (Cell b (dt cb) (dev cb))).
    { unfold w1, refilled. cbn [heap]. apply list_lookup_insert_eq.
      exact Hbl. }
    destruct (Hwb batch w1 (ex_intro _ _ Hb1))
      as (o & cells & ch & cells' & Hmodel & Hhook).
    set (w3 := extend (extend w1 cells) cells') in *.
    assert (Hstep : stt_utils.window_body model tnsr winsize batch chunk_hook
                      acc beg w = (Ret (acc ++ [ch]), w3)).
    { rewrite Hbody. rewrite (bind_ret _ _ _ _ _ Hmodel).
      rewrite (bind_ret _ _ _ _ _ Hhook). reflexivity. }
    assert (Ht3 : heap w3 !! tnsr = Some ct).
    { unfold w3, extend, set_heap, w1, refilled. cbn [heap].
      apply lookup_app_l_Some, lookup_app_l_Some.
      rewrite list_lookup_insert_ne by congruence. exact Ht. }
    assert (Hb3 : heap w3 !! batch = Some (Cell b (dt cb) (dev cb))).
    { unfold w3, extend, set_heap. cbn [heap].
      apply lookup_app_l_Some, lookup_app_l_Some. exact Hb1. }
    destruct (IH Hbegs (acc ++ [ch]) w3 _ Ht3 Hb3 (proj1 Hpad))
      as (chunks & w' & Hloop & Hsteps).
    exists (ch :: chunks), w'. split.
    + cbn [foldM]. rewrite (bind_ret _ _ _ _ _ Hstep). rewrite Hloop.
      rewrite <- app_assoc. reflexivity.
    + cbn [map snd]. eapply steps_next; eauto.
Qed.

(* ================================================================== *)
(** * Floats: rounding to binary64                                     *)
(* ================================================================== *)

Lemma round_half_even_cases (y : Q) :
  round_half_even y = Qfloor y
  \/ (round_half_even y = Qfloor y + 1 /\ (1 # 2 <= y - inject_Z (Qfloor y))%Q).
Proof.
  unfold round_half_even.
  destruct (Qcompare_spec (y - inject_Z (Qfloor y)) (1 # 2)) as [He | Hl | Hg].
  - destruct (Z.even (Qfloor y)); [left; reflexivity |].
    right. split; [reflexivity |]. rewrite He. apply Qle_refl.
  - left. reflexivity.
  - right. split; [reflexivity |]. apply Qlt_le_weak. exact Hg.
Qed.

Lemma round_half_even_upper (y : Q) (k : Z) :
  (y <= inject_Z k)%Q -> round_half_even y <= k.
Proof.
  intros Hy. pose proof (Qfloor_le y) as Hf.
  assert (Hfk : Qfloor y <= k).
  { rewrite Zle_Qle. eapply Qle_trans; eauto. }
  destruct (round_half_even_cases y) as [-> | [-> Hh]]; [exact Hfk |].
  assert (Hlt : (inject_Z (Qfloor y) < inject_Z k)%Q).
  { eapply Qlt_le_trans; [| exact Hy].
    apply Qlt_minus_iff. eapply Qlt_le_trans; [| exact Hh]. reflexivity. }
  rewrite <- Zlt_Qlt in Hlt. lia.
Qed.

Lemma round_half_even_lower (y : Q) (k : Z) :
  (inject_Z k <= y)%Q -> k <= round_half_even y.
Proof.
  intros Hy.
  assert (Hfk : k <= Qfloor y).
  { rewrite <- (Qfloor_Z k). apply Qfloor_resp_le. exact Hy. }
  destruct (round_half_even_cases y) as [-> | [-> _]]; lia.
Qed.

Lemma round_half_even_int (y : Q) (k : Z) :
  (y == inject_Z k)%Q -> round_half_even y = k.
Proof.
  intros Hy. apply Z.le_antisymm.
  - apply round_half_even_upper. rewrite Hy. apply Qle_refl.
  - apply round_half_even_lower. rewrite Hy. apply Qle_refl.
Qed.

Lemma round_half_even_near (y : Q) :
  (inject_Z (round_half_even y) <= y + (1 # 2))%Q.
Proof.
  pose proof (Qfloor_le y) as Hf.
  unfold round_half_even.
  destruct (Qcompare_spec (y - inject_Z (Qfloor y)) (1 # 2)) as [He | Hl | Hg].
  - destruct (Z.even (Qfloor y)).
    + eapply Qle_trans; [exact Hf |].
      rewrite <- (Qplus_0_r y) at 1. apply Qplus_le_r. discriminate.
    + rewrite inject_Z_plus.
      setoid_replace (y + (1 # 2))%Q with (inject_Z (Qfloor y) + (y - inject_Z (Qfloor y)) + (1 # 2))%Q using relation Qeq by ring.
      rewrite He. setoid_replace (inject_Z (Qfloor y) + (1 # 2) + (1 # 2))%Q
        with (inject_Z (Qfloor y) + inject_Z 1)%Q using relation Qeq by ring.
      apply Qle_refl.
  - eapply Qle_trans; [exact Hf |].
    rewrite <- (Qplus_0_r y) at 1. apply Qplus_le_r. discriminate.
  - rewrite inject_Z_plus.
    apply Qlt_le_weak in Hg.
    setoid_replace (y + (1 # 2))%Q
      with (inject_Z (Qfloor y) + (1 # 2) + (y - inject_Z (Qfloor y)))%Q
      using relation Qeq by ring.
    setoid_replace (inject_Z (Qfloor y) + inject_Z 1)%Q
      with (inject_Z (Qfloor y) + (1 # 2) + (1 # 2))%Q using relation Qeq by ring.
    apply Qplus_le_r. exact Hg.
Qed.

Lemma two_nonzero : ~ (2 == 0)%Q.
Proof. discriminate. Qed.

Lemma pow2_pos (k : Z) : (0 < 2 ^ k)%Q.
Proof. apply Qpower_0_lt. reflexivity. Qed.

Lemma pow2_inject (k : Z) : 0 <= k -> (inject_Z (2 ^ k) == 2 ^ k)%Q.
Proof. intros Hk. apply (Zpower_Qpower 2 k Hk). Qed.

Lemma pow2_le (a b : Z) : a <= b -> (2 ^ a <= 2 ^ b)%Q.
Proof. intros H. apply Qpower_le_compat_l; [exact H | discriminate]. Qed.

Lemma pow2_lt_inv (a b : Z) : (2 ^ a < 2 ^ b)%Q -> a < b.
Proof.
  intros H. destruct (Z.lt_ge_cases a b) as [Hlt | Hge]; [exact Hlt |].
  exfalso. apply (Qlt_not_le _ _ H). apply pow2_le. exact Hge.
Qed.

Lemma pow2_cancel (s : Z) : (2 ^ s * 2 ^ (- s) == 1)%Q.
Proof.
  rewrite <- Qpower_plus by exact two_nonzero.
  replace (s + - s) with 0 by lia. reflexivity.
Qed.

(** The exponent of a positive number: [2^e <= x < 2^(e+1)]. *)
Lemma exponent_spec (x : Q) :
  (0 < x)%Q -> (2 ^ exponent x <= x)%Q /\ (x < 2 ^ (exponent x + 1))%Q.
Proof.
  intros Hx. destruct x as [n d].
  assert (Hn : 0 < n).
  { unfold Qlt in Hx. cbn [Qnum Qden] in Hx. lia. }
  unfold exponent. cbn [Qnum Qden].
  set (a := Z.log2 n). set (b := Z.log2 (Z.pos d)).
  pose proof (Z.log2_spec n Hn) as Ha. fold a in Ha.
  pose proof (Z.log2_spec (Z.pos d) ltac:(lia)) as Hb. fold b in Hb.
  pose proof (Z.log2_nonneg n) as Ha0. fold a in Ha0.
  pose proof (Z.log2_nonneg (Z.pos d)) as Hb0. fold b in Hb0.
  assert (Hxq : (n # d == inject_Z n / inject_Z (Z.pos d))%Q)
    by apply Qmake_Qdiv.
  assert (Hdpos : (0 < inject_Z (Z.pos d))%Q) by reflexivity.
  assert (Hup : (n # d < 2 ^ (a - b + 1))%Q).
  { rewrite Hxq. apply Qlt_shift_div_r; [exact Hdpos |].
    apply Qlt_le_trans with (2 ^ (a - b + 1) * 2 ^ b)%Q.
    - rewrite <- Qpower_plus by exact two_nonzero.
      replace (a - b + 1 + b) with (a + 1) by lia.
      rewrite <- pow2_inject by lia. rewrite <- Zlt_Qlt. lia.
    - apply Qmult_le_l; [apply pow2_pos |].
      rewrite <- pow2_inject by lia. rewrite <- Zle_Qle. lia. }
  assert (Hlow : (2 ^ (a - b - 1) <= n # d)%Q).
  { rewrite Hxq. apply Qle_shift_div_l; [exact Hdpos |].
    apply Qle_trans with (2 ^ (a - b - 1) * 2 ^ (b + 1))%Q.
    - apply Qmult_le_l; [apply pow2_pos |].
      rewrite <- pow2_inject by lia. rewrite <- Zle_Qle. lia.
    - rewrite <- Qpower_plus by exact two_nonzero.
      replace (a - b - 1 + (b + 1)) with a by lia.
      rewrite <- pow2_inject by lia. rewrite <- Zle_Qle. lia. }
  destruct (Qle_bool (2 ^ (a - b)) (n # d)) eqn:Hc.
  - apply Qle_bool_iff in Hc. split; [exact Hc | exact Hup].
  - split; [exact Hlow |].
    replace (a - b - 1 + 1) with (a - b) by lia.
    apply Qnot_le_lt. intros Hle. apply Qle_bool_iff in Hle. congruence.
Qed.

Lemma exponent_lt (x : Q) (k : Z) :
  (0 < x)%Q -> (x < 2 ^ k)%Q -> exponent x < k.
Proof.
  intros Hx Hk. destruct (exponent_spec x Hx) as [Hlo _].
  apply pow2_lt_inv. eapply Qle_lt_trans; eauto.
Qed.

Lemma round_float_positive (x : Q) :
  (0 < x)%Q -> round_float x = round_positive x.
Proof.
  intros Hx. unfold round_float.
  destruct (Qcompare_spec x 0) as [He | Hl | Hg]; [| | reflexivity].
  - rewrite He in Hx. discriminate Hx.
  - exfalso. apply (Qlt_irrefl 0). eapply Qlt_trans; eauto.
Qed.

Lemma round_float_zero (x : Q) : (x == 0)%Q -> round_float x = 0%Q.
Proof.
  intros Hx. unfold round_float.
  destruct (Qcompare_spec x 0) as [He | Hl | Hg]; [reflexivity | |].
  - rewrite Hx in Hl. discriminate Hl.
  - rewrite Hx in Hg. discriminate Hg.
Qed.

Lemma round_positive_nonneg (x : Q) : (0 < x)%Q -> (0 <= round_positive x)%Q.
Proof.
  intros Hx. unfold round_positive.
  apply Qmult_le_0_compat; [| apply Qlt_le_weak, pow2_pos].
  change 0%Q with (inject_Z 0). rewrite <- Zle_Qle.
  apply round_half_even_lower. change (inject_Z 0) with 0%Q.
  apply Qmult_le_0_compat; [apply Qlt_le_weak, Hx | apply Qlt_le_weak, pow2_pos].
Qed.

(** Rounding keeps the sign. *)
Lemma round_float_nonneg (x : Q) : (0 <= x)%Q -> (0 <= round_float x)%Q.
Proof.
  intros Hx. destruct (Qle_lt_or_eq _ _ Hx) as [Hlt | Heq].
  - rewrite round_float_positive by exact Hlt.
    apply round_positive_nonneg. exact Hlt.
  - rewrite round_float_zero by (symmetry; exact Heq). apply Qle_refl.
Qed.

(** Rounding a positive number below [2^53] does not pass an integer
    above it. *)
Lemma round_float_le_int (x : Q) (z : Z) :
  (0 <= x)%Q -> (x <= inject_Z z)%Q -> z < 2 ^ 53 ->
  (round_float x <= inject_Z z)%Q.
Proof.
  intros Hx Hz Hz53. destruct (Qle_lt_or_eq _ _ Hx) as [Hlt | Heq].
  2:{ rewrite round_float_zero by (symmetry; exact Heq).
      eapply Qle_trans; eauto. }
  rewrite round_float_positive by exact Hlt.
  assert (He : exponent x < 53).
  { apply exponent_lt; [exact Hlt |].
    eapply Qle_lt_trans; [exact Hz |].
    rewrite <- pow2_inject by lia. rewrite <- Zlt_Qlt. exact Hz53. }
  unfold round_positive. set (s := 52 - exponent x).
  assert (Hs : 0 <= s) by (unfold s; lia).
  assert (Hr : round_half_even (x * 2 ^ s) <= z * 2 ^ s).
  { apply round_half_even_upper. rewrite inject_Z_mult.
    rewrite pow2_inject by exact Hs.
    apply Qmult_le_compat_r; [exact Hz | apply Qlt_le_weak, pow2_pos]. }
  rewrite Zle_Qle in Hr. rewrite inject_Z_mult in Hr.
  rewrite pow2_inject in Hr by exact Hs.
  apply Qle_trans with (inject_Z z * 2 ^ s * 2 ^ (- s))%Q.
  - apply Qmult_le_compat_r; [exact Hr | apply Qlt_le_weak, pow2_pos].
  - rewrite <- Qmult_assoc. rewrite pow2_cancel. rewrite Qmult_1_r.
    apply Qle_refl.
Qed.

(** Integers below [2^53] are floats: rounding a number equal to one
    gives it back. *)
Lemma round_float_int (x : Q) (z : Z) :
  (x == inject_Z z)%Q -> 0 <= z < 2 ^ 53 -> (round_float x == inject_Z z)%Q.
Proof.
  intros Hx [Hz0 Hz53].
  destruct (Z.eq_dec z 0) as [-> | Hne].
  { rewrite round_float_zero by exact Hx. reflexivity. }
  assert (Hlt : (0 < x)%Q).
  { rewrite Hx. change 0%Q with (inject_Z 0). rewrite <- Zlt_Qlt. lia. }
  rewrite round_float_positive by exact Hlt.
  assert (He : exponent x < 53).
  { apply exponent_lt; [exact Hlt |]. rewrite Hx.
    rewrite <- pow2_inject by lia. rewrite <- Zlt_Qlt. exact Hz53. }
  unfold round_positive. set (s := 52 - exponent x).
  assert (Hs : 0 <= s) by (unfold s; lia).
  rewrite (round_half_even_int (x * 2 ^ s) (z * 2 ^ s)).
  - rewrite inject_Z_mult, pow2_inject by exact Hs.
    rewrite <- Qmult_assoc, pow2_cancel, Qmult_1_r. reflexivity.
  - rewrite inject_Z_mult, pow2_inject by exact Hs. rewrite Hx. reflexivity.
Qed.

(** The relative error of rounding, upwards: at most [2^-53]. *)
Lemma round_float_rel (x : Q) :
  (0 < x)%Q -> (round_float x <= x * (1 + 2 ^ (-53)))%Q.
Proof.
  intros Hlt. rewrite round_float_positive by exact Hlt.
  destruct (exponent_spec x Hlt) as [Hlo _].
  unfold round_positive. set (s := 52 - exponent x).
  pose proof (round_half_even_near (x * 2 ^ s)) as Hn.
  apply Qle_trans with ((x * 2 ^ s + (1 # 2)) * 2 ^ (- s))%Q.
  - apply Qmult_le_compat_r; [exact Hn | apply Qlt_le_weak, pow2_pos].
  - setoid_replace ((x * 2 ^ s + (1 # 2)) * 2 ^ (- s))%Q
      with (x * (2 ^ s * 2 ^ (- s)) + (1 # 2) * 2 ^ (- s))%Q
      using relation Qeq by ring.
    rewrite pow2_cancel, Qmult_1_r.
    setoid_replace (x * (1 + 2 ^ (-53)))%Q with (x + x * 2 ^ (-53))%Q
      using relation Qeq by ring.
    apply Qplus_le_r.
    apply Qle_trans with (2 ^ exponent x * 2 ^ (-53))%Q.
    + change (1 # 2)%Q with (2 ^ (-1))%Q.
      rewrite <- !Qpower_plus by exact two_nonzero.
      apply pow2_le. unfold s. lia.
    + apply Qmult_le_compat_r; [exact Hlo | apply Qlt_le_weak, pow2_pos].
Qed.

(** A float below 1 is at most [1 - 2^-53]. *)
Lemma is_float_below_one (r : Q) :
  is_float r -> (0 <= r)%Q -> (r < 1)%Q -> (r <= 1 - 2 ^ (-53))%Q.
Proof.
  intros Hf H0 H1. destruct (Qle_lt_or_eq _ _ H0) as [Hlt | Heq].
  2:{ rewrite <- Heq. discriminate. }
  unfold is_float in Hf. rewrite round_float_positive in Hf by exact Hlt.
  assert (He : exponent r < 0).
  { apply exponent_lt; [exact Hlt |]. exact H1. }
  destruct (Z.eq_dec (exponent r) (-1)) as [He1 | Hne].
  - unfold round_positive in Hf. rewrite He1 in Hf.
    change (52 - -1) with 53 in Hf.
    set (m := round_half_even (r * 2 ^ 53)) in *.
    assert (Hm : m < 2 ^ 53).
    { rewrite Zlt_Qlt. rewrite pow2_inject by lia.
      setoid_replace (inject_Z m) with (inject_Z m * 2 ^ (- 53) * 2 ^ 53)%Q
        using relation Qeq.
      2:{ rewrite <- Qmult_assoc, (Qmult_comm (2 ^ (- 53))), pow2_cancel.
          rewrite Qmult_1_r. reflexivity. }
      rewrite Hf. rewrite <- (Qmult_1_l (2 ^ 53)) at 2.
      apply Qmult_lt_compat_r; [apply pow2_pos | exact H1]. }
    rewrite <- Hf.
    apply Qle_trans with (inject_Z (2 ^ 53 - 1) * 2 ^ (- 53))%Q.
    + apply Qmult_le_compat_r; [| apply Qlt_le_weak, pow2_pos].
      rewrite <- Zle_Qle. lia.
    + discriminate.
  - destruct (exponent_spec r Hlt) as [_ Hhi].
    apply Qlt_le_weak. eapply Qlt_le_trans; [exact Hhi |].
    apply Qle_trans with (2 ^ (-1))%Q; [apply pow2_le; lia | discriminate].
Qed.

Lemma float_of_int_exact (z : Z) :
  0 <= z <= 2 ^ 53 -> (float_of_int z == inject_Z z)%Q.
Proof.
  intros Hz. unfold float_of_int.
  destruct (Z.eq_dec z (2 ^ 53)) as [-> | Hne].
  - vm_compute. reflexivity.
  - apply round_float_int; [reflexivity | lia].
Qed.

Lemma overflows_small (x : Q) :
  (0 <= x)%Q -> (x <= 2 ^ 53)%Q -> overflows x = false.
Proof.
  intros H0 Hx. unfold overflows.
  destruct (Qle_bool (2 ^ 1024) (Qabs x)) eqn:Hc; [| reflexivity].
  apply Qle_bool_iff in Hc. rewrite Qabs_pos in Hc by exact H0.
  exfalso. apply (Qle_not_lt _ _ (Qle_trans _ _ _ Hc Hx)). reflexivity.
Qed.

(** The rounded product of a float in [0, 1) and a window size is
    non-negative and below the window size. *)
Lemma product_bounds (overlap_ratio : Q) (winsize : Z) :
  is_float overlap_ratio ->
  (0 <= overlap_ratio)%Q -> (overlap_ratio < 1)%Q -> 1 <= winsize <= 2 ^ 53 ->
  (0 <= float_mul overlap_ratio (float_of_int winsize))%Q
  /\ (float_mul overlap_ratio (float_of_int winsize) < inject_Z winsize)%Q.
Proof.
  intros Hf H0 H1 Hw.
  pose proof (float_of_int_exact winsize ltac:(lia)) as HW.
  assert (HWpos : (0 < inject_Z winsize)%Q).
  { change 0%Q with (inject_Z 0). rewrite <- Zlt_Qlt. lia. }
  unfold float_mul.
  set (x := (overlap_ratio * float_of_int winsize)%Q).
  assert (Hx : (x == overlap_ratio * inject_Z winsize)%Q)
    by (unfold x; rewrite HW; reflexivity).
  assert (Hx0 : (0 <= x)%Q).
  { rewrite Hx. apply Qmult_le_0_compat; [exact H0 |].
    apply Qlt_le_weak. exact HWpos. }
  split; [apply round_float_nonneg; exact Hx0 |].
  destruct (Qle_lt_or_eq _ _ Hx0) as [Hlt | Heq].
  2:{ rewrite round_float_zero by (symmetry; exact Heq). exact HWpos. }
  eapply Qle_lt_trans; [apply round_float_rel; exact Hlt |].
  pose proof (is_float_below_one overlap_ratio Hf H0 H1) as Hr.
  apply Qle_lt_trans
    with ((1 - 2 ^ (-53)) * inject_Z winsize * (1 + 2 ^ (-53)))%Q.
  - apply Qmult_le_compat_r; [| discriminate].
    rewrite Hx. apply Qmult_le_compat_r; [exact Hr |].
    apply Qlt_le_weak. exact HWpos.
  - setoid_replace ((1 - 2 ^ (-53)) * inject_Z winsize * (1 + 2 ^ (-53)))%Q
      with (((1 - 2 ^ (-53)) * (1 + 2 ^ (-53))) * inject_Z winsize)%Q
      using relation Qeq by ring.
    rewrite <- (Qmult_1_l (inject_Z winsize)) at 2.
    apply Qmult_lt_compat_r; [exact HWpos | reflexivity].
Qed.

(** [int] of a non-negative float below an integer [m]. *)
Lemma int_bounds (x : Q) (m : Z) :
  (0 <= x)%Q -> (x < inject_Z m)%Q -> 0 <= int x < m.
Proof.
  intros H0 Hm. unfold int. unfold Qle in H0. unfold Qlt in Hm.
  cbn [Qnum Qden inject_Z] in H0, Hm.
  assert (Hn : 0 <= Qnum x) by lia.
  split.
  - apply Z.quot_pos; lia.
  - apply Z.quot_lt_upper_bound; lia.
Qed.

(** For a float [overlap_ratio] in [0, 1) and a window of at most [2^53]
    samples the overlap is non-negative and smaller than the window. *)
Lemma overlap_bounds (overlap_ratio : Q) (winsize : Z) :
  is_float overlap_ratio ->
  (0 <= overlap_ratio)%Q -> (overlap_ratio < 1)%Q -> 1 <= winsize <= 2 ^ 53 ->
  0 <= overlap_of overlap_ratio winsize < winsize.
Proof.
  intros Hf H0 H1 Hw. unfold overlap_of.
  destruct (product_bounds overlap_ratio winsize Hf H0 H1 Hw) as [Hp0 Hp1].
  apply int_bounds; assumption.
Qed.

Lemma overlap_finite (overlap_ratio : Q) (winsize : Z) :
  is_float overlap_ratio ->
  (0 <= overlap_ratio)%Q -> (overlap_ratio < 1)%Q -> 1 <= winsize <= 2 ^ 53 ->
  finite_product overlap_ratio winsize = true.
Proof.
  intros Hf H0 H1 Hw. unfold finite_product.
  destruct (product_bounds overlap_ratio winsize Hf H0 H1 Hw) as [Hp0 Hp1].
  assert (HW53 : (inject_Z winsize <= 2 ^ 53)%Q).
  { rewrite <- pow2_inject by lia. rewrite <- Zle_Qle. lia. }
  rewrite !overflows_small; [reflexivity | exact Hp0 | | |].
  - apply Qlt_le_weak. eapply Qlt_le_trans; eauto.
  - rewrite float_of_int_exact by lia.
    change 0%Q with (inject_Z 0). rewrite <- Zle_Qle. lia.
  - rewrite float_of_int_exact by lia. exact HW53.
Qed.

(** With a finite product, [int(overlap_ratio * winsize)] is the overlap. *)
Lemma overlap_computed {A} (overlap_ratio : Q) (winsize : Z)
    (k : Z -> M A) (w : world) :
  finite_product overlap_ratio winsize = true ->
  (product <- float_times_int overlap_ratio winsize ;;
   overlap <- int_of_float product ;;
   k overlap) w
  = k (overlap_of overlap_ratio winsize) w.
Proof.
  unfold finite_product. intros H. apply andb_true_iff in H.
  destruct H as [H1 H2]. apply negb_true_iff in H1, H2.
  unfold float_times_int, int_of_float, bind, ret. rewrite H1.
  rewrite H2. reflexivity.
Qed.

(** With an infinite product the conversion raises, in the world as it
    is. *)
Lemma overlap_overflows {A} (overlap_ratio : Q) (winsize : Z)
    (k : Z -> M A) (w : world) :
  finite_product overlap_ratio winsize = false ->
  (product <- float_times_int overlap_ratio winsize ;;
   overlap <- int_of_float product ;;
   k overlap) w
  = (Raise OverflowError, w).
Proof.
  unfold finite_product. intros H.
  unfold float_times_int, int_of_float, bind, ret, raise.
  destruct (overflows (float_of_int winsize)); [reflexivity |].
  cbn [negb andb] in H. apply negb_false_iff in H. rewrite H. reflexivity.
Qed.

(** The two conversions do not touch the world. *)
Lemma float_times_int_inv (a : Q) (i : Z) (w w' : world) (x : Q) :
  float_times_int a i w = (Ret x, w') ->
  w' = w /\ forall w0, float_times_int a i w0 = (Ret x, w0).
Proof.
  unfold float_times_int. destruct (overflows (float_of_int i));
    [discriminate |].
  unfold ret. intros H. injection H as <- <-. split; reflexivity.
Qed.

Lemma int_of_float_inv (x : Q) (w w' : world) (z : Z) :
  int_of_float x w = (Ret z, w') ->
  w' = w /\ forall w0, int_of_float x w0 = (Ret z, w0).
Proof.
  unfold int_of_float. destruct (overflows x); [discriminate |].
  unfold ret. intros H. injection H as <- <-. split; reflexivity.
Qed.

Lemma range_items_nonneg (n stride : Z) :
  0 < stride -> Forall (fun beg => 0 <= beg) (range_items 0 n stride).
Proof.
  intros Hs. unfold range_items. apply List.Forall_map.
  apply Forall_forall. intros k _. nia.
Qed.

Lemma extend_extend (w : world) (cells cells' : list cell) :
  extend (extend w cells) cells' = extend w (cells ++ cells').
Proof.
  unfold extend, set_heap. cbn [heap calls abort_at polls progress].
  rewrite app_assoc. reflexivity.
Qed.

(** A valid windower run returns: the start offsets are those of
    [range(0, n, stride)], and the loop ran through them. *)
Lemma windowed_run_ok {O C} (model : tensor -> M O) (chunk_hook : O -> M C)
    (tnsr : tensor) (max_winsize : Z) (overlap_ratio : Q) (device : device)
    (w : world) (ct : cell) :
  well_behaved model chunk_hook ->
  heap w !! tnsr = Some ct ->
  1 <= len (data ct) -> 1 <= max_winsize ->
  (0 <= overlap_ratio)%Q -> (overlap_ratio < 1)%Q ->
  is_float overlap_ratio ->
  winsize_of max_winsize (len (data ct)) <= 2 ^ 53 ->
  let n := len (data ct) in
  let winsize := winsize_of max_winsize n in
  let overlap := overlap_of overlap_ratio winsize in
  let stride := stride_of max_winsize overlap_ratio n in
  exists chunks w' pre batch,
    stt_utils.windowed_run model tnsr max_winsize overlap_ratio device
      chunk_hook w
    = (Ret (chunks, range_items 0 n stride, winsize, overlap), w')
    /\ window_steps model chunk_hook (data ct) winsize batch (extend w pre)
         (range_items 0 n stride) chunks w'
    /\ (length (heap w) <= batch)%nat
    /\ is_Some (heap (extend w pre) !! batch)
    /\ 1 <= stride <= winsize.
Proof.
  intros Hwb Ht Hn Hmax Hr0 Hr1 Hfl Hfit n winsize overlap stride.
  assert (Hws : 1 <= winsize <= n) by (unfold winsize, winsize_of; lia).
  pose proof (overlap_bounds overlap_ratio winsize Hfl Hr0 Hr1
                (conj (proj1 Hws) Hfit)) as Hov.
  fold overlap in Hov.
  assert (Hst : 1 <= stride <= winsize).
  { unfold stride, stride_of. fold n winsize overlap. lia. }
  assert (Htl : (tnsr < length (heap w))%nat)
    by (eapply lookup_lt_Some; eauto).
  (* the batch *)
  set (zc := Cell (replicate (length (slice (data ct) None (Some winsize)))
                             0%Q) (dt ct) (dev ct)).
  assert (Hz : heap (extend w [zc]) !! length (heap w) = Some zc).
  { unfold extend, set_heap. cbn [heap]. rewrite lookup_app_r by lia.
    rewrite Nat.sub_diag. reflexivity. }
  destruct (to_ok (length (heap w)) device zc (extend w [zc]) Hz)
    as (batch & cells & cb & Hto & Hge & Hb & Hdata & _).
  rewrite extend_extend in Hto, Hb.
  set (pre := [zc] ++ cells) in *.
  assert (Hcbl : length (data cb) = Z.to_nat winsize).
  { rewrite Hdata. unfold zc. cbn [data]. rewrite length_replicate.
    rewrite slice_prefix by lia. rewrite length_take. unfold n, len in Hws.
    lia. }
  assert (Ht' : heap (extend w pre) !! tnsr = Some ct).
  { unfold extend, set_heap. cbn [heap]. apply lookup_app_l_Some. exact Ht. }
  destruct (window_loop model chunk_hook tnsr batch winsize ct
              (enumerate (range_items 0 n stride) 1) Hwb
              ltac:(lia) ltac:(lia)
              ltac:(rewrite enumerate_snd; apply range_items_nonneg; lia)
              [] (extend w pre) cb Ht' Hb Hcbl)
    as (chunks & w' & Hloop & Hsteps).
  rewrite enumerate_snd in Hsteps. rewrite app_nil_l in Hloop.
  exists chunks, w', pre, batch.
  split; [| split; [exact Hsteps | split; [exact Hge | split; [eauto | exact Hst]]]].
  unfold stt_utils.windowed_run.
  rewrite (bind_ret _ _ _ _ _ (tlen_ok tnsr ct w Ht)).
  fold n. fold (winsize_of max_winsize n). fold winsize.
  rewrite overlap_computed
    by (apply overlap_finite; [assumption .. | split; [lia | exact Hfit]]).
  fold overlap.
  rewrite (bind_ret _ _ _ _ _ (zeros_like_ok tnsr None _ ct w Ht)).
  fold zc.
  rewrite (bind_ret _ _ _ _ _ Hto).
  change (winsize - overlap) with stride.
  assert (Hrange : range3 0 n stride (extend w pre)
                   = (Ret (range_items 0 n stride), extend w pre)).
  { unfold range3. destruct (Z.eqb_spec stride 0); [lia | reflexivity]. }
  rewrite (bind_ret _ _ _ _ _ Hrange).
  rewrite (bind_ret _ _ _ _ _ Hloop). reflexivity.
Qed.

(** ** The start offsets *)

Lemma range_len_pos (n stride : Z) :
  0 < stride ->
  range_len 0 n stride = Z.max 0 ((n + stride - 1) / stride).
Proof.
  intros Hs. unfold range_len. destruct (Z.ltb_spec 0 stride); [| lia].
  f_equal. f_equal. lia.
Qed.

Lemma range_items_lookup (n stride : Z) (i : nat) (x : Z) :
  range_items 0 n stride !! i = Some x -> x = Z.of_nat i * stride.
Proof.
  unfold range_items. change (map ?f ?l) with (f <$> l).
  rewrite list_lookup_fmap. intros H.
  destruct (seq 0 _ !! i) as [k|] eqn:Hk; [| discriminate].
  apply lookup_seq in Hk. destruct Hk as [-> _].
  injection H as <-. simpl. lia.
Qed.

Lemma range_items_In (n stride x : Z) :
  0 < stride ->
  In x (range_items 0 n stride)
  <-> exists k, 0 <= k /\ x = k * stride /\ x < n.
Proof.
  intros Hs. unfold range_items. rewrite range_len_pos by exact Hs.
  rewrite in_map_iff. split.
  - intros (k & <- & Hk). apply in_seq in Hk.
    exists (Z.of_nat k). split; [lia |]. split; [lia |].
    pose proof (Z.mul_div_le (n + stride - 1) stride Hs) as Hq.
    assert (Z.of_nat k + 1 <= (n + stride - 1) / stride) by lia.
    nia.
  - intros (k & Hk & -> & Hlt). exists (Z.to_nat k).
    split; [lia |]. apply in_seq.
    assert (k + 1 <= (n + stride - 1) / stride)
      by (apply Z.div_le_lower_bound; [exact Hs | nia]).
    lia.
Qed.

Lemma range_items_head (n stride : Z) :
  0 < stride -> 1 <= n -> exists rest, range_items 0 n stride = 0 :: rest.
Proof.
  intros Hs Hn.
  assert (Hin : In 0 (range_items 0 n stride)).
  { apply range_items_In; [exact Hs |]. exists 0. lia. }
  destruct (range_items 0 n stride) as [|x rest] eqn:Hl; [contradiction |].
  exists rest. f_equal.
  assert (H0 : range_items 0 n stride !! 0%nat = Some x)
    by (rewrite Hl; reflexivity).
  apply range_items_lookup in H0. lia.
Qed.

Lemma range_items_empty (n stride : Z) :
  0 <= n -> stride <> 0 -> (n = 0 \/ stride < 0) ->
  range_items 0 n stride = [].
Proof.
  intros Hn Hs Hcase. unfold range_items.
  replace (range_len 0 n stride) with 0; [reflexivity |].
  unfold range_len. destruct (Z.ltb_spec 0 stride) as [Hpos | Hneg].
  - assert (n = 0) as -> by lia.
    assert ((0 - 0 + stride - 1) / stride < 1)
      by (apply Z.div_lt_upper_bound; lia).
    lia.
  - assert ((0 - n - stride - 1) / (- stride) < 1)
      by (apply Z.div_lt_upper_bound; lia).
    lia.
Qed.

(** ** What the loop leaves behind *)

Lemma steps_calls {O C} (model : tensor -> M O) (chunk_hook : O -> M C)
    (signal : list Q) (winsize : Z) (batch : tensor)
    (w w' : world) (begs : list Z) (chunks : list C) :
  window_steps model chunk_hook signal winsize batch w begs chunks w' ->
  exists bs,
    calls w' = calls w ++ bs
    /\ Forall2 (fun b beg => is_padded_window signal winsize beg b) bs begs.
Proof.
  induction 1 as [w | w w' cb b o ch cells cells' beg begs chunks
                      Hb Hpad Hmodel Hhook Hsteps IH].
  - exists []. rewrite app_nil_r. split; [reflexivity | constructor].
  - destruct IH as (bs & Hcalls & Hall). exists (b :: bs). split.
    + rewrite Hcalls. unfold extend, set_heap, refilled. cbn [calls].
      rewrite <- app_assoc. reflexivity.
    + constructor; assumption.
Qed.

Lemma extend_nil (w : world) : extend w [] = w.
Proof.
  destruct w. unfold extend, set_heap. cbn. rewrite app_nil_r. reflexivity.
Qed.

(** A model that computes a value from the samples of its batch, with the
    hook that returns the value as it is, is well-behaved. *)
Lemma value_model_well_behaved {O} (f : list Q -> O) :
  well_behaved (value_model f) ret.
Proof.
  intros batch w [c Hc]. exists (f (data c)), [], (f (data c)), [].
  rewrite !extend_nil. split; [| reflexivity].
  unfold value_model. rewrite (bind_ret _ _ _ _ _ (deref_ok batch c w Hc)).
  reflexivity.
Qed.

(** C3: for a signal of [n >= 1] samples, [max_winsize >= 1] and a float
    [overlap_ratio] in [0, 1), the stride, computed from the rounded
    product [overlap_ratio * winsize] as the code does, is at least 1 and
    the windower
    returns the start offsets [0, stride, 2*stride, ...] below [n]: the
    i-th offset is [i * stride], an offset is generated exactly when it is a
    multiple of the stride below [n], the offsets begin at 0 and increase
    strictly, and every sample index of [0, n) lies in
    [start, start + winsize) for a generated start. *)
Theorem windower_start_offsets {O C} (model : tensor -> M O)
    (chunk_hook : O -> M C) (tnsr : tensor) (max_winsize : Z)
    (overlap_ratio : Q) (device : device) (w : world) (ct : cell) :
  well_behaved model chunk_hook ->
  heap w !! tnsr = Some ct ->
  1 <= len (data ct) -> 1 <= max_winsize ->
  (0 <= overlap_ratio)%Q -> (overlap_ratio < 1)%Q ->
  is_float overlap_ratio ->
  winsize_of max_winsize (len (data ct)) <= 2 ^ 53 ->
  let n := len (data ct) in
  let winsize := winsize_of max_winsize n in
  let stride := stride_of max_winsize overlap_ratio n in
  exists chunks begs overlap w',
    stt_utils.windowed_run model tnsr max_winsize overlap_ratio device
      chunk_hook w = (Ret (chunks, begs, winsize, overlap), w')
    /\ 1 <= stride
    /\ (forall i x, begs !! i = Some x -> x = Z.of_nat i * stride)
    /\ (forall x, In x begs <-> exists k, 0 <= k /\ x = k * stride /\ x < n)
    /\ (exists rest, begs = 0 :: rest)
    /\ (forall i j x y, (i < j)%nat ->
          begs !! i = Some x -> begs !! j = Some y -> x < y)
    /\ (forall j, 0 <= j < n ->
          exists x, In x begs /\ x <= j < x + winsize).
Proof.
  intros Hwb Ht Hn Hmax Hr0 Hr1 Hfl Hfit n winsize stride.
  destruct (windowed_run_ok model chunk_hook tnsr max_winsize overlap_ratio
              device w ct Hwb Ht Hn Hmax Hr0 Hr1 Hfl Hfit)
    as (chunks & w' & pre & batch & Hrun & _ & _ & _ & Hst).
  fold n winsize stride in Hrun, Hst.
  exists chunks, (range_items 0 n stride), (overlap_of overlap_ratio winsize), w'.
  split; [exact Hrun |]. split; [lia |].
  split; [intros i x; apply range_items_lookup |].
  split; [intros x; apply range_items_In; lia |].
  split; [apply range_items_head; [lia | exact Hn] |].
  split.
  - intros i j x y Hij Hx Hy.
    apply range_items_lookup in Hx, Hy. subst x y. nia.
  - intros j Hj. exists (j / stride * stride).
    pose proof (Z.mul_div_le j stride ltac:(lia)) as Hle.
    pose proof (Z.mul_succ_div_gt j stride ltac:(lia)) as Hgt.
    split; [| nia].
    apply range_items_In; [lia |]. exists (j / stride).
    split; [apply Z.div_pos; lia |]. split; [reflexivity | nia].
Qed.

Lemma windower_start_offsets_witness :
  exists chunks begs overlap w',
    stt_utils.windowed_run (value_model (fun v => v)) 0%nat 10
      (round_float (3 # 10)) cpu ret
      (signal_world [1; 2; 3; 4; 5; 6; 7; 8; 9; 10]%Q)
    = (Ret (chunks, begs, winsize_of 10 10, overlap), w')
    /\ 1 <= stride_of 10 (round_float (3 # 10)) 10
    /\ (forall i x, begs !! i = Some x
                    -> x = Z.of_nat i * stride_of 10 (round_float (3 # 10)) 10)
    /\ (forall x, In x begs
                  <-> exists k, 0 <= k
                                /\ x = k * stride_of 10 (round_float (3 # 10)) 10
                                /\ x < 10)
    /\ (exists rest, begs = 0 :: rest)
    /\ (forall i j x y, (i < j)%nat ->
          begs !! i = Some x -> begs !! j = Some y -> x < y)
    /\ (forall j, 0 <= j < 10 ->
          exists x, In x begs /\ x <= j < x + winsize_of 10 10).
Proof.
  apply (windower_start_offsets (value_model (fun v => v)) ret 0%nat 10
           (round_float (3 # 10)) cpu
           (signal_world [1; 2; 3; 4; 5; 6; 7; 8; 9; 10]%Q)
           (Cell [1; 2; 3; 4; 5; 6; 7; 8; 9; 10]%Q float32 cpu)).
  - apply value_model_well_behaved.
  - reflexivity.
  - vm_compute. discriminate.
  - lia.
  - vm_compute. discriminate.
  - reflexivity.
  - vm_compute. reflexivity.
  - vm_compute. discriminate.
Defined.

(** With the float 0.3 on ten samples the product [0.3 * 10] rounds to
    3.0: the overlap is 3, the stride 7 and the starts are 0 and 7. *)
Example windower_starts_at_three_tenths :
  overlap_of (round_float (3 # 10)) 10 = 3
  /\ stride_of 10 (round_float (3 # 10)) 10 = 7
  /\ exists chunks w',
       stt_utils.windowed_run (value_model (fun v => v)) 0%nat 10
         (round_float (3 # 10)) cpu ret
         (signal_world [1; 2; 3; 4; 5; 6; 7; 8; 9; 10]%Q)
       = (Ret (chunks, [0; 7], 10, 3), w').
Proof.
  split; [reflexivity |]. split; [reflexivity |].
  eexists _, _. vm_compute. reflexivity.
Qed.




(** The run of the witness: windows of three samples start at 0, 2 and 4,
    and the last one is the sample 5 followed by two zeros. *)
Example window_buffers_of_five_samples :
  exists chunks w',
    stt_utils.windowed_run (value_model (fun v => v)) 0%nat 3 (1 # 2) cpu ret
      (signal_world [1; 2; 3; 4; 5]%Q)
    = (Ret (chunks, [0; 2; 4], 3, 1), w')
    /\ Forall2 (Forall2 Qeq) (calls w')
         [[1; 2; 3]; [3; 4; 5]; [5; 0; 0]]%Q.
Proof.
  eexists _, _. split; [vm_compute; reflexivity |].
  vm_compute. repeat constructor.
Qed.

(** The refill of the buffer in the loop is [refill] on finite samples. *)
Lemma window_body_buffer {O C} (model : tensor -> M O) (tnsr : tensor)
    (winsize : Z) (batch : tensor) (chunk_hook : O -> M C)
    (chunks : list C) (beg : Z) (w : world) (ct cb : cell) :
  heap w !! tnsr = Some ct ->
  heap w !! batch = Some cb ->
  tnsr <> batch ->
  length (data cb) = Z.to_nat winsize ->
  0 <= beg -> 0 <= winsize ->
  stt_utils.window_body model tnsr winsize batch chunk_hook chunks beg w
  = (o <- model batch ;; output <- chunk_hook o ;;
     ret (chunks ++ [output]))
      (refilled w batch cb
         (refill (fun x => (x * 0)%Q) (data cb)
                 (window_samples (data ct) winsize beg))).
Proof.
  intros Ht Hb Hne Hlen Hbeg Hws.
  destruct (window_body_refill model tnsr winsize batch chunk_hook chunks beg
              w ct cb Ht Hb Hne Hlen Hbeg Hws) as (b & -> & _ & Hbody).
  exact Hbody.
Qed.

(** Buffers of [winsize] samples that are the padded windows of the
    start offsets are, sample by sample, the buffers of [window_buffers]
    on finite samples, whatever the buffer held before the loop. *)
Lemma padded_windows_are_window_buffers (signal : list Q) (winsize : Z)
    (bs : list (list Q)) (begs : list Z) :
  0 <= winsize ->
  Forall2 (fun b beg => is_padded_window signal winsize beg b) bs begs ->
  Forall (fun beg => 0 <= beg) begs ->
  forall batch, length batch = Z.to_nat winsize ->
    Forall2 (Forall2 Qeq) bs
      (window_buffers (fun x => (x * 0)%Q) signal winsize batch begs).
Proof.
  intros Hw Hall. induction Hall as [|b beg bs begs Hpad Hall IH];
    intros Hnonneg batch Hbatch; [constructor |].
  apply Forall_cons in Hnonneg. destruct Hnonneg as [Hbeg Hnonneg].
  cbn [window_buffers]. cbv zeta.
  fold (window_samples signal winsize beg).
  set (chunk := window_samples signal winsize beg).
  pose proof (window_samples_length signal winsize beg Hbeg Hw) as Hcl.
  fold chunk in Hcl.
  destruct Hpad as (Hlen & Htake & Hzeros). fold chunk in Htake, Hzeros.
  constructor.
  - rewrite <- (take_drop (length chunk) b). rewrite Htake. unfold refill.
    apply Forall2_app.
    + clear. induction chunk; constructor; [reflexivity | assumption].
    + assert (Hl : length (drop (length chunk) b)
                   = length (drop (length chunk)
                               (map (fun x => (x * 0)%Q) batch)))
        by (rewrite !length_drop, length_map; lia).
      assert (Hz : Forall (fun x => (x == 0)%Q)
                     (drop (length chunk) (map (fun x => (x * 0)%Q) batch))).
      { apply Forall_drop. apply List.Forall_map. apply Forall_forall.
        intros x _. apply Qmult_0_r. }
      revert Hzeros Hz Hl.
      generalize (drop (length chunk) b) as l1.
      generalize (drop (length chunk) (map (fun x => (x * 0)%Q) batch))
        as l2.
      intros l2 l1. revert l2.
      induction l1 as [|x l1 IH1]; intros [|y l2] H1 H2 Hl;
        try discriminate; constructor.
      * apply Forall_cons in H1, H2. destruct H1 as [H1 _], H2 as [H2 _].
        rewrite H1, H2. reflexivity.
      * apply Forall_cons in H1, H2. apply IH1; [tauto | tauto |].
        simpl in Hl. lia.
  - apply IH; [exact Hnonneg |].
    unfold refill. rewrite length_app, length_drop, length_map. lia.
Qed.

(** The buffers of a valid run: the model is called on the buffers of
    [window_buffers], sample by sample. *)
Lemma windowed_run_buffers {O C} (model : tensor -> M O)
    (chunk_hook : O -> M C) (tnsr : tensor) (max_winsize : Z)
    (overlap_ratio : Q) (device : device) (w : world) (ct : cell) :
  well_behaved model chunk_hook ->
  heap w !! tnsr = Some ct ->
  1 <= len (data ct) -> 1 <= max_winsize ->
  (0 <= overlap_ratio)%Q -> (overlap_ratio < 1)%Q ->
  is_float overlap_ratio ->
  winsize_of max_winsize (len (data ct)) <= 2 ^ 53 ->
  let signal := data ct in
  let n := len signal in
  let winsize := winsize_of max_winsize n in
  let begs := range_items 0 n (stride_of max_winsize overlap_ratio n) in
  exists chunks w' buffers,
    stt_utils.windowed_run model tnsr max_winsize overlap_ratio device
      chunk_hook w
    = (Ret (chunks, begs, winsize, overlap_of overlap_ratio winsize), w')
    /\ calls w' = calls w ++ buffers
    /\ Forall2 (Forall2 Qeq) buffers
         (window_buffers (fun x => (x * 0)%Q) signal winsize
            (replicate (Z.to_nat winsize) 0%Q) begs).
Proof.
  intros Hwb Ht Hn Hmax Hr0 Hr1 Hfl Hfit signal n winsize begs.
  destruct (windowed_run_ok model chunk_hook tnsr max_winsize overlap_ratio
              device w ct Hwb Ht Hn Hmax Hr0 Hr1 Hfl Hfit)
    as (chunks & w' & pre & batch & Hrun & Hsteps & _ & _ & Hst).
  fold signal n winsize in Hrun, Hsteps, Hst.
  set (stride := stride_of max_winsize overlap_ratio n) in *.
  fold begs in Hrun, Hsteps.
  destruct (steps_calls _ _ _ _ _ _ _ _ _ Hsteps) as (bs & Hcalls & Hall).
  exists chunks, w', bs.
  split; [exact Hrun |]. split; [exact Hcalls |].
  apply padded_windows_are_window_buffers; [lia | exact Hall | |].
  - apply range_items_nonneg. lia.
  - apply length_replicate.
Qed.


(** C5, as amended: when the signal is empty or the stride is not
    positive, the model is never called. The call fails exactly when the
    stride is 0, with the [ValueError] of [range], or when the product
    [overlap_ratio * winsize] is not a finite float, with the
    [OverflowError] of [int] (there is no dedicated error); otherwise it
    returns normally with no chunks and no start offsets. *)
Theorem windower_without_windows {O C} (model : tensor -> M O)
    (chunk_hook : O -> M C) (tnsr : tensor) (max_winsize : Z)
    (overlap_ratio : Q) (device : device) (w : world) (ct : cell) :
  heap w !! tnsr = Some ct ->
  let n := len (data ct) in
  let winsize := winsize_of max_winsize n in
  let overlap := overlap_of overlap_ratio winsize in
  let stride := stride_of max_winsize overlap_ratio n in
  n = 0 \/ stride <= 0 \/ finite_product overlap_ratio winsize = false ->
  exists w',
    calls w' = calls w
    /\ ((finite_product overlap_ratio winsize = false
         /\ stt_utils.windowed_run model tnsr max_winsize overlap_ratio
              device chunk_hook w = (Raise OverflowError, w'))
        \/ (finite_product overlap_ratio winsize = true
            /\ stride = 0
            /\ stt_utils.windowed_run model tnsr max_winsize overlap_ratio
                 device chunk_hook w = (Raise ValueError, w'))
        \/ (finite_product overlap_ratio winsize = true
            /\ stride <> 0
            /\ stt_utils.windowed_run model tnsr max_winsize overlap_ratio
                 device chunk_hook w
               = (Ret ([], [], winsize, overlap), w'))).
Proof.
  intros Ht n winsize overlap stride Hcase.
  destruct (finite_product overlap_ratio winsize) eqn:Hfin.
  2:{ exists w. split; [reflexivity |]. left. split; [reflexivity |].
      unfold stt_utils.windowed_run.
      rewrite (bind_ret _ _ _ _ _ (tlen_ok tnsr ct w Ht)).
      fold n. fold (winsize_of max_winsize n). fold winsize.
      apply overlap_overflows. exact Hfin. }
  assert (Hcase' : n = 0 \/ stride <= 0)
    by (destruct Hcase as [H | [H | H]]; [left | right | discriminate];
        exact H).
  clear Hcase.
  set (zc := Cell (replicate (length (slice (data ct) None (Some winsize)))
                             0%Q) (dt ct) (dev ct)).
  assert (Hz : heap (extend w [zc]) !! length (heap w) = Some zc).
  { unfold extend, set_heap. cbn [heap]. rewrite lookup_app_r by lia.
    rewrite Nat.sub_diag. reflexivity. }
  destruct (to_ok (length (heap w)) device zc (extend w [zc]) Hz)
    as (batch & cells & cb & Hto & _).
  rewrite extend_extend in Hto.
  exists (extend w ([zc] ++ cells)). split; [reflexivity |].
  right.
  assert (Hpre :
             stt_utils.windowed_run model tnsr max_winsize overlap_ratio
               device chunk_hook w
             = (window_range <- range3 0 n stride ;;
                chunks <- foldM (fun chunks '(i, beg) =>
                                   stt_utils.window_body model tnsr winsize
                                     batch chunk_hook chunks beg)
                                (enumerate window_range 1) [] ;;
                ret (chunks, window_range, winsize, overlap))
                 (extend w ([zc] ++ cells))).
  { unfold stt_utils.windowed_run.
    rewrite (bind_ret _ _ _ _ _ (tlen_ok tnsr ct w Ht)).
    fold n. fold (winsize_of max_winsize n). fold winsize.
    rewrite overlap_computed by exact Hfin. fold overlap.
    rewrite (bind_ret _ _ _ _ _ (zeros_like_ok tnsr None _ ct w Ht)).
    fold zc.
    rewrite (bind_ret _ _ _ _ _ Hto). reflexivity. }
  rewrite Hpre. clear Hpre.
  unfold range3. destruct (Z.eqb_spec stride 0) as [H0 | Hne].
  - left. split; [reflexivity |]. split; [exact H0 | reflexivity].
  - right. split; [reflexivity |]. split; [exact Hne |].
    assert (Hempty : range_items 0 n stride = []).
    { apply range_items_empty; [unfold n, len; lia | exact Hne | lia]. }
    unfold bind, ret. rewrite Hempty. reflexivity.
Qed.

Lemma windower_without_windows_witness :
  exists w',
    calls w' = []
    /\ ((finite_product (3 # 2) (winsize_of 3 3) = false
         /\ stt_utils.windowed_run (value_model (fun v => v)) 0%nat 3 (3 # 2)
              cpu ret (signal_world [1; 2; 3]%Q) = (Raise OverflowError, w'))
        \/ (finite_product (3 # 2) (winsize_of 3 3) = true
            /\ stride_of 3 (3 # 2) 3 = 0
            /\ stt_utils.windowed_run (value_model (fun v => v)) 0%nat 3
                 (3 # 2) cpu ret (signal_world [1; 2; 3]%Q)
               = (Raise ValueError, w'))
        \/ (finite_product (3 # 2) (winsize_of 3 3) = true
            /\ stride_of 3 (3 # 2) 3 <> 0
            /\ stt_utils.windowed_run (value_model (fun v => v)) 0%nat 3
                 (3 # 2) cpu ret (signal_world [1; 2; 3]%Q)
               = (Ret ([], [], winsize_of 3 3,
                       overlap_of (3 # 2) (winsize_of 3 3)), w'))).
Proof.
  apply (windower_without_windows (value_model (fun v => v)) ret 0%nat 3
           (3 # 2) cpu (signal_world [1; 2; 3]%Q)
           (Cell [1; 2; 3]%Q float32 cpu)).
  - reflexivity.
  - right. left. vm_compute. discriminate.
Defined.

(** C5, as stated, fails: with [overlap_ratio = 1.5] on a signal of three
    samples the stride is -1, and the call does not fail: it returns
    normally, with no chunks. *)
Lemma windower_negative_stride_returns :
  stride_of 3 (3 # 2) 3 <= 0
  /\ (exists w',
        stt_utils.windowed_run (value_model (fun v => v)) 0%nat 3 (3 # 2)
          cpu ret (signal_world [1; 2; 3]%Q) = (Ret ([], [], 3, 4), w'))
  /\ (forall e w',
        stt_utils.windowed_run (value_model (fun v => v)) 0%nat 3 (3 # 2)
          cpu ret (signal_world [1; 2; 3]%Q) <> (Raise e, w')).
Proof.
  split; [vm_compute; discriminate |]. split.
  - eexists. vm_compute. reflexivity.
  - intros e w' H. vm_compute in H. discriminate H.
Qed.

(** The stride follows the rounded product. With the float nearest to 4/3
    on three samples the product rounds to 4.0, the stride is -1 and the
    call returns with no windows; with the overlap ratio 1.0 the stride is
    0 and [range] raises [ValueError]; with the ratio [2^1023] the
    product is infinite and [int] raises [OverflowError]. *)
Example windower_strides_of_invalid_ratios :
  (exists w',
     stt_utils.windowed_run (value_model (fun v => v)) 0%nat 3
       (round_float (4 # 3)) cpu ret (signal_world [1; 2; 3]%Q)
     = (Ret ([], [], 3, 4), w'))
  /\ (exists w',
        stt_utils.windowed_run (value_model (fun v => v)) 0%nat 3 1 cpu ret
          (signal_world [1; 2; 3]%Q) = (Raise ValueError, w'))
  /\ stt_utils.windowed_run (value_model (fun v => v)) 0%nat 3
       (2 ^ 1023)%Q cpu ret (signal_world [1; 2; 3]%Q)
     = (Raise OverflowError, signal_world [1; 2; 3]%Q).
Proof.
  split; [eexists; vm_compute; reflexivity |].
  split; [eexists; vm_compute; reflexivity |].
  vm_compute. reflexivity.
Qed.

(* ================================================================== *)
(** * The linear fade                                                  *)
(* ================================================================== *)

Lemma linspace_length (a b : Q) (steps : Z) :
  length (linspace a b steps) = Z.to_nat steps.
Proof.
  unfold linspace. rewrite range_eq, !length_map, length_seq. reflexivity.
Qed.

Lemma linspace_lookup (a b : Q) (steps : Z) (j : nat) :
  (j < Z.to_nat steps)%nat ->
  linspace a b steps !! j
  = Some (a + inject_Z (Z.of_nat j) * ((b - a) / inject_Z (steps - 1)))%Q.
Proof.
  intros Hj. unfold linspace. rewrite range_eq.
  change (map ?f ?l) with (f <$> l). rewrite !list_lookup_fmap.
  rewrite lookup_seq_lt by exact Hj. reflexivity.
Qed.

Lemma slice_tail {A} (l : list A) : slice l (Some 1) None = drop 1 l.
Proof.
  unfold slice, slice_indices, bound. change (1 <? 0) with false. cbv iota.
  destruct l as [|x l]; [reflexivity |].
  unfold len. rewrite Z.min_l by (simpl length; lia).
  apply take_ge. rewrite length_drop. simpl length. lia.
Qed.

Lemma slice_init {A} (l : list A) :
  slice l None (Some (-1)) = take (length l - 1) l.
Proof.
  unfold slice, slice_indices, bound. change (-1 <? 0) with true. cbv iota.
  rewrite drop_0. f_equal. unfold len. lia.
Qed.

Lemma slice_last {A} (l : list A) (i : Z) :
  0 < i -> slice l (Some (- i)) None = drop (length l - Z.to_nat i) l.
Proof.
  intros Hi. unfold slice, slice_indices, bound.
  destruct (Z.ltb_spec (- i) 0); [| lia].
  replace (Z.to_nat (Z.max 0 (- i + len l))) with (length l - Z.to_nat i)%nat
    by (unfold len; lia).
  apply take_ge. rewrite length_drop. unfold len. lia.
Qed.

(** The samples after a fade-in of [k > 0] samples: the first [k + 1] are
    scaled by the ramp without its first point. *)
Lemma fade_in_ok (t : tensor) (k : Z) (c : cell) (w : world) :
  heap w !! t = Some c ->
  0 < k -> k + 1 <= len (data c) ->
  stt_utils.linear_fade t k 0 w
  = (Ret tt,
     set_heap w
       (<[t := Cell (zip_with Qmult (take (Z.to_nat (k + 1)) (data c))
                              (drop 1 (linspace 0 1 (k + 2)))
                     ++ drop (Z.to_nat (k + 1)) (data c))
                    (dt c) (dev c)]> (heap w))).
Proof.
  intros Ht Hk Hlen. unfold stt_utils.linear_fade.
  destruct (Z.ltb_spec 0 k) as [_ | ?]; [| lia].
  change (0 <? 0) with false. cbv iota.
  assert (Hsl : slice (data c) None (Some (k + 1))
                = take (Z.to_nat (k + 1)) (data c))
    by (apply slice_prefix; lia).
  assert (Hin : imul t None (Some (k + 1))
                  (slice (linspace 0 1 (k + 2)) (Some 1) None) w
                = (Ret tt,
                   set_heap w
                     (<[t := Cell (zip_with Qmult
                                     (take (Z.to_nat (k + 1)) (data c))
                                     (drop 1 (linspace 0 1 (k + 2)))
                                   ++ drop (Z.to_nat (k + 1)) (data c))
                                  (dt c) (dev c)]> (heap w)))).
  { unfold imul. rewrite (inplace_ok _ t None (Some (k + 1)) _ c w Ht).
    - cbn [slice_indices fst]. rewrite Hsl, slice_tail.
      change (Z.to_nat 0) with 0%nat. rewrite take_0, app_nil_l.
      rewrite length_take, Nat.add_0_l.
      rewrite Nat.min_l by (unfold len in Hlen; lia). reflexivity.
    - rewrite Hsl, slice_tail, length_drop, linspace_length, length_take.
      unfold len in Hlen. lia. }
  rewrite (bind_ret _ _ _ _ _ Hin). reflexivity.
Qed.

(** The samples after a fade-out of [k > 0] samples: the last [k + 1] are
    scaled by the ramp without its last point. *)
Lemma fade_out_ok (t : tensor) (k : Z) (c : cell) (w : world) :
  heap w !! t = Some c ->
  0 < k -> k + 1 <= len (data c) ->
  stt_utils.linear_fade t 0 k w
  = (Ret tt,
     set_heap w
       (<[t := Cell (take (length (data c) - Z.to_nat (k + 1)) (data c)
                     ++ zip_with Qmult
                          (drop (length (data c) - Z.to_nat (k + 1)) (data c))
                          (take (Z.to_nat (k + 1)) (linspace 1 0 (k + 2))))
                    (dt c) (dev c)]> (heap w))).
Proof.
  intros Ht Hk Hlen. unfold stt_utils.linear_fade.
  change (0 <? 0) with false. cbv iota.
  destruct (Z.ltb_spec 0 k) as [_ | ?]; [| lia].
  unfold bind at 1. unfold ret at 1.
  assert (Hsl : slice (data c) (Some (- k - 1)) None
                = drop (length (data c) - Z.to_nat (k + 1)) (data c)).
  { replace (- k - 1) with (- (k + 1)) by lia. apply slice_last. lia. }
  assert (Hramp : slice (linspace 1 0 (k + 2)) None (Some (-1))
                  = take (Z.to_nat (k + 1)) (linspace 1 0 (k + 2))).
  { rewrite slice_init, linspace_length. f_equal. lia. }
  unfold imul. rewrite (inplace_ok _ t (Some (- k - 1)) None _ c w Ht).
  - rewrite Hsl, Hramp. cbn [slice_indices fst]. unfold bound.
    destruct (Z.ltb_spec (- k - 1) 0); [| lia].
    replace (Z.to_nat (Z.max 0 (- k - 1 + len (data c))))
      with (length (data c) - Z.to_nat (k + 1))%nat
      by (unfold len in *; lia).
    rewrite length_drop.
    rewrite (drop_ge (data c) (_ + _)) by (unfold len in Hlen; lia).
    rewrite app_nil_r. reflexivity.
  - rewrite Hsl, Hramp, length_drop, length_take, linspace_length.
    unfold len in Hlen. lia.
Qed.

(** C2: for an overlap of [k >= 1] samples, apply a fade-out of length [k]
    to an all-ones chunk and a fade-in of length [k] to an all-ones chunk
    that overlaps the first by [k] samples: the fade-in scales sample [p]
    by [(p + 1) / (k + 1)], and at each of the [k] overlap positions the two
    faded chunks sum to exactly 1 (in rational arithmetic). *)
Theorem crossfade_sums_to_one (k : Z) (n1 n2 : nat) (t1 t2 : tensor)
    (w : world) (c1 c2 : cell) :
  1 <= k -> t1 <> t2 ->
  heap w !! t1 = Some c1 -> heap w !! t2 = Some c2 ->
  data c1 = replicate n1 1%Q -> data c2 = replicate n2 1%Q ->
  k < Z.of_nat n1 -> k < Z.of_nat n2 ->
  exists w' c1' c2',
    (stt_utils.linear_fade t1 0 k ;; stt_utils.linear_fade t2 k 0) w
    = (Ret tt, w')
    /\ heap w' !! t1 = Some c1' /\ heap w' !! t2 = Some c2'
    /\ forall p : nat, (p < Z.to_nat k)%nat ->
         exists x y,
           data c1' !! (n1 - Z.to_nat k + p)%nat = Some x
           /\ data c2' !! p = Some y
           /\ (y == inject_Z (Z.of_nat p + 1) / inject_Z (k + 1))%Q
           /\ (x + y == 1)%Q.
Proof.
  intros Hk Hne H1 H2 Hd1 Hd2 Hn1 Hn2.
  assert (Hl1 : k + 1 <= len (data c1))
    by (rewrite Hd1; unfold len; rewrite length_replicate; lia).
  assert (Hl2 : k + 1 <= len (data c2))
    by (rewrite Hd2; unfold len; rewrite length_replicate; lia).
  pose proof (lookup_lt_Some _ _ _ H1) as Ht1.
  pose proof (lookup_lt_Some _ _ _ H2) as Ht2.
  pose proof (fade_out_ok t1 k c1 w H1 ltac:(lia) Hl1) as Hout.
  set (w1 := set_heap w _) in Hout.
  assert (H2' : heap w1 !! t2 = Some c2).
  { unfold w1, set_heap. cbn [heap].
    rewrite list_lookup_insert_ne by exact Hne. exact H2. }
  pose proof (fade_in_ok t2 k c2 w1 H2' ltac:(lia) Hl2) as Hin.
  set (w2 := set_heap w1 _) in Hin.
  eexists w2, _, _. split; [| split; [| split]].
  - rewrite (bind_ret _ _ _ _ _ Hout). exact Hin.
  - unfold w2, w1, set_heap. cbn [heap].
    rewrite list_lookup_insert_ne by congruence.
    apply list_lookup_insert_eq. exact Ht1.
  - unfold w2, w1, set_heap. cbn [heap].
    apply list_lookup_insert_eq. rewrite length_insert. exact Ht2.
  - intros p Hp. cbn [data]. rewrite Hd1, Hd2, !length_replicate.
    assert (Hb : ~ (inject_Z (k + 1) == 0)%Q)
      by (unfold Qeq; cbn [Qnum Qden inject_Z]; lia).
    eexists _, _. split; [| split; [| split]].
    + rewrite lookup_app_r by (rewrite length_take, length_replicate; lia).
      rewrite length_take, length_replicate.
      replace (n1 - Z.to_nat k + p - Nat.min (n1 - Z.to_nat (k + 1)) n1)%nat
        with (S p) by lia.
      apply lookup_zip_with_Some. eexists _, _.
      split; [reflexivity |]. split.
      * rewrite lookup_drop. apply lookup_replicate_2. lia.
      * rewrite lookup_take_lt by lia. apply linspace_lookup. lia.
    + rewrite lookup_app_l
        by (rewrite length_zip_with, length_take, length_replicate,
              length_drop, linspace_length; lia).
      apply lookup_zip_with_Some. eexists _, _.
      split; [reflexivity |]. split.
      * rewrite lookup_take_lt by lia. apply lookup_replicate_2. lia.
      * rewrite lookup_drop. apply linspace_lookup. lia.
    + replace (k + 2 - 1) with (k + 1) by lia.
      replace (Z.of_nat (1 + p)) with (Z.of_nat p + 1) by lia.
      revert Hb.
      generalize (inject_Z (Z.of_nat p + 1)), (inject_Z (k + 1)).
      intros a b Hb. field. exact Hb.
    + replace (k + 2 - 1) with (k + 1) by lia.
      replace (Z.of_nat (1 + p)) with (Z.of_nat (S p)) by lia.
      revert Hb.
      generalize (inject_Z (Z.of_nat (S p))), (inject_Z (k + 1)).
      intros a b Hb. field. exact Hb.
Qed.

Lemma crossfade_sums_to_one_witness :
  exists w' c1' c2',
    (stt_utils.linear_fade 0%nat 0 4 ;; stt_utils.linear_fade 1%nat 4 0)
      (World [Cell (replicate 5 1%Q) float32 cpu;
              Cell (replicate 5 1%Q) float32 cpu] [] None 0 [])
    = (Ret tt, w')
    /\ heap w' !! 0%nat = Some c1' /\ heap w' !! 1%nat = Some c2'
    /\ forall p : nat, (p < Z.to_nat 4)%nat ->
         exists x y,
           data c1' !! (5 - Z.to_nat 4 + p)%nat = Some x
           /\ data c2' !! p = Some y
           /\ (y == inject_Z (Z.of_nat p + 1) / inject_Z (4 + 1))%Q
           /\ (x + y == 1)%Q.
Proof.
  apply (crossfade_sums_to_one 4 5 5 0%nat 1%nat
           (World [Cell (replicate 5 1%Q) float32 cpu;
                   Cell (replicate 5 1%Q) float32 cpu] [] None 0 [])
           (Cell (replicate 5 1%Q) float32 cpu)
           (Cell (replicate 5 1%Q) float32 cpu));
    try reflexivity; try lia.
Defined.

(* ================================================================== *)
(** * The signal stitcher                                              *)
(* ================================================================== *)

(** A model that computes the samples of a new tensor from those of its
    batch, with the hook [ch.to("cpu")], is well-behaved. *)
Lemma tensor_model_run (f : list Q -> list Q) (d : device) (batch : tensor)
    (c : cell) (w : world) :
  heap w !! batch = Some c ->
  tensor_model f d batch w
  = (Ret (length (heap w)), extend w [Cell (f (data c)) (dt c) d]).
Proof.
  intros H. unfold tensor_model.
  rewrite (bind_ret _ _ _ _ _ (deref_ok batch c w H)). reflexivity.
Qed.

Lemma tensor_model_well_behaved (f : list Q -> list Q) (d : device) :
  well_behaved (tensor_model f d) (fun ch => to_ ch cpu).
Proof.
  intros batch w [c Hc].
  set (oc := Cell (f (data c)) (dt c) d).
  assert (Ho : heap (extend w [oc]) !! length (heap w) = Some oc).
  { unfold extend, set_heap. cbn [heap]. rewrite lookup_app_r by lia.
    rewrite Nat.sub_diag. reflexivity. }
  destruct (to_ok _ cpu oc _ Ho) as (ch & cells & c' & Hto & _).
  exists (length (heap w)), [oc], ch, cells.
  split; [apply tensor_model_run; exact Hc | exact Hto].
Qed.

(** The loop changes no tensor but the batch. *)
Lemma steps_persist {O C} (model : tensor -> M O) (chunk_hook : O -> M C)
    (signal : list Q) (winsize : Z) (batch : tensor)
    (w w' : world) (begs : list Z) (chunks : list C) :
  window_steps model chunk_hook signal winsize batch w begs chunks w' ->
  forall i c, i <> batch -> heap w !! i = Some c -> heap w' !! i = Some c.
Proof.
  induction 1 as [w | w w' cb b o ch cells cells' beg begs chunks
                      Hb Hpad Hmodel Hhook Hsteps IH];
    intros i c Hi Hc; [exact Hc |].
  apply IH; [exact Hi |].
  unfold extend, set_heap, refilled. cbn [heap].
  apply lookup_app_l_Some, lookup_app_l_Some.
  rewrite list_lookup_insert_ne by congruence. exact Hc.
Qed.

(** With a tensor model, every chunk is a tensor allocated during the loop,
    with as many samples as the batch. *)
Lemma steps_chunks (f : list Q -> list Q) (d : device)
    (signal : list Q) (winsize : Z) (batch : tensor)
    (w w' : world) (begs : list Z) (chunks : list tensor) :
  (forall v, length (f v) = length v) ->
  window_steps (tensor_model f d) (fun ch => to_ ch cpu) signal winsize
    batch w begs chunks w' ->
  Forall (chunk_at (length (heap w)) (Z.to_nat winsize) (heap w')) chunks.
Proof.
  intros Hf.
  induction 1 as [w | w w' cb b o ch cells cells' beg begs chunks
                      Hb Hpad Hmodel Hhook Hsteps IH]; [constructor |].
  set (w1 := refilled w batch cb b) in *.
  assert (Hbl : (batch < length (heap w))%nat)
    by (eapply lookup_lt_Some; eauto).
  assert (Hl1 : length (heap w1) = length (heap w)).
  { unfold w1, refilled. cbn [heap]. apply length_insert. }
  assert (Hb1 : heap w1 !! batch = Some (Cell b (dt cb) (dev cb))).
  { unfold w1, refilled. cbn [heap]. apply list_lookup_insert_eq. exact Hbl. }
  rewrite (tensor_model_run f d batch _ w1 Hb1) in Hmodel.
  injection Hmodel as Ho Hcells. apply app_inv_head in Hcells.
  subst o cells. cbn [data dt] in Hhook, Hsteps, IH. cbv beta in Hhook.
  set (oc := Cell (f b) (dt cb) d) in *.
  assert (Hoc : heap (extend w1 [oc]) !! length (heap w1) = Some oc).
  { unfold extend, set_heap. cbn [heap]. rewrite lookup_app_r by lia.
    rewrite Nat.sub_diag. reflexivity. }
  destruct (to_ok _ cpu oc _ Hoc)
    as (ch' & cells'' & c' & Hto & Hge & Hch & Hdata & _).
  pose proof (eq_trans (eq_sym Hto) Hhook) as Heq.
  injection Heq as Hch' Hcells'.
  apply app_inv_head in Hcells'. subst ch' cells''.
  set (w3 := extend (extend w1 [oc]) cells') in *.
  assert (Hl3 : (length (heap w) <= length (heap w3))%nat).
  { unfold w3, extend, set_heap. cbn [heap]. rewrite !length_app. lia. }
  constructor.
  - split; [lia |]. exists c'. split.
    + eapply steps_persist; [exact Hsteps | lia | exact Hch].
    + rewrite Hdata. unfold oc. cbn [data]. rewrite Hf. exact (proj1 Hpad).
  - eapply Forall_impl; [exact IH |].
    intros x (Hx & c & Hc & Hlen). split; [lia | eauto].
Qed.

(** ** In-place operations keep the shape of the heap *)

Lemma reshapes_refl (base : nat) (h : list cell) : reshapes base h h.
Proof.
  split; [reflexivity |]. intros i c Hc. exists c. repeat split. exact Hc.
Qed.

Lemma reshapes_trans (base : nat) (h1 h2 h3 : list cell) :
  reshapes base h1 h2 -> reshapes base h2 h3 -> reshapes base h1 h3.
Proof.
  intros [Hl12 H12] [Hl23 H23]. split; [congruence |].
  intros i c Hc.
  destruct (H12 i c Hc) as (c2 & Hc2 & Hlen2 & Hdt2 & Hdev2 & Heq2).
  destruct (H23 i c2 Hc2) as (c3 & Hc3 & Hlen3 & Hdt3 & Hdev3 & Heq3).
  exists c3. split; [exact Hc3 |]. split; [congruence |].
  split; [congruence |]. split; [congruence |].
  intros Hi. rewrite (Heq3 Hi). exact (Heq2 Hi).
Qed.

Lemma reshapes_update (base : nat) (h : list cell) (t : tensor) (c : cell)
    (d' : list Q) :
  h !! t = Some c -> (base <= t)%nat -> length d' = length (data c) ->
  reshapes base h (<[t := Cell d' (dt c) (dev c)]> h).
Proof.
  intros Ht Hbase Hlen. split; [apply length_insert |].
  intros i ci Hci. destruct (Nat.eq_dec t i) as [Heq | Hne].
  - subst i. pose proof (eq_trans (eq_sym Ht) Hci) as Heq.
    injection Heq as <-.
    exists (Cell d' (dt c) (dev c)).
    split; [apply list_lookup_insert_eq; eapply lookup_lt_Some; eauto |].
    cbn [data dt dev]. repeat split; [exact Hlen | lia].
  - exists ci. rewrite list_lookup_insert_ne by exact Hne.
    repeat split. exact Hci.
Qed.

Lemma chunk_at_reshapes (b0 size base : nat) (h h' : list cell)
    (ch : tensor) :
  chunk_at b0 size h ch -> reshapes base h h' -> chunk_at b0 size h' ch.
Proof.
  intros (Hge & c & Hc & Hlen) [_ Hre]. split; [exact Hge |].
  destruct (Hre ch c Hc) as (c' & Hc' & Hlen' & _).
  exists c'. split; [exact Hc' | congruence].
Qed.

Lemma bound_range (n i : Z) : 0 <= n -> 0 <= bound n i <= n.
Proof. intros Hn. unfold bound. destruct (Z.ltb_spec i 0); lia. Qed.

(** The samples of a tensor after an in-place operation on a slice are as
    many as before. *)
Lemma inplace_data_length (f : Q -> Q -> Q) (d vs : list Q)
    (lo hi : option Z) :
  length vs = length (slice d lo hi) ->
  length (take (Z.to_nat (fst (slice_indices (len d) lo hi))) d
          ++ zip_with f (slice d lo hi) vs
          ++ drop (Z.to_nat (fst (slice_indices (len d) lo hi))
                   + length (slice d lo hi)) d)
  = length d.
Proof.
  intros Hvs. rewrite !length_app, length_take, length_zip_with, length_drop.
  rewrite <- Hvs, Nat.min_id, Hvs.
  unfold slice. destruct (slice_indices (len d) lo hi) as [a b] eqn:Hab.
  cbn [fst].
  assert (Ha : 0 <= a <= len d).
  { unfold slice_indices in Hab. injection Hab as <- _.
    destruct lo as [i|]; [apply bound_range |]; unfold len; lia. }
  rewrite length_take, length_drop. unfold len in Ha. lia.
Qed.

Lemma inplace_reshapes (f : Q -> Q -> Q) (t : tensor) (lo hi : option Z)
    (vs : list Q) (c : cell) (w : world) (base : nat) :
  heap w !! t = Some c ->
  length vs = length (slice (data c) lo hi) ->
  (base <= t)%nat ->
  exists w',
    inplace f t lo hi vs w = (Ret tt, w')
    /\ reshapes base (heap w) (heap w').
Proof.
  intros Ht Hvs Hbase. eexists. split.
  - apply inplace_ok; eassumption.
  - unfold set_heap. cbn [heap].
    apply reshapes_update; [exact Ht | exact Hbase |].
    apply inplace_data_length. exact Hvs.
Qed.

(** A loop of operations that keep the shape of the heap runs through and
    keeps the shape of the heap. *)
Lemma reshaping_loop {A} (body : A -> M unit) (base : nat)
    (Pre : A -> list cell -> Prop) :
  (forall a h h', Pre a h -> reshapes base h h' -> Pre a h') ->
  (forall a w, Pre a (heap w) ->
     exists w', body a w = (Ret tt, w')
                /\ reshapes base (heap w) (heap w')) ->
  forall l w, Forall (fun a => Pre a (heap w)) l ->
    exists w', foldM (fun _ a => body a) l tt w = (Ret tt, w')
               /\ reshapes base (heap w) (heap w').
Proof.
  intros Hstable Hbody l. induction l as [|a l IH]; intros w Hall.
  - exists w. split; [reflexivity | apply reshapes_refl].
  - apply Forall_cons in Hall. destruct Hall as [Ha Hall].
    destruct (Hbody a w Ha) as (w1 & Hrun & Hre).
    destruct (IH w1) as (w' & Hloop & Hre').
    { eapply Forall_impl; [exact Hall |]. intros x Hx. cbv beta in Hx |- *.
      exact (Hstable x _ _ Hx Hre). }
    exists w'. split.
    + cbn [foldM]. rewrite (bind_ret _ _ _ _ _ Hrun). exact Hloop.
    + eapply reshapes_trans; eassumption.
Qed.

Lemma fade_in_reshapes (t : tensor) (k : Z) (c : cell) (w : world)
    (base : nat) :
  heap w !! t = Some c -> (base <= t)%nat ->
  k <= 0 \/ k + 1 <= len (data c) ->
  exists w',
    stt_utils.linear_fade t k 0 w = (Ret tt, w')
    /\ reshapes base (heap w) (heap w').
Proof.
  intros Ht Hbase Hk. unfold stt_utils.linear_fade.
  change (0 <? 0) with false. cbv iota.
  destruct (Z.ltb_spec 0 k) as [Hpos | Hle].
  - destruct (inplace_reshapes Qmult t None (Some (k + 1))
                (slice (linspace 0 1 (k + 2)) (Some 1) None) c w base Ht)
      as (w' & Hrun & Hre).
    + rewrite slice_tail, length_drop, linspace_length.
      rewrite slice_prefix, length_take by lia. unfold len in Hk. lia.
    + exact Hbase.
    + exists w'. split; [| exact Hre].
      unfold imul. rewrite (bind_ret _ _ _ _ _ Hrun). reflexivity.
  - exists w. split; [reflexivity | apply reshapes_refl].
Qed.

Lemma fade_out_reshapes (t : tensor) (k : Z) (c : cell) (w : world)
    (base : nat) :
  heap w !! t = Some c -> (base <= t)%nat ->
  k <= 0 \/ k + 1 <= len (data c) ->
  exists w',
    stt_utils.linear_fade t 0 k w = (Ret tt, w')
    /\ reshapes base (heap w) (heap w').
Proof.
  intros Ht Hbase Hk. unfold stt_utils.linear_fade.
  change (0 <? 0) with false. cbv iota.
  destruct (Z.ltb_spec 0 k) as [Hpos | Hle].
  - destruct (inplace_reshapes Qmult t (Some (- k - 1)) None
                (slice (linspace 1 0 (k + 2)) None (Some (-1))) c w base Ht)
      as (w' & Hrun & Hre).
    + rewrite slice_init, length_take, linspace_length.
      replace (- k - 1) with (- (k + 1)) by lia.
      rewrite slice_last, length_drop by lia. unfold len in Hk. lia.
    + exact Hbase.
    + exists w'. split; [| exact Hre]. exact Hrun.
  - exists w. split; [reflexivity | apply reshapes_refl].
Qed.

Lemma reshapes_old (base : nat) (h h' : list cell) (i : nat) (c : cell) :
  reshapes base h h' -> (i < base)%nat -> h !! i = Some c ->
  h' !! i = Some c.
Proof.
  intros [_ Hre] Hi Hc. destruct (Hre i c Hc) as (c' & Hc' & _ & _ & _ & Heq).
  rewrite Hc'. f_equal. exact (Heq Hi).
Qed.

Lemma chunk_at_app (base size : nat) (h cells : list cell) (ch : tensor) :
  chunk_at base size h ch -> chunk_at base size (h ++ cells) ch.
Proof.
  intros (Hge & c & Hc & Hlen). split; [exact Hge |].
  exists c. split; [apply lookup_app_l_Some; exact Hc | exact Hlen].
Qed.

Lemma slice_all {A} (l : list A) : slice l None None = l.
Proof.
  unfold slice, slice_indices. rewrite drop_0. apply take_ge.
  unfold len. lia.
Qed.

(** Adding one faded chunk into the output: the part of the chunk that
    lies inside the signal is added in place. *)
Lemma add_chunk_reshapes (result ch : tensor) (beg winsize n : Z)
    (base : nat) (w : world) (cr c : cell) :
  heap w !! result = Some cr -> len (data cr) = n ->
  heap w !! ch = Some c -> length (data c) = Z.to_nat winsize ->
  0 <= beg < n -> 1 <= winsize -> (base <= result)%nat ->
  exists w',
    (v <- getitem ch None (Some (Z.min (beg + winsize) n - beg)) ;;
     iadd result (Some beg) (Some (Z.min (beg + winsize) n)) v) w
    = (Ret tt, w')
    /\ reshapes base (heap w) (heap w').
Proof.
  intros Hr Hn Hc Hlen Hbeg Hws Hbase.
  rewrite (bind_ret _ _ _ _ _ (getitem_ok ch _ _ c w Hc)).
  unfold iadd. apply (inplace_reshapes _ _ _ _ _ cr); [exact Hr | | exact Hbase].
  rewrite slice_prefix by lia. rewrite slice_between by lia.
  rewrite !length_take, length_drop. unfold len in *. lia.
Qed.

Lemma Forall_combine {A B} (P : A -> Prop) (Q : B -> Prop)
    (l1 : list A) (l2 : list B) :
  Forall P l1 -> Forall Q l2 ->
  Forall (fun ab => P (fst ab) /\ Q (snd ab)) (combine l1 l2).
Proof.
  intros H1. revert l2. induction H1 as [|a l1 Ha H1 IH]; intros l2 H2.
  - constructor.
  - destruct H2 as [|b l2 Hb H2]; [constructor |].
    simpl. constructor; [split; assumption | apply IH; exact H2].
Qed.

(** C7: a valid signal-stitcher run returns a newly allocated tensor with
    as many samples as the input signal and with its numeric type and
    device, whatever [max_winsize] and [overlap_ratio]; the input signal,
    like every tensor that existed before the run, is left unchanged. *)
Theorem stitched_signal_is_fresh_and_like_input (f : list Q -> list Q)
    (d : device) (tnsr : tensor) (max_winsize : Z) (overlap_ratio : Q)
    (device : device) (w : world) (ct : cell) :
  (forall v, length (f v) = length v) ->
  heap w !! tnsr = Some ct ->
  1 <= len (data ct) -> 1 <= max_winsize ->
  (0 <= overlap_ratio)%Q -> (overlap_ratio < 1)%Q ->
  is_float overlap_ratio ->
  winsize_of max_winsize (len (data ct)) <= 2 ^ 53 ->
  exists result begs winsize overlap w' cr,
    stt_utils.windowed_audio_rendering (tensor_model f d) tnsr max_winsize
      overlap_ratio device w
    = (Ret (result, begs, winsize, overlap), w')
    /\ (length (heap w) <= result)%nat
    /\ heap w' !! result = Some cr
    /\ length (data cr) = length (data ct)
    /\ dt cr = dt ct /\ dev cr = dev ct
    /\ (forall i c, heap w !! i = Some c -> heap w' !! i = Some c).
Proof.
  intros Hf Ht Hn Hmax Hr0 Hr1 Hfl Hfit.
  destruct (windowed_run_ok (tensor_model f d) (fun ch => to_ ch cpu) tnsr
              max_winsize overlap_ratio device w ct
              (tensor_model_well_behaved f d) Ht Hn Hmax Hr0 Hr1 Hfl Hfit)
    as (chunks & w1 & pre & batch & Hrun & Hsteps & Hge & _ & Hst).
  set (n := len (data ct)) in *.
  set (winsize := winsize_of max_winsize n) in *.
  set (overlap := overlap_of overlap_ratio winsize) in *.
  set (stride := stride_of max_winsize overlap_ratio n) in *.
  set (begs := range_items 0 n stride) in *.
  set (base := length (heap w)).
  set (W := Z.to_nat winsize).
  assert (Hov : overlap <= 0 \/ overlap + 1 <= winsize).
  { right. unfold stride, stride_of in Hst. fold n winsize overlap in Hst.
    lia. }
  (* the chunks and the old tensors after the windower *)
  assert (Hchunks1 : Forall (chunk_at base W (heap w1)) chunks).
  { eapply Forall_impl; [exact (steps_chunks f d _ _ _ _ _ _ _ Hf Hsteps) |].
    intros ch (Hch & Hc). split; [| exact Hc].
    unfold extend, set_heap in Hch. cbn [heap] in Hch.
    rewrite length_app in Hch. unfold base. lia. }
  assert (Hold1 : forall i c, heap w !! i = Some c -> heap w1 !! i = Some c).
  { intros i c Hc. eapply steps_persist; [exact Hsteps | |].
    - apply lookup_lt_Some in Hc. lia.
    - unfold extend, set_heap. cbn [heap]. apply lookup_app_l_Some.
      exact Hc. }
  (* the fades *)
  assert (Hstable : forall (ch : tensor) (h h' : list cell),
             chunk_at base W h ch -> reshapes base h h' ->
             chunk_at base W h' ch)
    by (intros ch h h'; apply chunk_at_reshapes).
  destruct (reshaping_loop (fun ch => stt_utils.linear_fade ch overlap 0)
              base (fun ch h => chunk_at base W h ch) Hstable
              ltac:(intros ch v (Hb & c & Hc & Hl);
                    apply (fade_in_reshapes ch overlap c v base Hc Hb);
                    unfold len; rewrite Hl; unfold W; lia)
              (slice chunks (Some 1) None) w1
              ltac:(rewrite slice_tail; apply Forall_drop; exact Hchunks1))
    as (w2 & Hfade_in & Hre2).
  assert (Hchunks2 : Forall (chunk_at base W (heap w2)) chunks).
  { eapply Forall_impl; [exact Hchunks1 |]. intros ch Hch.
    exact (Hstable ch _ _ Hch Hre2). }
  destruct (reshaping_loop (fun ch => stt_utils.linear_fade ch 0 overlap)
              base (fun ch h => chunk_at base W h ch) Hstable
              ltac:(intros ch v (Hb & c & Hc & Hl);
                    apply (fade_out_reshapes ch overlap c v base Hc Hb);
                    unfold len; rewrite Hl; unfold W; lia)
              (slice chunks None (Some (-1))) w2
              ltac:(rewrite slice_init; apply Forall_take; exact Hchunks2))
    as (w3 & Hfade_out & Hre3).
  assert (Hchunks3 : Forall (chunk_at base W (heap w3)) chunks).
  { eapply Forall_impl; [exact Hchunks2 |]. intros ch Hch.
    exact (Hstable ch _ _ Hch Hre3). }
  assert (Hold3 : forall i c, heap w !! i = Some c -> heap w3 !! i = Some c).
  { intros i c Hc. pose proof (lookup_lt_Some _ _ _ Hc) as Hi.
    eapply reshapes_old; [exact Hre3 | exact Hi |].
    eapply reshapes_old; [exact Hre2 | exact Hi |].
    apply Hold1. exact Hc. }
  (* the output *)
  set (rc := Cell (replicate (length (slice (data ct) None None)) 0%Q)
                  (dt ct) (dev ct)).
  pose proof (zeros_like_ok tnsr None None ct w3 (Hold3 _ _ Ht)) as Halloc.
  fold rc in Halloc.
  set (result := length (heap w3)) in *.
  set (w4 := extend w3 [rc]) in *.
  assert (Hlen3 : (base <= result)%nat).
  { unfold result. destruct Hre2 as [Hl2 _]. destruct Hre3 as [Hl3 _].
    rewrite Hl3, Hl2.
    assert (Hi := lookup_lt_Some _ _ _ (Hold1 _ _ Ht)).
    assert (Hi0 := lookup_lt_Some _ _ _ Ht).
    destruct (Nat.le_gt_cases base (length (heap w1))) as [Hle | Hgt];
      [exact Hle |].
    exfalso.
    assert (Hlast : is_Some (heap w !! (base - 1)%nat))
      by (apply lookup_lt_is_Some; unfold base in *; lia).
    destruct Hlast as [c Hc]. apply Hold1 in Hc.
    apply lookup_lt_Some in Hc. lia. }
  assert (Hrc : heap w4 !! result = Some rc).
  { unfold w4, extend, set_heap. cbn [heap]. rewrite lookup_app_r by lia.
    rewrite Nat.sub_diag. reflexivity. }
  assert (Hrcl : len (data rc) = n).
  { unfold rc. cbn [data]. unfold len. rewrite length_replicate, slice_all.
    reflexivity. }
  pose proof (tlen_ok result rc w4 Hrc) as Htlen. rewrite Hrcl in Htlen.
  assert (Hbegs : Forall (fun beg => 0 <= beg < n) begs).
  { apply List.Forall_forall. intros x Hx.
    apply range_items_In in Hx; [| lia].
    destruct Hx as (k & Hk & -> & Hlt). nia. }
  assert (Hchunks4 : Forall (chunk_at base W (heap w4)) chunks).
  { eapply Forall_impl; [exact Hchunks3 |]. intros ch Hch.
    unfold w4, extend, set_heap. cbn [heap]. apply chunk_at_app. exact Hch. }
  destruct (reshaping_loop
              (fun '(beg, ch) =>
                 v <- getitem ch None
                        (Some (Z.min (beg + winsize) n - beg)) ;;
                 iadd result (Some beg) (Some (Z.min (beg + winsize) n)) v)
              base
              (fun a h => 0 <= fst a < n /\ chunk_at base W h (snd a)
                          /\ exists cr, h !! result = Some cr
                                        /\ len (data cr) = n))
    with (l := combine begs chunks) (w := w4)
    as (w5 & Hadd & Hre5).
  { intros [beg ch] h h' (Hb & Hch & cr & Hcr & Hcrl) Hre. cbn [fst snd] in *.
    split; [exact Hb |]. split; [exact (Hstable ch _ _ Hch Hre) |].
    destruct Hre as [_ Hre]. destruct (Hre _ _ Hcr) as (cr' & Hcr' & Hl & _).
    exists cr'. split; [exact Hcr' |]. unfold len in *. lia. }
  { intros [beg ch] v (Hb & (_ & c & Hc & Hcl) & cr & Hcr & Hcrl).
    cbn [fst snd] in *.
    apply (add_chunk_reshapes result ch beg winsize n base v cr c);
      try assumption. unfold winsize, winsize_of, n in *. lia. }
  { pose proof (Forall_combine _ _ _ _ Hbegs Hchunks4) as Hall.
    eapply Forall_impl; [exact Hall |]. intros [beg ch] [Hb Hch].
    cbn [fst snd] in *. split; [exact Hb |]. split; [exact Hch |].
    exists rc. split; [exact Hrc | exact Hrcl]. }
  destruct Hre5 as [Hl5 Hre5'].
  destruct (Hre5' _ _ Hrc) as (cr & Hcr & Hcrl & Hdt & Hdev & _).
  exists result, begs, winsize, overlap, w5, cr.
  split; [| split; [exact Hlen3 | split; [exact Hcr | split; [| split; [exact Hdt | split; [exact Hdev |]]]]]].
  - unfold stt_utils.windowed_audio_rendering.
    rewrite (bind_ret _ _ _ _ _ Hrun). cbv beta iota.
    rewrite (bind_ret _ _ _ _ _ Hfade_in).
    rewrite (bind_ret _ _ _ _ _ Hfade_out).
    rewrite (bind_ret _ _ _ _ _ Halloc).
    rewrite (bind_ret _ _ _ _ _ Htlen).
    rewrite (bind_ret _ _ _ _ _ Hadd). reflexivity.
  - rewrite Hcrl. unfold rc. cbn [data].
    rewrite length_replicate, slice_all. reflexivity.
  - intros i c Hc. pose proof (lookup_lt_Some _ _ _ Hc) as Hi.
    eapply reshapes_old; [split; [exact Hl5 | exact Hre5'] | exact Hi |].
    unfold w4, extend, set_heap. cbn [heap]. apply lookup_app_l_Some.
    apply Hold3. exact Hc.
Qed.

Lemma stitched_signal_is_fresh_and_like_input_witness :
  exists result begs winsize overlap w' cr,
    stt_utils.windowed_audio_rendering (tensor_model (fun v => v) cpu)
      0%nat 3 (1 # 2) cpu (signal_world [1; 1; 1; 1; 1; 1; 1]%Q)
    = (Ret (result, begs, winsize, overlap), w')
    /\ (length (heap (signal_world [1; 1; 1; 1; 1; 1; 1]%Q)) <= result)%nat
    /\ heap w' !! result = Some cr
    /\ length (data cr) = length [1; 1; 1; 1; 1; 1; 1]%Q
    /\ dt cr = float32 /\ dev cr = cpu
    /\ (forall i c,
          heap (signal_world [1; 1; 1; 1; 1; 1; 1]%Q) !! i = Some c ->
          heap w' !! i = Some c).
Proof.
  apply (stitched_signal_is_fresh_and_like_input (fun v => v) cpu 0%nat 3
           (1 # 2) cpu (signal_world [1; 1; 1; 1; 1; 1; 1]%Q)
           (Cell [1; 1; 1; 1; 1; 1; 1]%Q float32 cpu)).
  - reflexivity.
  - reflexivity.
  - vm_compute. discriminate.
  - lia.
  - vm_compute. discriminate.
  - reflexivity.
  - vm_compute. reflexivity.
  - vm_compute. discriminate.
Defined.

(* ================================================================== *)
(** * The worker: abort                                                *)
(* ================================================================== *)

(** A loop whose body returns at the first item ends there. *)
Lemma for_return_leaves {S A R} (body : S -> A -> M (S + R)) (a : A)
    (l : list A) (s : S) (w w' : world) (r : R) :
  body s a w = (Ret (inr r), w') ->
  for_return body (a :: l) s w = (Ret (inr r), w').
Proof.
  intros Hbody. cbn [for_return]. rewrite (bind_ret _ _ _ _ _ Hbody).
  reflexivity.
Qed.

(** Whenever the abort flag is already set when a valid worker run reaches
    its first window, [windowed_run] returns [None] without calling the
    model, and [windowed_stt_rendering], which unpacks that result, raises
    [TypeError]. *)
Lemma abort_before_first_window {E} (model : tensor -> M (list str * E))
    (tnsr : tensor) (max_winsize : Z) (overlap_ratio : Q) (device : device)
    (thresh : Q) (moc : option Z) (w : world) (ct : cell) (k : nat) :
  heap w !! tnsr = Some ct ->
  1 <= len (data ct) -> 1 <= max_winsize ->
  (0 <= overlap_ratio)%Q -> (overlap_ratio < 1)%Q ->
  is_float overlap_ratio ->
  winsize_of max_winsize (len (data ct)) <= 2 ^ 53 ->
  abort_at w = Some k -> (k <= polls w)%nat ->
  exists w',
    WavToTextSileroWorker.windowed_run model tnsr max_winsize overlap_ratio
      device first_text w = (Ret None, w')
    /\ WavToTextSileroWorker.windowed_stt_rendering model tnsr max_winsize
         overlap_ratio device thresh moc w = (Raise TypeError, w')
    /\ calls w' = calls w.
Proof.
  intros Ht Hn Hmax Hr0 Hr1 Hfl Hfit Hab Hk.
  set (n := len (data ct)) in *.
  set (winsize := winsize_of max_winsize n).
  set (overlap := overlap_of overlap_ratio winsize).
  assert (Hws : 1 <= winsize <= n) by (unfold winsize, winsize_of; lia).
  pose proof (overlap_bounds overlap_ratio winsize Hfl Hr0 Hr1
                (conj (proj1 Hws) Hfit)) as Hov.
  fold overlap in Hov.
  set (zc := Cell (replicate (length (slice (data ct) None (Some winsize)))
                             0%Q) (dt ct) (dev ct)).
  assert (Hz : heap (extend w [zc]) !! length (heap w) = Some zc).
  { unfold extend, set_heap. cbn [heap]. rewrite lookup_app_r by lia.
    rewrite Nat.sub_diag. reflexivity. }
  destruct (to_ok (length (heap w)) device zc (extend w [zc]) Hz)
    as (batch & cells & cb & Hto & _).
  rewrite extend_extend in Hto.
  set (wp := extend w ([zc] ++ cells)) in *.
  destruct (range_items_head n (winsize - overlap) ltac:(lia) Hn)
    as (rest & Hrange).
  assert (Hr3 : range3 0 n (winsize - overlap) wp = (Ret (0 :: rest), wp)).
  { unfold range3. destruct (Z.eqb_spec (winsize - overlap) 0); [lia |].
    rewrite Hrange. reflexivity. }
  set (wa := World (heap wp) (calls wp) (abort_at wp) (S (polls wp))
                   (progress wp)).
  assert (Hpoll : WavToTextSileroWorker.read_abort wp = (Ret true, wa)).
  { unfold WavToTextSileroWorker.read_abort. fold wa. f_equal. f_equal.
    assert (Habp : abort_at wp = Some k) by exact Hab.
    assert (Hle : (k <=? polls wp)%nat = true)
      by (apply Nat.leb_le; exact Hk).
    rewrite Habp, Hle. reflexivity. }
  assert (Hrun : WavToTextSileroWorker.windowed_run model tnsr max_winsize
                   overlap_ratio device first_text w = (Ret None, wa)).
  { unfold WavToTextSileroWorker.windowed_run.
    rewrite (bind_ret _ _ _ _ _ (tlen_ok tnsr ct w Ht)).
    fold n. fold (winsize_of max_winsize n). fold winsize.
    rewrite overlap_computed
      by (apply overlap_finite;
          [assumption .. | split; [lia | exact Hfit]]).
    fold overlap.
    rewrite (bind_ret _ _ _ _ _ (zeros_like_ok tnsr None _ ct w Ht)).
    fold zc.
    rewrite (bind_ret _ _ _ _ _ Hto).
    rewrite (bind_ret _ _ _ _ _ Hr3).
    rewrite enumerate_cons.
    erewrite bind_ret;
      [| apply for_return_leaves; cbv beta iota;
         rewrite (bind_ret _ _ _ _ _ Hpoll); reflexivity].
    reflexivity. }
  exists wa. split; [exact Hrun |]. split; [| reflexivity].
  unfold WavToTextSileroWorker.windowed_stt_rendering.
  rewrite (bind_ret _ _ _ _ _ Hrun). reflexivity.
Qed.

(** C9, on the code: a worker run over two windows whose abort flag is set
    after the first window. [windowed_run] stops at the next check and
    returns [None] after one model call, but [windowed_stt_rendering]
    unpacks that result and raises [TypeError]. When the flag is set
    during the merge loop instead, [windowed_stt_rendering] returns [None]
    and it is [run] that raises [TypeError] on unpacking it. *)
Theorem abort_ends_in_type_error :
  (exists w',
     WavToTextSileroWorker.windowed_run two_word_model 0%nat 1 0 cpu
       first_text (worker_world [1; 2]%Q 1) = (Ret None, w')
     /\ calls w' = [[1%Q]])
  /\ (exists w',
        WavToTextSileroWorker.windowed_stt_rendering two_word_model 0%nat 1
          0 cpu (9 # 10) (Some 3) (worker_world [1; 2]%Q 1)
        = (Raise TypeError, w'))
  /\ (exists w',
        WavToTextSileroWorker.windowed_stt_rendering two_word_model 0%nat 1
          0 cpu (9 # 10) (Some 3) (worker_world [1; 2]%Q 3)
        = (Ret None, w'))
  /\ (exists w',
        WavToTextSileroWorker.run two_word_model 0%nat (1 # 16000) 0 cpu
          (worker_world [1; 2]%Q 3) = (Raise TypeError, w')).
Proof.
  split; [| split; [| split]].
  - eexists. split; vm_compute; reflexivity.
  - eexists. vm_compute. reflexivity.
  - eexists. vm_compute. reflexivity.
  - eexists. vm_compute. reflexivity.
Qed.

(** Without an abort the same run returns the merged text. *)
Example worker_run_completes :
  exists w',
    WavToTextSileroWorker.run two_word_model 0%nat (1 # 16000) 0 cpu
      (signal_world [1; 2]%Q) = (Ret (lit "abc"), w')
    /\ progress w' = [50; 100; 50; 100].
Proof. eexists. split; vm_compute; reflexivity. Qed.

(* ================================================================== *)
(** * Examples                                                         *)
(* ================================================================== *)

(** The example of the docstring of [merge_overlapping_strings], on the
    current code: overlap 6 with score 0.5. *)
Example merge_docstring_example :
  merge_overlapping_strings (lit "123456789") (lit "778899abcdef") (1 # 2)
                            None
  = (lit "123456789abcdef", 6, (6 # 12)%Q).
Proof. vm_compute. reflexivity. Qed.

Example merge_hello_world_peace :
  merge_overlapping_strings (lit "hello world") (lit "world peace") 1 None
  = (lit "hello world peace", 5, (10 # 10)%Q).
Proof. vm_compute. reflexivity. Qed.

(** A stitched all-ones signal: the faded chunks sum to ones again. *)
Example render_ones :
  exists w' cr,
    stt_utils.windowed_audio_rendering (tensor_model (fun v => v) cpu)
      0%nat 3 (1 # 2) cpu (signal_world [1; 1; 1; 1; 1; 1; 1]%Q)
    = (Ret (6%nat, [0; 2; 4; 6], 3, 1), w')
    /\ heap w' !! 6%nat = Some cr
    /\ Forall (fun x => x == 1)%Q (data cr).
Proof.
  eexists _, _. split; [vm_compute; reflexivity |].
  split; [reflexivity |]. repeat constructor.
Qed.

(** A non-positive window size alone does not keep the model from being
    called: with [max_winsize = -2] and [overlap_ratio = 2] the stride
    is 2, and the model is called three times on a signal of five
    samples. *)
Example windower_negative_winsize_calls_model :
  stride_of (-2) 2 5 = 2
  /\ exists chunks w',
       stt_utils.windowed_run (value_model (fun v => v)) 0%nat (-2) 2 cpu ret
         (signal_world [1; 2; 3; 4; 5]%Q)
       = (Ret (chunks, [0; 2; 4], -2, -4), w')
       /\ calls w' = [[1; 2; 3]; [0; 0; 0]; [0; 0; 0]]%Q.
Proof.
  split; [reflexivity |]. eexists _, _. split; vm_compute; reflexivity.
Qed.

(* ================================================================== *)
(** * More on the fuzzy merge                                          *)
(* ================================================================== *)

Lemma distance_nil_r (s : str) : Levenshtein.distance s [] = len s.
Proof. destruct s; reflexivity. Qed.

Lemma distance_cons_cons (a b : ascii) (s1 s2 : str) :
  Levenshtein.distance (a :: s1) (b :: s2)
  = Z.min (Z.min (Levenshtein.distance s1 (b :: s2) + 1)
                 (Levenshtein.distance (a :: s1) s2 + 1))
          (Levenshtein.distance s1 s2 + (if Ascii.eqb a b then 0 else 2)).
Proof. reflexivity. Qed.

(** The distance is never negative, and it is 0 only between equal
    strings. *)
Lemma distance_zero (s1 s2 : str) :
  0 <= Levenshtein.distance s1 s2
  /\ (Levenshtein.distance s1 s2 = 0 -> s1 = s2).
Proof.
  revert s2. induction s1 as [|a s1 IH1]; intros s2.
  - rewrite distance_nil_l. unfold len. split; [lia |].
    destruct s2; [reflexivity | simpl; lia].
  - induction s2 as [|b s2 IH2].
    + rewrite distance_nil_r. unfold len. simpl. split; lia.
    + rewrite distance_cons_cons.
      destruct (IH1 (b :: s2)) as [H1 _]. destruct IH2 as [H2 _].
      destruct (IH1 s2) as [H3 H3'].
      destruct (Ascii.eqb_spec a b) as [-> | Hne].
      * split; [lia |]. intros H0. f_equal. apply H3'. lia.
      * split; lia.
Qed.

(** A similarity of 1 or more is reached by equal strings only. *)
Lemma ratio_one_equal (s1 s2 : str) :
  (1 <= Levenshtein.ratio s1 s2)%Q -> s1 = s2.
Proof.
  unfold Levenshtein.ratio.
  destruct (Z.eqb_spec (len s1 + len s2) 0) as [H0 | Hne].
  - intros _. unfold len in H0.
    destruct s1, s2; simpl in H0; try lia. reflexivity.
  - intros Hle. apply (proj2 (distance_zero s1 s2)).
    pose proof (proj1 (distance_zero s1 s2)) as Hd.
    assert (Hpos : 0 < len s1 + len s2) by (unfold len in *; lia).
    set (L := len s1 + len s2) in *. set (D := Levenshtein.distance s1 s2) in *.
    unfold Qdiv, Qle in Hle.
    destruct L as [|l|l]; try lia.
    cbn in Hle. nia.
Qed.

Lemma slice_suffix {A} (l : list A) (lo : Z) :
  exists pre, l = pre ++ slice l (Some lo) None.
Proof.
  unfold slice, slice_indices.
  pose proof (bound_range (len l) lo ltac:(unfold len; lia)) as Hb.
  set (a := bound (len l) lo) in *.
  exists (take (Z.to_nat a) l).
  rewrite (take_ge (drop _ l)) by (rewrite length_drop; unfold len; lia).
  symmetry. apply take_drop.
Qed.

Lemma slice_split {A} (l : list A) (i : Z) :
  0 <= i -> slice l None (Some i) ++ slice l (Some i) None = l.
Proof.
  intros Hi. rewrite slice_prefix by exact Hi.
  unfold slice, slice_indices, bound.
  destruct (Z.ltb_spec i 0); [lia |].
  rewrite (take_ge (drop _ l)) by (rewrite length_drop; unfold len; lia).
  destruct (Z_le_gt_dec i (len l)) as [Hle | Hgt].
  - rewrite Z.min_l by exact Hle. apply take_drop.
  - rewrite Z.min_r by lia. unfold len in *.
    rewrite take_ge, drop_ge by lia. apply app_nil_r.
Qed.

(** With a threshold of 1 or more the merge is not fuzzy: the overlap it
    removes is a true common part, so the result begins with [str1] and
    ends with [str2], and no character of either is lost. *)
Theorem exact_merge_keeps_both (str1 str2 : str) (thresh : Q)
    (max_range : option Z) :
  (1 <= thresh)%Q ->
  exists m score pre,
    merge_overlapping_strings str1 str2 thresh max_range
    = (str1 ++ slice str2 (Some m) None, m, score)
    /\ str1 ++ slice str2 (Some m) None = pre ++ str2.
Proof.
  intros Hthresh. unfold merge_overlapping_strings.
  set (mr := match max_range with
             | None => Z.min (len str1) (len str2)
             | Some m => m
             end).
  pose proof (scan_range str1 str2 thresh mr) as Hscan.
  destruct (fold_left _ _ _) as [m s].
  unfold scan_inv in Hscan. cbn [fst snd] in Hscan.
  destruct Hscan as [(Hm & Hqm & _ & _) | (_ & Hacc)].
  - apply Qle_bool_iff in Hqm.
    pose proof (ratio_one_equal _ _ (Qle_trans _ _ _ Hthresh Hqm)) as Heq.
    destruct (slice_suffix str1 (- m)) as (pre & Hpre).
    exists m, s, pre. split; [reflexivity |].
    rewrite Hpre at 1. rewrite Heq, <- app_assoc.
    rewrite slice_split by lia. reflexivity.
  - injection Hacc as -> ->. exists 0, (-1)%Q, str1.
    split; [reflexivity |]. rewrite slice_from_0. reflexivity.
Qed.

Lemma exact_merge_keeps_both_witness :
  exists m score pre,
    merge_overlapping_strings (lit "hello world") (lit "world peace") 1 None
    = (lit "hello world" ++ slice (lit "world peace") (Some m) None, m, score)
    /\ lit "hello world" ++ slice (lit "world peace") (Some m) None
       = pre ++ lit "world peace".
Proof.
  apply (exact_merge_keeps_both (lit "hello world") (lit "world peace") 1 None).
  discriminate.
Defined.

(** With the default range the candidates stop one short of the shorter
    string, so a merge never swallows the whole of a non-empty [str2]: at
    least one character of it is appended, whatever the threshold. *)
Theorem default_merge_appends (str1 str2 : str) (thresh : Q) :
  str2 <> [] ->
  exists m score,
    merge_overlapping_strings str1 str2 thresh None
    = (str1 ++ slice str2 (Some m) None, m, score)
    /\ 0 <= m < len str2
    /\ (m = 0 \/ m < len str1)
    /\ len (str1 ++ slice str2 (Some m) None) = len str1 + len str2 - m.
Proof.
  intros Hne. unfold merge_overlapping_strings.
  pose proof (scan_range str1 str2 thresh (Z.min (len str1) (len str2)))
    as Hscan.
  destruct (fold_left _ _ _) as [m s].
  unfold scan_inv in Hscan. cbn [fst snd] in Hscan.
  assert (Hlen2 : 0 < len str2)
    by (unfold len; destruct str2; [congruence | simpl; lia]).
  assert (Hm : 0 <= m < len str2 /\ (m = 0 \/ m < len str1)).
  { destruct Hscan as [(Hm & _) | (_ & Hacc)].
    - lia.
    - injection Hacc as -> ->. lia. }
  exists m, s. split; [reflexivity |].
  split; [apply Hm |]. split; [apply Hm |].
  unfold len. rewrite length_app.
  unfold slice, slice_indices, bound.
  destruct (Z.ltb_spec m 0); [lia |].
  rewrite take_ge by (rewrite length_drop; unfold len; lia).
  rewrite length_drop. unfold len in *. lia.
Qed.

Lemma default_merge_appends_witness :
  exists m score,
    merge_overlapping_strings (lit "abc") (lit "abc") 1 None
    = (lit "abc" ++ slice (lit "abc") (Some m) None, m, score)
    /\ 0 <= m < len (lit "abc")
    /\ (m = 0 \/ m < len (lit "abc"))
    /\ len (lit "abc" ++ slice (lit "abc") (Some m) None)
       = len (lit "abc") + len (lit "abc") - m.
Proof.
  apply (default_merge_appends (lit "abc") (lit "abc") 1).
  discriminate.
Defined.

(** Without a candidate to try (a bound of 0 or less, or the default bound
    with an empty string on either side) nothing is compared: the merge is
    the plain concatenation, with match 0 and score -1. *)
Theorem merge_without_candidates (str1 str2 : str) (thresh : Q)
    (max_range : option Z) :
  match max_range with
  | None => Z.min (len str1) (len str2)
  | Some m => m
  end <= 0 ->
  merge_overlapping_strings str1 str2 thresh max_range
  = (str1 ++ str2, 0, (-1)%Q).
Proof.
  intros Hle. unfold merge_overlapping_strings.
  rewrite range_eq. replace (Z.to_nat _) with 0%nat by lia.
  cbn [seq map fold_left]. rewrite slice_from_0. reflexivity.
Qed.

Lemma merge_without_candidates_witness :
  merge_overlapping_strings [] (lit "abc") (1 # 2) None
  = ([] ++ lit "abc", 0, (-1)%Q).
Proof.
  apply (merge_without_candidates [] (lit "abc") (1 # 2) None).
  vm_compute. discriminate.
Defined.

Lemma enumerate_app {A} (l1 l2 : list A) (start : Z) :
  enumerate (l1 ++ l2) start
  = enumerate l1 start ++ enumerate l2 (start + len l1).
Proof.
  revert start. induction l1 as [|a l1 IH]; intros start.
  - unfold len. simpl. change (Z.of_nat 0) with 0.
    replace (start + 0) with start by lia. reflexivity.
  - rewrite <- app_comm_cons, !enumerate_cons, IH. cbn [app]. do 2 f_equal.
    unfold len. rewrite length_cons. f_equal. lia.
Qed.

Lemma merge_loop_grows (thresh : Q) (moc : option Z)
    (l : list (Z * str)) (acc : str * list Q) :
  exists rest more,
    fold_left (stt_utils.merge_body thresh moc) l acc
    = (fst acc ++ rest, snd acc ++ more)
    /\ length more = length l
    /\ (length rest <= list_sum (map (fun ich => length (snd ich)) l))%nat.
Proof.
  revert acc. induction l as [|[i ch] l IH]; intros [merged scores].
  - exists [], []. simpl. rewrite !app_nil_r. repeat split; lia.
  - change (fold_left (stt_utils.merge_body thresh moc) ((i, ch) :: l)
                      (merged, scores))
      with (fold_left (stt_utils.merge_body thresh moc) l
              (stt_utils.merge_body thresh moc (merged, scores) (i, ch))).
    remember (stt_utils.merge_body thresh moc (merged, scores) (i, ch))
      as acc1 eqn:Hacc.
    unfold stt_utils.merge_body, merge_overlapping_strings in Hacc.
    destruct (fold_left (merge_step merged ch thresh) _ _) as [k score].
    cbv beta iota zeta in Hacc. subst acc1.
    destruct (IH (merged ++ slice ch (Some k) None, scores ++ [score]))
      as (rest & more & Hfold & Hlen & Hrest).
    exists (slice ch (Some k) None ++ rest), (score :: more).
    split; [etransitivity; [exact Hfold |] |].
    { cbn [fst snd]. rewrite <- !app_assoc. reflexivity. }
    split; [simpl; lia |].
    rewrite length_app. unfold list_sum in *.
    cbn [map fold_right]. cbv beta. cbn [snd].
    pose proof (slice_length_le ch (Some k) None). lia.
Qed.

(** The transcript only grows: the text and the scores that the merge loop
    has produced for the first windows are kept as they are when further
    windows are merged, each of which adds one score and at most its own
    characters. *)
Theorem transcript_only_grows (chunks more : list str) (thresh : Q)
    (moc : option Z) :
  exists rest scores,
    stt_utils.merge_chunks (chunks ++ more) thresh moc
    = (fst (stt_utils.merge_chunks chunks thresh moc) ++ rest,
       snd (stt_utils.merge_chunks chunks thresh moc) ++ scores)
    /\ length scores = length more
    /\ (length rest <= list_sum (map (@length ascii) more))%nat.
Proof.
  unfold stt_utils.merge_chunks. rewrite enumerate_app, fold_left_app.
  destruct (merge_loop_grows thresh moc (enumerate more (1 + len chunks))
              (fold_left (stt_utils.merge_body thresh moc)
                         (enumerate chunks 1) ([], [])))
    as (rest & scores & Hfold & Hlen & Hrest).
  exists rest, scores. split; [exact Hfold |].
  rewrite enumerate_length in Hlen. split; [exact Hlen |].
  rewrite <- (enumerate_snd more (1 + len chunks)), map_map. exact Hrest.
Qed.

Lemma ratio_le_one (s1 s2 : str) : (Levenshtein.ratio s1 s2 <= 1)%Q.
Proof.
  unfold Levenshtein.ratio.
  destruct (Z.eqb_spec (len s1 + len s2) 0) as [H0 | Hne].
  - apply Qle_refl.
  - pose proof (proj1 (distance_zero s1 s2)) as Hd.
    assert (Hpos : 0 < len s1 + len s2) by (unfold len in *; lia).
    set (L := len s1 + len s2) in *.
    set (D := Levenshtein.distance s1 s2) in *.
    unfold Qdiv, Qle. destruct L as [|l|l]; try lia. cbn. nia.
Qed.

Lemma merge_score_range (str1 str2 : str) (thresh : Q)
    (max_range : option Z) :
  let s := snd (merge_overlapping_strings str1 str2 thresh max_range) in
  s = (-1)%Q \/ (thresh <= s /\ s <= 1)%Q.
Proof.
  unfold merge_overlapping_strings.
  set (mr := match max_range with
             | None => Z.min (len str1) (len str2)
             | Some m => m
             end).
  pose proof (scan_range str1 str2 thresh mr) as Hscan.
  destruct (fold_left _ _ _) as [m s].
  unfold scan_inv in Hscan. cbn [fst snd] in Hscan. cbn [snd].
  destruct Hscan as [(_ & Hq & _ & Hs) | (_ & Hacc)].
  - right. rewrite Hs. split.
    + apply Qle_bool_iff. exact Hq.
    + apply ratio_le_one.
  - injection Hacc as _ ->. left. reflexivity.
Qed.

Lemma merge_loop_score_range (thresh : Q) (moc : option Z)
    (l : list (Z * str)) (acc : str * list Q) :
  Forall (fun s => s = (-1)%Q \/ (thresh <= s /\ s <= 1)%Q) (snd acc) ->
  Forall (fun s => s = (-1)%Q \/ (thresh <= s /\ s <= 1)%Q)
         (snd (fold_left (stt_utils.merge_body thresh moc) l acc)).
Proof.
  revert acc. induction l as [|[i ch] l IH]; intros [merged scores] Hacc.
  - exact Hacc.
  - change (fold_left (stt_utils.merge_body thresh moc) ((i, ch) :: l)
                      (merged, scores))
      with (fold_left (stt_utils.merge_body thresh moc) l
              (stt_utils.merge_body thresh moc (merged, scores) (i, ch))).
    apply IH. unfold stt_utils.merge_body.
    pose proof (merge_score_range merged ch thresh moc) as Hs.
    destruct (merge_overlapping_strings merged ch thresh moc)
      as [[merged' k] score].
    cbn [snd] in *. apply Forall_app. split; [exact Hacc |].
    constructor; [exact Hs | constructor].
Qed.

(** Every match score that the merge loop of [windowed_stt_rendering]
    reports is either the sentinel -1 (no candidate reached the threshold,
    the chunk was appended whole) or a similarity that is at least the
    threshold and at most 1. *)
Theorem match_scores_are_sentinel_or_similarity (chunks : list str)
    (thresh : Q) (moc : option Z) :
  Forall (fun s => s = (-1)%Q \/ (thresh <= s /\ s <= 1)%Q)
         (snd (stt_utils.merge_chunks chunks thresh moc))
  /\ length (snd (stt_utils.merge_chunks chunks thresh moc)) = length chunks.
Proof.
  split.
  - unfold stt_utils.merge_chunks. apply merge_loop_score_range. constructor.
  - apply merge_chunks_length.
Qed.

(* ================================================================== *)
(** * More on the fades                                                *)
(* ================================================================== *)

Lemma set_heap_id (w : world) (t : tensor) (c : cell) :
  heap w !! t = Some c -> set_heap w (<[t := c]> (heap w)) = w.
Proof.
  intros H. unfold set_heap. rewrite list_insert_id by exact H.
  destruct w; reflexivity.
Qed.

Lemma set_heap_insert (w : world) (t : tensor) (c1 c2 : cell) :
  set_heap (set_heap w (<[t := c1]> (heap w)))
           (<[t := c2]> (heap (set_heap w (<[t := c1]> (heap w)))))
  = set_heap w (<[t := c2]> (heap w)).
Proof.
  unfold set_heap. cbn [heap calls abort_at polls progress].
  rewrite list_insert_insert_eq. reflexivity.
Qed.

Lemma linear_fade_seq (t : tensor) (fade_in fade_out : Z) (w : world) :
  stt_utils.linear_fade t fade_in fade_out w
  = match stt_utils.linear_fade t fade_in 0 w with
    | (Ret _, w1) => stt_utils.linear_fade t 0 fade_out w1
    | (Raise e, w1) => (Raise e, w1)
    end.
Proof.
  unfold stt_utils.linear_fade. change (0 <? 0) with false. cbv iota.
  unfold bind, ret. destruct (0 <? fade_in).
  - destruct (imul _ _ _ _ w) as [[[] | e] w1]; reflexivity.
  - reflexivity.
Qed.

Lemma fade_in_lookup (d : list Q) (k : Z) (p : nat) (x : Q) :
  0 < k -> k + 1 <= len d -> d !! p = Some x ->
  exists y,
    (zip_with Qmult (take (Z.to_nat (k + 1)) d)
                    (drop 1 (linspace 0 1 (k + 2)))
     ++ drop (Z.to_nat (k + 1)) d) !! p = Some y
    /\ (y == x * fade_in_gain k (Z.of_nat p))%Q.
Proof.
  intros Hk Hlen Hp. unfold len in Hlen.
  pose proof (lookup_lt_Some _ _ _ Hp) as Hpn.
  unfold fade_in_gain. destruct (Z.ltb_spec 0 k); [| lia]. cbn [andb].
  assert (Hz : length (zip_with Qmult (take (Z.to_nat (k + 1)) d)
                         (drop 1 (linspace 0 1 (k + 2))))
               = Z.to_nat (k + 1)).
  { rewrite length_zip_with, length_take, length_drop, linspace_length. lia. }
  destruct (Z.leb_spec (Z.of_nat p) k) as [Hle | Hgt].
  - eexists. split.
    + rewrite lookup_app_l by (rewrite Hz; lia).
      apply lookup_zip_with_Some. eexists _, _.
      split; [reflexivity |]. split.
      * rewrite lookup_take_lt by lia. exact Hp.
      * rewrite lookup_drop. apply linspace_lookup. lia.
    + assert (Hb : ~ (inject_Z (k + 1) == 0)%Q)
        by (unfold Qeq; cbn [Qnum Qden inject_Z]; lia).
      replace (k + 2 - 1) with (k + 1) by lia.
      replace (Z.of_nat (1 + p)) with (Z.of_nat p + 1) by lia.
      revert Hb.
      generalize (inject_Z (Z.of_nat p + 1)), (inject_Z (k + 1)).
      intros a b Hb. field. exact Hb.
  - exists x. split.
    + rewrite lookup_app_r by (rewrite Hz; lia).
      rewrite Hz, lookup_drop.
      replace (Z.to_nat (k + 1) + (p - Z.to_nat (k + 1)))%nat with p by lia.
      exact Hp.
    + rewrite Qmult_1_r. reflexivity.
Qed.

Lemma fade_out_lookup (d : list Q) (k : Z) (p : nat) (x : Q) :
  0 < k -> k + 1 <= len d -> d !! p = Some x ->
  exists y,
    (take (length d - Z.to_nat (k + 1)) d
     ++ zip_with Qmult (drop (length d - Z.to_nat (k + 1)) d)
                       (take (Z.to_nat (k + 1)) (linspace 1 0 (k + 2))))
      !! p = Some y
    /\ (y == x * fade_out_gain k (len d) (Z.of_nat p))%Q.
Proof.
  intros Hk Hlen Hp. unfold len in *.
  pose proof (lookup_lt_Some _ _ _ Hp) as Hpn.
  unfold fade_out_gain. destruct (Z.ltb_spec 0 k); [| lia]. cbn [andb].
  assert (Ht : length (take (length d - Z.to_nat (k + 1)) d)
               = (length d - Z.to_nat (k + 1))%nat)
    by (rewrite length_take; lia).
  destruct (Z.leb_spec (Z.of_nat (length d) - k - 1) (Z.of_nat p))
    as [Hle | Hgt].
  - eexists. split.
    + rewrite lookup_app_r by (rewrite Ht; lia). rewrite Ht.
      apply lookup_zip_with_Some. eexists _, _.
      split; [reflexivity |]. split.
      * rewrite lookup_drop.
        replace (length d - Z.to_nat (k + 1)
                 + (p - (length d - Z.to_nat (k + 1))))%nat with p by lia.
        exact Hp.
      * rewrite lookup_take_lt by lia. apply linspace_lookup. lia.
    + assert (Hb : ~ (inject_Z (k + 1) == 0)%Q)
        by (unfold Qeq; cbn [Qnum Qden inject_Z]; lia).
      replace (k + 2 - 1) with (k + 1) by lia.
      replace (Z.of_nat (length d) - Z.of_nat p)
        with (k + 1 - Z.of_nat (p - (length d - Z.to_nat (k + 1)))) by lia.
      set (j := Z.of_nat (p - (length d - Z.to_nat (k + 1)))).
      assert (Hs : (inject_Z (k + 1 - j) == inject_Z (k + 1) - inject_Z j)%Q)
        by (unfold Zminus; rewrite inject_Z_plus, inject_Z_opp; reflexivity).
      rewrite Hs. revert Hb.
      generalize (inject_Z j), (inject_Z (k + 1)).
      intros a b Hb. field. exact Hb.
  - exists x. split.
    + rewrite lookup_app_l by (rewrite Ht; lia).
      rewrite lookup_take_lt by lia. exact Hp.
    + rewrite Qmult_1_r. reflexivity.
Qed.

(** One fade of [linear_fade] on a tensor that is long enough for it: the
    new samples, position by position. *)
Lemma fade_in_gains (t : tensor) (k : Z) (c : cell) (w : world) :
  heap w !! t = Some c ->
  fade_fits k (len (data c)) = true ->
  exists d',
    stt_utils.linear_fade t k 0 w
    = (Ret tt, set_heap w (<[t := Cell d' (dt c) (dev c)]> (heap w)))
    /\ length d' = length (data c)
    /\ forall (p : nat) (x : Q), data c !! p = Some x ->
         exists y, d' !! p = Some y
                   /\ (y == x * fade_in_gain k (Z.of_nat p))%Q.
Proof.
  intros Ht Hfit. unfold fade_fits in Hfit.
  destruct (Z.leb_spec k 0) as [Hk | Hk].
  - exists (data c). split; [| split].
    + replace (Cell (data c) (dt c) (dev c)) with c by (destruct c; reflexivity).
      rewrite set_heap_id by exact Ht.
      unfold stt_utils.linear_fade. destruct (Z.ltb_spec 0 k); [lia |].
      reflexivity.
    + reflexivity.
    + intros p x Hp. exists x. split; [exact Hp |].
      unfold fade_in_gain. destruct (Z.ltb_spec 0 k); [lia |].
      cbn [andb]. rewrite Qmult_1_r. reflexivity.
  - cbn [orb] in Hfit. apply Z.leb_le in Hfit.
    eexists. split; [| split].
    + apply fade_in_ok; assumption.
    + rewrite length_app, length_zip_with, length_take, !length_drop,
        linspace_length. unfold len in Hfit. lia.
    + intros p x Hp. apply fade_in_lookup; assumption.
Qed.

Lemma fade_out_gains (t : tensor) (k : Z) (c : cell) (w : world) :
  heap w !! t = Some c ->
  fade_fits k (len (data c)) = true ->
  exists d',
    stt_utils.linear_fade t 0 k w
    = (Ret tt, set_heap w (<[t := Cell d' (dt c) (dev c)]> (heap w)))
    /\ length d' = length (data c)
    /\ forall (p : nat) (x : Q), data c !! p = Some x ->
         exists y, d' !! p = Some y
                   /\ (y == x * fade_out_gain k (len (data c)) (Z.of_nat p))%Q.
Proof.
  intros Ht Hfit. unfold fade_fits in Hfit.
  destruct (Z.leb_spec k 0) as [Hk | Hk].
  - exists (data c). split; [| split].
    + replace (Cell (data c) (dt c) (dev c)) with c by (destruct c; reflexivity).
      rewrite set_heap_id by exact Ht.
      unfold stt_utils.linear_fade. destruct (Z.ltb_spec 0 k); [lia |].
      reflexivity.
    + reflexivity.
    + intros p x Hp. exists x. split; [exact Hp |].
      unfold fade_out_gain. destruct (Z.ltb_spec 0 k); [lia |].
      cbn [andb]. rewrite Qmult_1_r. reflexivity.
  - cbn [orb] in Hfit. apply Z.leb_le in Hfit.
    eexists. split; [| split].
    + apply fade_out_ok; assumption.
    + rewrite length_app, length_zip_with, length_take, !length_drop,
        length_take, linspace_length. unfold len in Hfit. lia.
    + intros p x Hp. apply fade_out_lookup; assumption.
Qed.

(** What [linear_fade] does to a tensor of [n] samples that is long enough
    for both fades: only the samples of that tensor change, their number,
    numeric type and device stay, and the sample at position [p] is scaled
    by [(p + 1) / (fade_in + 1)] when [p <= fade_in] and by
    [(n - p) / (fade_out + 1)] when [p >= n - fade_out - 1]. So a fade
    of [N] leaves [N] samples with a factor below 1, the endpoint with the
    lowest factor [1 / (N + 1)], which is not 0. *)
Theorem linear_fade_scales_each_sample (t : tensor) (fade_in fade_out : Z)
    (c : cell) (w : world) :
  heap w !! t = Some c ->
  fade_fits fade_in (len (data c)) = true ->
  fade_fits fade_out (len (data c)) = true ->
  exists d',
    stt_utils.linear_fade t fade_in fade_out w
    = (Ret tt, set_heap w (<[t := Cell d' (dt c) (dev c)]> (heap w)))
    /\ length d' = length (data c)
    /\ forall (p : nat) (x : Q), data c !! p = Some x ->
         exists y, d' !! p = Some y
                   /\ (y == x * fade_in_gain fade_in (Z.of_nat p)
                            * fade_out_gain fade_out (len (data c))
                                            (Z.of_nat p))%Q.
Proof.
  intros Ht Hin Hout.
  destruct (fade_in_gains t fade_in c w Ht Hin) as (d1 & Hrun1 & Hlen1 & Hd1).
  set (c1 := Cell d1 (dt c) (dev c)) in *.
  set (w1 := set_heap w (<[t := c1]> (heap w))) in *.
  pose proof (lookup_lt_Some _ _ _ Ht) as Hlt.
  assert (Ht1 : heap w1 !! t = Some c1)
    by (unfold w1, set_heap; cbn [heap]; apply list_lookup_insert_eq; exact Hlt).
  assert (Hn : len (data c1) = len (data c))
    by (unfold len, c1; cbn [data]; rewrite Hlen1; reflexivity).
  destruct (fade_out_gains t fade_out c1 w1 Ht1) as (d2 & Hrun2 & Hlen2 & Hd2).
  { rewrite Hn. exact Hout. }
  exists d2. split; [| split].
  - rewrite linear_fade_seq, Hrun1, Hrun2. unfold w1.
    rewrite set_heap_insert. reflexivity.
  - rewrite Hlen2. exact Hlen1.
  - intros p x Hp. destruct (Hd1 p x Hp) as (y1 & Hy1 & Hq1).
    destruct (Hd2 p y1 Hy1) as (y2 & Hy2 & Hq2).
    exists y2. split; [exact Hy2 |].
    rewrite Hq2, Hq1, Hn. reflexivity.
Qed.

Lemma linear_fade_scales_each_sample_witness :
  exists d',
    stt_utils.linear_fade 0%nat 2 1 (signal_world [8; 8; 8; 8; 8]%Q)
    = (Ret tt,
       set_heap (signal_world [8; 8; 8; 8; 8]%Q)
         (<[0%nat := Cell d' float32 cpu]>
            (heap (signal_world [8; 8; 8; 8; 8]%Q))))
    /\ length d' = 5%nat
    /\ forall (p : nat) (x : Q), [8; 8; 8; 8; 8]%Q !! p = Some x ->
         exists y, d' !! p = Some y
                   /\ (y == x * fade_in_gain 2 (Z.of_nat p)
                            * fade_out_gain 1 5 (Z.of_nat p))%Q.
Proof.
  apply (linear_fade_scales_each_sample 0%nat 2 1
           (Cell [8; 8; 8; 8; 8]%Q float32 cpu)
           (signal_world [8; 8; 8; 8; 8]%Q));
    reflexivity.
Defined.

Lemma broadcast_mismatch (n : nat) (vs : list Q) (w : world) :
  length vs <> n -> (2 <= length vs)%nat ->
  broadcast n vs w = (Raise RuntimeError, w).
Proof.
  intros Hne H2. unfold broadcast.
  destruct (Nat.eqb_spec (length vs) n) as [He | _]; [contradiction |].
  destruct vs as [|v [|v' vs]]; simpl in H2; try lia. reflexivity.
Qed.

Lemma fade_in_short (t : tensor) (k : Z) (c : cell) (w : world) :
  heap w !! t = Some c -> 0 < k -> len (data c) < k + 1 ->
  stt_utils.linear_fade t k 0 w = (Raise RuntimeError, w).
Proof.
  intros Ht Hk Hlen. unfold stt_utils.linear_fade.
  destruct (Z.ltb_spec 0 k); [| lia].
  apply bind_raise. unfold imul, inplace.
  rewrite (bind_ret _ _ _ _ _ (deref_ok t c w Ht)).
  destruct (slice_indices (len (data c)) None (Some (k + 1))) as [a b].
  apply bind_raise. apply broadcast_mismatch.
  - rewrite slice_tail by lia. rewrite length_drop, linspace_length.
    pose proof (slice_length_le (data c) None (Some (k + 1))).
    unfold len in Hlen. lia.
  - rewrite slice_tail by lia. rewrite length_drop, linspace_length. lia.
Qed.

Lemma fade_out_short (t : tensor) (k : Z) (c : cell) (w : world) :
  heap w !! t = Some c -> 0 < k -> len (data c) < k + 1 ->
  stt_utils.linear_fade t 0 k w = (Raise RuntimeError, w).
Proof.
  intros Ht Hk Hlen. unfold stt_utils.linear_fade.
  change (0 <? 0) with false. cbv iota.
  rewrite (bind_ret _ _ w w tt) by reflexivity.
  destruct (Z.ltb_spec 0 k); [| lia].
  unfold imul, inplace.
  rewrite (bind_ret _ _ _ _ _ (deref_ok t c w Ht)).
  destruct (slice_indices (len (data c)) (Some (- k - 1)) None) as [a b].
  apply bind_raise. apply broadcast_mismatch.
  - rewrite slice_init, length_take, linspace_length.
    pose proof (slice_length_le (data c) (Some (- k - 1)) None).
    unfold len in Hlen. lia.
  - rewrite slice_init, length_take, linspace_length. lia.
Qed.

(** [linear_fade] on a tensor of [n] samples ends normally exactly when
    each requested fade fits, that is [n >= fade + 1]; a tensor too short
    for one of them makes the in-place multiplication raise a shape error
    ([RuntimeError]), and when it is the fade-in that does not fit, the
    tensor is left as it was. *)
Theorem linear_fade_fits_or_raises (t : tensor) (fade_in fade_out : Z)
    (c : cell) (w : world) :
  heap w !! t = Some c ->
  fst (stt_utils.linear_fade t fade_in fade_out w)
  = (if fade_fits fade_in (len (data c)) && fade_fits fade_out (len (data c))
     then Ret tt else Raise RuntimeError)
  /\ (fade_fits fade_in (len (data c)) = false ->
      snd (stt_utils.linear_fade t fade_in fade_out w) = w).
Proof.
  intros Ht.
  destruct (fade_fits fade_in (len (data c))) eqn:Hin.
  - split; [| discriminate]. cbn [andb].
    destruct (fade_in_gains t fade_in c w Ht Hin) as (d1 & Hrun1 & Hlen1 & _).
    rewrite linear_fade_seq, Hrun1.
    set (c1 := Cell d1 (dt c) (dev c)) in *.
    set (w1 := set_heap w (<[t := c1]> (heap w))) in *.
    pose proof (lookup_lt_Some _ _ _ Ht) as Hlt.
    assert (Ht1 : heap w1 !! t = Some c1)
      by (unfold w1, set_heap; cbn [heap]; apply list_lookup_insert_eq;
          exact Hlt).
    assert (Hn : len (data c1) = len (data c))
      by (unfold len, c1; cbn [data]; rewrite Hlen1; reflexivity).
    destruct (fade_fits fade_out (len (data c))) eqn:Hout.
    + rewrite <- Hn in Hout.
      destruct (fade_out_gains t fade_out c1 w1 Ht1 Hout) as (d2 & Hrun2 & _).
      rewrite Hrun2. reflexivity.
    + unfold fade_fits in Hout. apply orb_false_iff in Hout.
      destruct Hout as [Hk Hshort].
      apply Z.leb_gt in Hk. apply Z.leb_gt in Hshort.
      rewrite (fade_out_short t fade_out c1 w1 Ht1) by lia. reflexivity.
  - unfold fade_fits in Hin. apply orb_false_iff in Hin.
    destruct Hin as [Hk Hshort].
    apply Z.leb_gt in Hk. apply Z.leb_gt in Hshort.
    rewrite linear_fade_seq, (fade_in_short t fade_in c w Ht) by lia.
    split; reflexivity.
Qed.

Lemma linear_fade_fits_or_raises_witness :
  fst (stt_utils.linear_fade 0%nat 3 0 (signal_world [1; 1; 1]%Q))
  = Raise RuntimeError
  /\ (fade_fits 3 3 = false ->
      snd (stt_utils.linear_fade 0%nat 3 0 (signal_world [1; 1; 1]%Q))
      = signal_world [1; 1; 1]%Q).
Proof.
  apply (linear_fade_fits_or_raises 0%nat 3 0 (Cell [1; 1; 1]%Q float32 cpu)
           (signal_world [1; 1; 1]%Q)).
  reflexivity.
Defined.

(** The cross-fade of any two chunks: when a fade-out of [k] samples is
    applied to one and a fade-in of [k] samples to the other, at each of
    the [k] positions where the end of the first overlaps the start of the
    second the two factors add up to 1, so samples that agree there add up
    to the sample itself. *)
Theorem crossfade_restores_equal_samples (k : Z) (t1 t2 : tensor)
    (w : world) (c1 c2 : cell) :
  1 <= k -> t1 <> t2 ->
  heap w !! t1 = Some c1 -> heap w !! t2 = Some c2 ->
  k < len (data c1) -> k < len (data c2) ->
  exists w' c1' c2',
    (stt_utils.linear_fade t1 0 k ;; stt_utils.linear_fade t2 k 0) w
    = (Ret tt, w')
    /\ heap w' !! t1 = Some c1' /\ heap w' !! t2 = Some c2'
    /\ forall (p : nat) (x1 x2 : Q), (p < Z.to_nat k)%nat ->
         data c1 !! (length (data c1) - Z.to_nat k + p)%nat = Some x1 ->
         data c2 !! p = Some x2 ->
         exists y1 y2,
           data c1' !! (length (data c1) - Z.to_nat k + p)%nat = Some y1
           /\ data c2' !! p = Some y2
           /\ (fade_out_gain k (len (data c1))
                 (Z.of_nat (length (data c1) - Z.to_nat k + p))
               + fade_in_gain k (Z.of_nat p) == 1)%Q
           /\ ((x1 == x2)%Q -> (y1 + y2 == x1)%Q).
Proof.
  intros Hk Hne H1 H2 Hl1 Hl2.
  pose proof (lookup_lt_Some _ _ _ H1) as Ht1.
  pose proof (lookup_lt_Some _ _ _ H2) as Ht2.
  assert (Hf1 : fade_fits k (len (data c1)) = true)
    by (unfold fade_fits; apply orb_true_iff; right; apply Z.leb_le; lia).
  assert (Hf2 : fade_fits k (len (data c2)) = true)
    by (unfold fade_fits; apply orb_true_iff; right; apply Z.leb_le; lia).
  destruct (fade_out_gains t1 k c1 w H1 Hf1) as (d1 & Hout & _ & Hd1).
  set (w1 := set_heap w _) in Hout.
  assert (H2' : heap w1 !! t2 = Some c2).
  { unfold w1, set_heap. cbn [heap].
    rewrite list_lookup_insert_ne by exact Hne. exact H2. }
  destruct (fade_in_gains t2 k c2 w1 H2' Hf2) as (d2 & Hin & _ & Hd2).
  set (w2 := set_heap w1 _) in Hin.
  exists w2, (Cell d1 (dt c1) (dev c1)), (Cell d2 (dt c2) (dev c2)).
  split; [| split; [| split]].
  - rewrite (bind_ret _ _ _ _ _ Hout). exact Hin.
  - unfold w2, w1, set_heap. cbn [heap].
    rewrite list_lookup_insert_ne by congruence.
    apply list_lookup_insert_eq. exact Ht1.
  - unfold w2, w1, set_heap. cbn [heap].
    apply list_lookup_insert_eq. rewrite length_insert. exact Ht2.
  - intros p x1 x2 Hp Hx1 Hx2. cbn [data].
    destruct (Hd1 _ _ Hx1) as (y1 & Hy1 & Hq1).
    destruct (Hd2 _ _ Hx2) as (y2 & Hy2 & Hq2).
    exists y1, y2. split; [exact Hy1 |]. split; [exact Hy2 |].
    assert (Hsum : (fade_out_gain k (len (data c1))
                      (Z.of_nat (length (data c1) - Z.to_nat k + p))
                    + fade_in_gain k (Z.of_nat p) == 1)%Q).
    { unfold fade_out_gain, fade_in_gain, len in *.
      destruct (Z.ltb_spec 0 k); [| lia]. cbn [andb].
      destruct (Z.leb_spec (Z.of_nat (length (data c1)) - k - 1)
                  (Z.of_nat (length (data c1) - Z.to_nat k + p))); [| lia].
      destruct (Z.leb_spec (Z.of_nat p) k); [| lia].
      replace (Z.of_nat (length (data c1))
               - Z.of_nat (length (data c1) - Z.to_nat k + p))
        with (k + 1 - (Z.of_nat p + 1)) by lia.
      assert (Hb : ~ (inject_Z (k + 1) == 0)%Q)
        by (unfold Qeq; cbn [Qnum Qden inject_Z]; lia).
      assert (Hs : (inject_Z (k + 1 - (Z.of_nat p + 1))
                    == inject_Z (k + 1) - inject_Z (Z.of_nat p + 1))%Q)
        by (unfold Zminus; rewrite inject_Z_plus, inject_Z_opp; reflexivity).
      rewrite Hs. revert Hb.
      generalize (inject_Z (Z.of_nat p + 1)), (inject_Z (k + 1)).
      intros a b Hb. field. exact Hb. }
    split; [exact Hsum |].
    intros Hx. rewrite Hq1, Hq2, <- Hx, <- Qmult_plus_distr_r, Hsum.
    apply Qmult_1_r.
Qed.

Lemma crossfade_restores_equal_samples_witness :
  exists w' c1' c2',
    (stt_utils.linear_fade 0%nat 0 2 ;; stt_utils.linear_fade 1%nat 2 0)
      (World [Cell [3; 5; 7]%Q float32 cpu; Cell [5; 7; 9]%Q float32 cpu]
             [] None 0 [])
    = (Ret tt, w')
    /\ heap w' !! 0%nat = Some c1' /\ heap w' !! 1%nat = Some c2'
    /\ forall (p : nat) (x1 x2 : Q), (p < Z.to_nat 2)%nat ->
         [3; 5; 7]%Q !! (3 - Z.to_nat 2 + p)%nat = Some x1 ->
         [5; 7; 9]%Q !! p = Some x2 ->
         exists y1 y2,
           data c1' !! (3 - Z.to_nat 2 + p)%nat = Some y1
           /\ data c2' !! p = Some y2
           /\ (fade_out_gain 2 3 (Z.of_nat (3 - Z.to_nat 2 + p))
               + fade_in_gain 2 (Z.of_nat p) == 1)%Q
           /\ ((x1 == x2)%Q -> (y1 + y2 == x1)%Q).
Proof.
  apply (crossfade_restores_equal_samples 2 0%nat 1%nat
           (World [Cell [3; 5; 7]%Q float32 cpu; Cell [5; 7; 9]%Q float32 cpu]
                  [] None 0 [])
           (Cell [3; 5; 7]%Q float32 cpu) (Cell [5; 7; 9]%Q float32 cpu));
    try reflexivity; try lia.
Defined.

(* ================================================================== *)
(** * More on the windower                                             *)
(* ================================================================== *)

Lemma device_eqb_eq (a b : device) : device_eqb a b = true -> a = b.
Proof. destruct a, b; simpl; congruence. Qed.

Lemma to_cases (t : tensor) (d : device) (c : cell) (w : world) :
  heap w !! t = Some c ->
  exists t' cells,
    to_ t d w = (Ret t', extend w cells)
    /\ (t <= t')%nat /\ (length cells <= 1)%nat
    /\ (dev c = d -> cells = [])
    /\ heap (extend w cells) !! t' = Some (Cell (data c) (dt c) d).
Proof.
  intros Ht. unfold to_. rewrite (bind_ret _ _ _ _ _ (deref_ok t c w Ht)).
  destruct (device_eqb (dev c) d) eqn:Hd.
  - exists t, []. rewrite extend_nil.
    split; [reflexivity |]. split; [lia |]. split; [simpl; lia |].
    split; [reflexivity |].
    rewrite Ht. apply device_eqb_eq in Hd. subst d.
    destruct c; reflexivity.
  - exists (length (heap w)), [Cell (data c) (dt c) d].
    split; [reflexivity |].
    pose proof (lookup_lt_Some _ _ _ Ht).
    split; [lia |]. split; [simpl; lia |]. split.
    + intros He. rewrite He in Hd. destruct d; discriminate.
    + unfold extend, set_heap. cbn [heap]. rewrite lookup_app_r by lia.
      rewrite Nat.sub_diag. reflexivity.
Qed.

(** A run of [windowed_run] on a valid input: the batch is allocated once,
    as one or two tensors, and the loop then takes one step per start. *)
Lemma windowed_run_steps {O C} (model : tensor -> M O)
    (chunk_hook : O -> M C) (tnsr : tensor) (max_winsize : Z)
    (overlap_ratio : Q) (device : device) (w : world) (ct : cell) :
  well_behaved model chunk_hook ->
  heap w !! tnsr = Some ct ->
  1 <= len (data ct) -> 1 <= max_winsize ->
  (0 <= overlap_ratio)%Q -> (overlap_ratio < 1)%Q ->
  is_float overlap_ratio ->
  winsize_of max_winsize (len (data ct)) <= 2 ^ 53 ->
  let n := len (data ct) in
  let winsize := winsize_of max_winsize n in
  let overlap := overlap_of overlap_ratio winsize in
  let stride := stride_of max_winsize overlap_ratio n in
  exists chunks w' pre batch cb,
    stt_utils.windowed_run model tnsr max_winsize overlap_ratio device
      chunk_hook w
    = (Ret (chunks, range_items 0 n stride, winsize, overlap), w')
    /\ window_steps model chunk_hook (data ct) winsize batch (extend w pre)
         (range_items 0 n stride) chunks w'
    /\ (1 <= length pre <= 2)%nat
    /\ (dev ct = device -> length pre = 1%nat)
    /\ (length (heap w) <= batch)%nat
    /\ heap (extend w pre) !! batch = Some cb
    /\ dt cb = dt ct /\ dev cb = device.
Proof.
  intros Hwb Ht Hn Hmax Hr0 Hr1 Hfl Hfit n winsize overlap stride.
  assert (Hws : 1 <= winsize <= n) by (unfold winsize, winsize_of; lia).
  pose proof (overlap_bounds overlap_ratio winsize Hfl Hr0 Hr1
                (conj (proj1 Hws) Hfit)) as Hov.
  fold overlap in Hov.
  assert (Hst : 1 <= stride <= winsize).
  { unfold stride, stride_of. fold n winsize overlap. lia. }
  assert (Htl : (tnsr < length (heap w))%nat)
    by (eapply lookup_lt_Some; eauto).
  set (zc := Cell (replicate (length (slice (data ct) None (Some winsize)))
                             0%Q) (dt ct) (dev ct)).
  assert (Hz : heap (extend w [zc]) !! length (heap w) = Some zc).
  { unfold extend, set_heap. cbn [heap]. rewrite lookup_app_r by lia.
    rewrite Nat.sub_diag. reflexivity. }
  destruct (to_cases (length (heap w)) device zc (extend w [zc]) Hz)
    as (batch & cells & Hto & Hge & Hcells & Hsame & Hb).
  rewrite extend_extend in Hto, Hb.
  set (pre := [zc] ++ cells) in *.
  set (cb := Cell (data zc) (dt zc) device) in *.
  assert (Hcbl : length (data cb) = Z.to_nat winsize).
  { unfold cb, zc. cbn [data]. rewrite length_replicate.
    rewrite slice_prefix by lia. rewrite length_take. unfold n, len in Hws.
    lia. }
  assert (Ht' : heap (extend w pre) !! tnsr = Some ct).
  { unfold extend, set_heap. cbn [heap]. apply lookup_app_l_Some. exact Ht. }
  destruct (window_loop model chunk_hook tnsr batch winsize ct
              (enumerate (range_items 0 n stride) 1) Hwb
              ltac:(lia) ltac:(lia)
              ltac:(rewrite enumerate_snd; apply range_items_nonneg; lia)
              [] (extend w pre) cb Ht' Hb Hcbl)
    as (chunks & w' & Hloop & Hsteps).
  rewrite enumerate_snd in Hsteps. rewrite app_nil_l in Hloop.
  exists chunks, w', pre, batch, cb.
  split; [| split; [exact Hsteps | split; [| split; [| split; [exact Hge |
    split; [exact Hb | split; reflexivity]]]]]].
  - unfold stt_utils.windowed_run.
    rewrite (bind_ret _ _ _ _ _ (tlen_ok tnsr ct w Ht)).
    fold n. fold (winsize_of max_winsize n). fold winsize.
    rewrite overlap_computed
      by (apply overlap_finite;
          [assumption .. | split; [lia | exact Hfit]]).
    fold overlap.
    rewrite (bind_ret _ _ _ _ _ (zeros_like_ok tnsr None _ ct w Ht)).
    fold zc.
    rewrite (bind_ret _ _ _ _ _ Hto).
    change (winsize - overlap) with stride.
    assert (Hrange : range3 0 n stride (extend w pre)
                     = (Ret (range_items 0 n stride), extend w pre)).
    { unfold range3. destruct (Z.eqb_spec stride 0); [lia | reflexivity]. }
    rewrite (bind_ret _ _ _ _ _ Hrange).
    rewrite (bind_ret _ _ _ _ _ Hloop). reflexivity.
  - unfold pre. rewrite length_app. simpl. lia.
  - intros Hdev. unfold pre. rewrite (Hsame Hdev). reflexivity.
Qed.

Lemma app_same {A} (h cells : list A) : h = h ++ cells -> cells = [].
Proof.
  intros H. rewrite <- (app_nil_r h) in H at 1.
  apply app_inv_head in H. congruence.
Qed.

Lemma steps_value {O} (f : list Q -> O) (signal : list Q) (winsize : Z)
    (batch : tensor) (w w' : world) (begs : list Z) (chunks : list O) :
  window_steps (value_model f) ret signal winsize batch w begs chunks w' ->
  exists bs,
    calls w' = calls w ++ bs
    /\ Forall2 (fun b beg => is_padded_window signal winsize beg b) bs begs
    /\ chunks = map f bs
    /\ length (heap w') = length (heap w).
Proof.
  induction 1 as [w | w w' cb b o ch cells cells' beg begs chunks
                      Hb Hpad Hmodel Hhook Hsteps IH].
  - exists []. rewrite app_nil_r. repeat split. constructor.
  - pose proof (lookup_lt_Some _ _ _ Hb) as Hlt.
    assert (Hcell : heap (refilled w batch cb b) !! batch
                    = Some (Cell b (dt cb) (dev cb)))
      by (unfold refilled; cbn [heap]; apply list_lookup_insert_eq; exact Hlt).
    unfold value_model in Hmodel.
    rewrite (bind_ret _ _ _ _ _ (deref_ok _ _ _ Hcell)) in Hmodel.
    unfold ret in Hmodel, Hhook. cbn [data] in Hmodel.
    injection Hmodel as Ho Hw1. apply app_same in Hw1. subst cells o.
    rewrite extend_nil in Hhook.
    injection Hhook as Hch Hw2. apply app_same in Hw2. subst cells' ch.
    rewrite !extend_nil in *.
    destruct IH as (bs & Hcalls & Hall & Hchunks & Hlen).
    exists (b :: bs). split; [| split; [| split]].
    + rewrite Hcalls. unfold refilled. cbn [calls].
      rewrite <- app_assoc. reflexivity.
    + constructor; assumption.
    + rewrite Hchunks. reflexivity.
    + rewrite Hlen. unfold refilled. cbn [heap]. apply length_insert.
Qed.

(** For a model that is a function [f] of the samples it is given,
    a valid run of [windowed_run] returns [f] of each window's buffer, in
    the order of the start offsets [range(0, n, stride)]: one model call
    and one chunk per window, the buffer being the window's (finite)
    samples padded with zeros to [winsize]. *)
Theorem windower_applies_model_to_each_window {O} (f : list Q -> O)
    (tnsr : tensor) (max_winsize : Z) (overlap_ratio : Q) (device : device)
    (w : world) (ct : cell) :
  heap w !! tnsr = Some ct ->
  1 <= len (data ct) -> 1 <= max_winsize ->
  (0 <= overlap_ratio)%Q -> (overlap_ratio < 1)%Q ->
  is_float overlap_ratio ->
  winsize_of max_winsize (len (data ct)) <= 2 ^ 53 ->
  let n := len (data ct) in
  let winsize := winsize_of max_winsize n in
  let begs := range_items 0 n (stride_of max_winsize overlap_ratio n) in
  exists bs w',
    stt_utils.windowed_run (value_model f) tnsr max_winsize overlap_ratio
      device ret w
    = (Ret (map f bs, begs, winsize, overlap_of overlap_ratio winsize), w')
    /\ Forall2 (fun b beg => is_padded_window (data ct) winsize beg b)
               bs begs
    /\ calls w' = calls w ++ bs.
Proof.
  intros Ht Hn Hmax Hr0 Hr1 Hfl Hfit n winsize begs.
  destruct (windowed_run_steps (value_model f) ret tnsr max_winsize
              overlap_ratio device w ct (value_model_well_behaved f)
              Ht Hn Hmax Hr0 Hr1 Hfl Hfit)
    as (chunks & w' & pre & batch & cb & Hrun & Hsteps & _).
  destruct (steps_value f _ _ _ _ _ _ _ Hsteps)
    as (bs & Hcalls & Hall & Hchunks & _).
  exists bs, w'. subst chunks.
  split; [exact Hrun |]. split; [exact Hall | exact Hcalls].
Qed.

Lemma windower_applies_model_to_each_window_witness :
  exists bs w',
    stt_utils.windowed_run (value_model (fun v : list Q => length v)) 0%nat
      2 0 cpu ret (signal_world [1; 2; 3]%Q)
    = (Ret (map (fun v : list Q => length v) bs, [0; 2], 2, 0), w')
    /\ Forall2 (fun b beg => is_padded_window [1; 2; 3]%Q 2 beg b)
               bs [0; 2]
    /\ calls w' = [] ++ bs.
Proof.
  apply (windower_applies_model_to_each_window
           (fun v : list Q => length v) 0%nat 2 0 cpu
           (signal_world [1; 2; 3]%Q) (Cell [1; 2; 3]%Q float32 cpu));
    try reflexivity; try (vm_compute; lia); try discriminate.
Defined.

(** [windowed_run] reuses one batch buffer: for a model that allocates
    nothing, a run allocates one or two tensors (the buffer and, when the
    device differs, its copy there) whatever the number of windows, and
    every tensor that existed before the run, the signal included, is left
    as it was. *)
Theorem windower_reuses_one_buffer {O} (f : list Q -> O)
    (tnsr : tensor) (max_winsize : Z) (overlap_ratio : Q) (device : device)
    (w : world) (ct : cell) :
  heap w !! tnsr = Some ct ->
  1 <= len (data ct) -> 1 <= max_winsize ->
  (0 <= overlap_ratio)%Q -> (overlap_ratio < 1)%Q ->
  is_float overlap_ratio ->
  winsize_of max_winsize (len (data ct)) <= 2 ^ 53 ->
  exists out w',
    stt_utils.windowed_run (value_model f) tnsr max_winsize overlap_ratio
      device ret w = (Ret out, w')
    /\ (length (heap w) + 1 <= length (heap w') <= length (heap w) + 2)%nat
    /\ (dev ct = device -> length (heap w') = S (length (heap w)))
    /\ forall i c, heap w !! i = Some c -> heap w' !! i = Some c.
Proof.
  intros Ht Hn Hmax Hr0 Hr1 Hfl Hfit.
  destruct (windowed_run_steps (value_model f) ret tnsr max_winsize
              overlap_ratio device w ct (value_model_well_behaved f)
              Ht Hn Hmax Hr0 Hr1 Hfl Hfit)
    as (chunks & w' & pre & batch & cb & Hrun & Hsteps & Hpre & Hone & Hge
        & Hb & _).
  destruct (steps_value f _ _ _ _ _ _ _ Hsteps) as (bs & _ & _ & _ & Hlen).
  eexists _, w'. split; [exact Hrun |].
  assert (Hlen' : length (heap w') = (length (heap w) + length pre)%nat).
  { rewrite Hlen. unfold extend, set_heap. cbn [heap]. apply length_app. }
  split; [lia |]. split.
  - intros Hdev. rewrite Hlen', (Hone Hdev). lia.
  - intros i c Hi. pose proof (lookup_lt_Some _ _ _ Hi) as Hlt.
    eapply (steps_persist _ _ _ _ _ _ _ _ _ Hsteps); [lia |].
    unfold extend, set_heap. cbn [heap]. apply lookup_app_l_Some. exact Hi.
Qed.

Lemma windower_reuses_one_buffer_witness :
  exists out w',
    stt_utils.windowed_run (value_model (fun v : list Q => length v)) 0%nat
      2 0 cuda ret (signal_world [1; 2; 3]%Q) = (Ret out, w')
    /\ (length (heap (signal_world [1; 2; 3]%Q)) + 1 <= length (heap w')
        <= length (heap (signal_world [1; 2; 3]%Q)) + 2)%nat
    /\ (cpu = cuda -> length (heap w')
                      = S (length (heap (signal_world [1; 2; 3]%Q))))
    /\ forall i c, heap (signal_world [1; 2; 3]%Q) !! i = Some c ->
                   heap w' !! i = Some c.
Proof.
  apply (windower_reuses_one_buffer (fun v : list Q => length v) 0%nat
           2 0 cuda (signal_world [1; 2; 3]%Q) (Cell [1; 2; 3]%Q float32 cpu));
    try reflexivity; try (vm_compute; lia); try discriminate.
Defined.

(* ================================================================== *)
(** * The worker without an abort                                      *)
(* ================================================================== *)

Lemma with_worker_id (w : world) :
  with_worker w (abort_at w) (polls w) (progress w) = w.
Proof. destruct w; reflexivity. Qed.

Lemma oblivious_ret {A} (a : A) : oblivious (ret a).
Proof. intros w a' p g. reflexivity. Qed.

Lemma oblivious_raise {A} (e : exn) : oblivious (@raise A e).
Proof. intros w a' p g. reflexivity. Qed.

Lemma oblivious_bind {A B} (m : M A) (k : A -> M B) :
  oblivious m -> (forall x, oblivious (k x)) -> oblivious (bind m k).
Proof.
  intros Hm Hk w a p g. unfold bind. rewrite Hm.
  destruct (m w) as [[x | e] w1]; cbn [fst snd].
  - apply Hk.
  - reflexivity.
Qed.

Lemma oblivious_deref (t : tensor) : oblivious (deref t).
Proof.
  intros w a p g. unfold deref, with_worker. cbn [heap].
  destruct (heap w !! t); reflexivity.
Qed.

Lemma oblivious_write (t : tensor) (vs : list Q) : oblivious (write t vs).
Proof.
  apply oblivious_bind; [apply oblivious_deref |].
  intros c w a p g. reflexivity.
Qed.

Lemma oblivious_getitem (t : tensor) (lo hi : option Z) :
  oblivious (getitem t lo hi).
Proof.
  apply oblivious_bind; [apply oblivious_deref |].
  intros c. apply oblivious_ret.
Qed.

Lemma oblivious_broadcast (n : nat) (vs : list Q) :
  oblivious (broadcast n vs).
Proof.
  unfold broadcast. destruct (length vs =? n)%nat; [apply oblivious_ret |].
  destruct vs as [|v [|v' vs]];
    first [apply oblivious_ret | apply oblivious_raise].
Qed.

Lemma oblivious_inplace (f : Q -> Q -> Q) (t : tensor) (lo hi : option Z)
    (vs : list Q) :
  oblivious (inplace f t lo hi vs).
Proof.
  apply oblivious_bind; [apply oblivious_deref |].
  intros c. destruct (slice_indices (len (data c)) lo hi) as [a b].
  apply oblivious_bind; [apply oblivious_broadcast |].
  intros vs'. apply oblivious_write.
Qed.

Lemma oblivious_imul_scalar (t : tensor) (q : Q) :
  oblivious (imul_scalar t q).
Proof.
  apply oblivious_bind; [apply oblivious_deref |].
  intros c. apply oblivious_write.
Qed.

Lemma oblivious_call {O} (model : tensor -> M O) (batch : tensor) :
  oblivious (model batch) -> oblivious (call model batch).
Proof.
  intros Hm. apply oblivious_bind; [apply oblivious_deref |].
  intros c. apply oblivious_bind; [| intros _; exact Hm].
  intros w a p g. reflexivity.
Qed.

Lemma oblivious_value_model {O} (f : list Q -> O) (batch : tensor) :
  oblivious (value_model f batch).
Proof.
  apply oblivious_bind; [apply oblivious_deref |].
  intros c. apply oblivious_ret.
Qed.

Lemma oblivious_first_text {E} (ch : list str * E) :
  oblivious (first_text ch).
Proof.
  unfold first_text. destruct (fst ch);
    first [apply oblivious_ret | apply oblivious_raise].
Qed.

Lemma oblivious_window_body {O C} (model : tensor -> M O) (tnsr : tensor)
    (winsize : Z) (batch : tensor) (chunk_hook : O -> M C)
    (chunks : list C) (beg : Z) :
  oblivious (model batch) -> (forall o, oblivious (chunk_hook o)) ->
  oblivious (stt_utils.window_body model tnsr winsize batch chunk_hook
                                   chunks beg).
Proof.
  intros Hm Hh. unfold stt_utils.window_body.
  apply oblivious_bind; [apply oblivious_getitem |]. intros chunk.
  apply oblivious_bind; [apply oblivious_imul_scalar |]. intros _.
  apply oblivious_bind; [apply oblivious_inplace |]. intros _.
  apply oblivious_bind; [apply oblivious_call; exact Hm |]. intros o.
  apply oblivious_bind; [apply Hh |]. intros output.
  apply oblivious_ret.
Qed.

Lemma oblivious_run {A} (m : M A) (w w' : world) (r : outcome A)
    (a : option nat) (p : nat) (g : list Z) :
  oblivious m -> m w = (r, w') ->
  m (with_worker w a p g) = (r, with_worker w' a p g).
Proof. intros Hm Hrun. rewrite Hm, Hrun. reflexivity. Qed.

(** The window loop of the worker, when no abort is seen, against the
    loop of [stt_utils.windowed_run]. *)
Lemma worker_window_loop {O C} (model : tensor -> M O)
    (chunk_hook : O -> M C) (tnsr batch : tensor) (winsize num : Z) :
  oblivious (model batch) -> (forall o, oblivious (chunk_hook o)) ->
  forall (l : list (Z * Z)) (acc acc' : list C) (w w' : world)
         (ab : option nat) (p : nat) (g : list Z),
    foldM (fun chunks '(i, beg) =>
             stt_utils.window_body model tnsr winsize batch chunk_hook
                                   chunks beg) l acc w
    = (Ret acc', w') ->
    match ab with Some a => (p + length l <= a)%nat | None => True end ->
    for_return
      (fun chunks '(i, beg) =>
         aborted <- WavToTextSileroWorker.read_abort ;;
         if aborted : bool then ret (inr tt)
         else
           WavToTextSileroWorker.update_progress
             (WavToTextSileroWorker.percent i num) ;;
           chunks <- stt_utils.window_body model tnsr winsize batch
                                           chunk_hook chunks beg ;;
           ret (inl chunks))
      l acc (with_worker w ab p g)
    = (Ret (inl acc'),
       with_worker w' ab (p + length l)
         (g ++ map (fun ib => WavToTextSileroWorker.percent (fst ib) num) l)).
Proof.
  intros Hm Hh l. induction l as [|[i beg] l IH];
    intros acc acc' w w' ab p g Hrun Hun.
  - injection Hrun as <- <-. cbn [for_return length map].
    rewrite Nat.add_0_r, app_nil_r. reflexivity.
  - cbn [foldM] in Hrun. apply bind_ret_inv in Hrun.
    destruct Hrun as (acc1 & w1 & Hbody & Hrest).
    cbn [for_return]. cbn [length] in Hun.
    assert (Hrd : match ab with
                  | Some k => (k <=? p)%nat
                  | None => false
                  end = false).
    { destruct ab as [a |]; [apply Nat.leb_gt; lia | reflexivity]. }
    pose proof (oblivious_run _ _ _ _ ab (S p)
                  (g ++ [WavToTextSileroWorker.percent i num])
                  (oblivious_window_body model tnsr winsize batch chunk_hook
                     acc beg Hm Hh) Hbody) as Hbody'.
    unfold bind at 1. unfold bind at 1.
    unfold WavToTextSileroWorker.read_abort at 1.
    cbn [abort_at with_worker heap calls polls progress].
    rewrite Hrd.
    unfold bind at 1.
    unfold WavToTextSileroWorker.update_progress at 1.
    cbn [abort_at with_worker heap calls polls progress].
    unfold bind at 1.
    change (World (heap w) (calls w) ab (S p)
                  (g ++ [WavToTextSileroWorker.percent i num]))
      with (with_worker w ab (S p)
              (g ++ [WavToTextSileroWorker.percent i num])).
    rewrite Hbody'. unfold ret at 1.
    rewrite (IH _ _ _ _ ab (S p) _ Hrest)
      by (destruct ab; [lia | exact I]).
    cbn [length map fst]. rewrite <- app_assoc.
    replace (S p + length l)%nat with (p + S (length l))%nat by lia.
    reflexivity.
Qed.

Lemma oblivious_keeps {A} (m : M A) (w w' : world) (r : outcome A) :
  oblivious m -> m w = (r, w') ->
  abort_at w' = abort_at w /\ polls w' = polls w
  /\ progress w' = progress w.
Proof.
  intros Hm Hrun.
  pose proof (Hm w (abort_at w) (polls w) (progress w)) as H.
  rewrite with_worker_id, Hrun in H. cbn [fst snd] in H.
  injection H as H. rewrite H. repeat split.
Qed.

Lemma oblivious_tlen (t : tensor) : oblivious (tlen t).
Proof.
  apply oblivious_bind; [apply oblivious_deref |].
  intros c. apply oblivious_ret.
Qed.

Lemma oblivious_alloc (c : cell) : oblivious (alloc c).
Proof. intros w a p g. reflexivity. Qed.

Lemma oblivious_zeros_like (t : tensor) (lo hi : option Z) :
  oblivious (zeros_like t lo hi).
Proof.
  apply oblivious_bind; [apply oblivious_deref |].
  intros c. apply oblivious_alloc.
Qed.

Lemma oblivious_to (t : tensor) (d : device) : oblivious (to_ t d).
Proof.
  apply oblivious_bind; [apply oblivious_deref |].
  intros c. destruct (device_eqb (dev c) d);
    [apply oblivious_ret | apply oblivious_alloc].
Qed.

Lemma oblivious_range3 (start stop step : Z) :
  oblivious (range3 start stop step).
Proof.
  unfold range3. destruct (step =? 0);
    [apply oblivious_raise | apply oblivious_ret].
Qed.

Lemma int_inject (x : Q) (m : Z) : (x == inject_Z m)%Q -> int x = m.
Proof.
  unfold Qeq, int. cbn [Qnum Qden inject_Z]. intros H.
  rewrite Z.mul_1_r in H. rewrite H. apply Z.quot_mul. discriminate.
Qed.

Lemma percent_bounds (i num : Z) :
  1 <= i <= num -> 0 <= WavToTextSileroWorker.percent i num <= 100.
Proof.
  intros Hi. unfold WavToTextSileroWorker.percent.
  set (q := float_div (inject_Z i) (inject_Z num)).
  assert (Hnum : (0 < inject_Z num)%Q).
  { change 0%Q with (inject_Z 0). rewrite <- Zlt_Qlt. lia. }
  assert (Hq0 : (0 <= inject_Z i / inject_Z num)%Q).
  { apply Qle_shift_div_l; [exact Hnum |]. rewrite Qmult_0_l.
    change 0%Q with (inject_Z 0). rewrite <- Zle_Qle. lia. }
  assert (Hq1 : (inject_Z i / inject_Z num <= inject_Z 1)%Q).
  { apply Qle_shift_div_r; [exact Hnum |]. rewrite Qmult_1_l.
    rewrite <- Zle_Qle. lia. }
  assert (Hq : (0 <= q)%Q /\ (q <= 1)%Q).
  { unfold q, float_div. split; [apply round_float_nonneg; exact Hq0 |].
    apply (round_float_le_int _ 1 Hq0 Hq1). lia. }
  destruct Hq as [Hql Hqu].
  pose proof (float_of_int_exact 100 ltac:(lia)) as H100.
  assert (Hx0 : (0 <= q * float_of_int 100)%Q).
  { rewrite H100. apply Qmult_le_0_compat; [exact Hql | discriminate]. }
  assert (Hx1 : (q * float_of_int 100 <= inject_Z 100)%Q).
  { rewrite H100. rewrite <- (Qmult_1_l (inject_Z 100)) at 2.
    apply Qmult_le_compat_r; [exact Hqu | discriminate]. }
  assert (H : 0 <= int (float_mul q (float_of_int 100)) < 101); [| lia].
  apply int_bounds; unfold float_mul.
  - apply round_float_nonneg. exact Hx0.
  - eapply Qle_lt_trans;
      [apply (round_float_le_int _ 100 Hx0 Hx1); lia | reflexivity].
Qed.

Lemma percent_full (num : Z) :
  1 <= num -> WavToTextSileroWorker.percent num num = 100.
Proof.
  intros Hn. unfold WavToTextSileroWorker.percent. apply int_inject.
  assert (Hnum : ~ (inject_Z num == 0)%Q).
  { intros H. unfold Qeq in H. cbn [Qnum Qden inject_Z] in H. lia. }
  assert (Hq : (float_div (inject_Z num) (inject_Z num) == inject_Z 1)%Q).
  { unfold float_div. apply round_float_int; [| lia].
    change (inject_Z 1) with 1%Q. field. exact Hnum. }
  unfold float_mul. apply round_float_int; [| lia].
  rewrite Hq, float_of_int_exact by lia. reflexivity.
Qed.

Lemma enumerate_bounds {A} (l : list A) (start : Z) :
  Forall (fun ib => start <= fst ib < start + len l) (enumerate l start).
Proof.
  revert start. induction l as [|a l IH]; intros start.
  - constructor.
  - rewrite enumerate_cons. unfold len in *. rewrite length_cons.
    constructor.
    + cbn [fst]. lia.
    + eapply Forall_impl; [apply IH |]. cbv beta. intros ib Hib. lia.
Qed.

(** The progress values of one loop of the worker over [l]: one per
    iteration, each within the range of the progress bar, the last one
    100. *)
Lemma percents_ok {A} (l : list A) :
  let ps := map (fun ib => WavToTextSileroWorker.percent (fst ib) (len l))
                (enumerate l 1) in
  length ps = length l
  /\ Forall (fun v => 0 <= v <= 100) ps
  /\ (l <> [] -> last ps = Some 100).
Proof.
  intros ps. split; [| split].
  - unfold ps. rewrite length_map. apply enumerate_length.
  - unfold ps. apply Forall_map.
    eapply Forall_impl; [apply (enumerate_bounds l 1) |].
    cbv beta. intros ib Hib. apply percent_bounds. lia.
  - intros Hne. unfold ps.
    destruct (exists_last Hne) as (l0 & x & Hl).
    assert (Hn : len l = 1 + len l0)
      by (rewrite Hl; unfold len; rewrite length_app; simpl; lia).
    remember (len l) as n eqn:En. rewrite Hl.
    rewrite enumerate_app, map_app.
    change (enumerate [x] (1 + len l0)) with [(1 + len l0 + 0, x)].
    cbn [map fst]. rewrite last_snoc. f_equal.
    replace (1 + len l0 + 0) with n by lia.
    apply percent_full. unfold len in Hn. lia.
Qed.

Lemma deliver_accepts (ps : list Z) (v : Z) :
  Forall (fun x => 0 <= x <= 100) ps ->
  deliver_progress true v ps = Some (default v (last ps)).
Proof.
  intros Hall. revert v.
  induction Hall as [|x ps Hx Hall IH]; intros v; [reflexivity |].
  unfold deliver_progress. cbn [fold_left].
  assert (Hstep : ProfileDialog.update_progress true v x = Some x).
  { unfold ProfileDialog.update_progress, ProfileDialog.PROGRESS_BAR_RANGE.
    destruct (Z.leb_spec 0 x); [| lia].
    destruct (Z.leb_spec x 100); [| lia]. reflexivity. }
  rewrite Hstep. fold (deliver_progress true x ps). rewrite IH.
  destruct ps as [|z ps]; [reflexivity |].
  change (last (x :: z :: ps)) with (last (z :: ps)).
  destruct (last (z :: ps)) eqn:E; [reflexivity |].
  apply last_None in E. discriminate.
Qed.

(** The worker's [windowed_run] when the abort flag is not seen during
    the call. *)
Lemma worker_windowed_run_refines {O C} (model : tensor -> M O)
    (chunk_hook : O -> M C) (tnsr : tensor) (max_winsize : Z)
    (overlap_ratio : Q) (device : device) (w w' : world)
    (chunks : list C) (begs : list Z) (winsize overlap : Z) :
  (forall batch, oblivious (model batch)) ->
  (forall o, oblivious (chunk_hook o)) ->
  match abort_at w with
  | Some a => (polls w + length begs <= a)%nat
  | None => True
  end ->
  stt_utils.windowed_run model tnsr max_winsize overlap_ratio device
    chunk_hook w = (Ret (chunks, begs, winsize, overlap), w') ->
  exists ps,
    WavToTextSileroWorker.windowed_run model tnsr max_winsize overlap_ratio
      device chunk_hook w
    = (Ret (Some (chunks, begs, winsize, overlap)),
       World (heap w') (calls w') (abort_at w) (polls w + length begs)
             (progress w ++ ps))
    /\ ps = map (fun ib => WavToTextSileroWorker.percent (fst ib) (len begs))
                (enumerate begs 1).
Proof.
  intros Hm Hh Hab Hrun.
  unfold stt_utils.windowed_run in Hrun.
  apply bind_ret_inv in Hrun. destruct Hrun as (n & w1 & Hn & Hrun).
  apply bind_ret_inv in Hrun. destruct Hrun as (pr & wq & Hp & Hrun).
  apply float_times_int_inv in Hp. destruct Hp as [-> Hp].
  apply bind_ret_inv in Hrun. destruct Hrun as (ov & wq & Hi & Hrun).
  apply int_of_float_inv in Hi. destruct Hi as [-> Hi].
  apply bind_ret_inv in Hrun. destruct Hrun as (z & w2 & Hz & Hrun).
  apply bind_ret_inv in Hrun. destruct Hrun as (batch & w3 & Hb & Hrun).
  apply bind_ret_inv in Hrun. destruct Hrun as (wr & w4 & Hr & Hrun).
  apply bind_ret_inv in Hrun. destruct Hrun as (chs & w5 & Hloop & Hrun).
  injection Hrun as <- <- <- <- <-.
  destruct (oblivious_keeps _ _ _ _ (oblivious_tlen _) Hn) as (A1 & P1 & G1).
  destruct (oblivious_keeps _ _ _ _ (oblivious_zeros_like _ _ _) Hz)
    as (A2 & P2 & G2).
  destruct (oblivious_keeps _ _ _ _ (oblivious_to _ _) Hb) as (A3 & P3 & G3).
  destruct (oblivious_keeps _ _ _ _ (oblivious_range3 _ _ _) Hr)
    as (A4 & P4 & G4).
  assert (K : w4 = with_worker w4 (abort_at w) (polls w) (progress w)).
  { rewrite <- (with_worker_id w4) at 1. f_equal; congruence. }
  eexists. split; [| reflexivity].
  unfold WavToTextSileroWorker.windowed_run.
  rewrite (bind_ret _ _ _ _ _ Hn), (bind_ret _ _ _ _ _ (Hp _)),
    (bind_ret _ _ _ _ _ (Hi _)), (bind_ret _ _ _ _ _ Hz),
    (bind_ret _ _ _ _ _ Hb), (bind_ret _ _ _ _ _ Hr).
  rewrite K at 1.
  rewrite (bind_ret _ _ _ _ _
             (worker_window_loop model chunk_hook tnsr batch _ (len wr)
                (Hm batch) Hh _ _ _ _ _ (abort_at w) (polls w) (progress w)
                Hloop
                ltac:(destruct (abort_at w);
                      [rewrite enumerate_length; exact Hab | exact I]))).
  rewrite enumerate_length. reflexivity.
Qed.

(** The worker's copy of [windowed_run] against [stt_utils.windowed_run],
    for a model and a hook that do not touch the worker's state: when the
    abort flag is never set and the function of [stt_utils] returns, the
    worker's returns the same chunks, starts, window size and overlap,
    with the same tensors and model calls. It reads the flag once per
    window and emits one progress value per window, each between 0 and
    100, the last one 100. *)
Theorem worker_windowed_run_agrees {O C} (model : tensor -> M O)
    (chunk_hook : O -> M C) (tnsr : tensor) (max_winsize : Z)
    (overlap_ratio : Q) (device : device) (w w' : world)
    (chunks : list C) (begs : list Z) (winsize overlap : Z) :
  (forall batch, oblivious (model batch)) ->
  (forall o, oblivious (chunk_hook o)) ->
  abort_at w = None ->
  stt_utils.windowed_run model tnsr max_winsize overlap_ratio device
    chunk_hook w = (Ret (chunks, begs, winsize, overlap), w') ->
  exists ps,
    WavToTextSileroWorker.windowed_run model tnsr max_winsize overlap_ratio
      device chunk_hook w
    = (Ret (Some (chunks, begs, winsize, overlap)),
       World (heap w') (calls w') None (polls w + length begs)
             (progress w ++ ps))
    /\ length ps = length begs
    /\ Forall (fun v => 0 <= v <= 100) ps
    /\ (begs <> [] -> last ps = Some 100).
Proof.
  intros Hm Hh Hab Hrun.
  destruct (worker_windowed_run_refines model chunk_hook tnsr max_winsize
              overlap_ratio device w w' chunks begs winsize overlap Hm Hh
              ltac:(rewrite Hab; exact I) Hrun) as (ps & Hworker & Hps).
  rewrite Hab in Hworker. exists ps. split; [exact Hworker |].
  rewrite Hps. apply percents_ok.
Qed.

Lemma worker_windowed_run_agrees_witness :
  exists ps,
    WavToTextSileroWorker.windowed_run two_word_model 0%nat 1 0 cpu
      first_text (signal_world [1; 2]%Q)
    = (Ret (Some ([lit "ab"; lit "bc"], [0; 1], 1, 0)),
       World [Cell [1; 2]%Q float32 cpu; Cell [2%Q] float32 cpu]
             [[1%Q]; [2%Q]] None (0 + length [0; 1]) ([] ++ ps))
    /\ length ps = length [0; 1]
    /\ Forall (fun v => 0 <= v <= 100) ps
    /\ ([0; 1] <> [] -> last ps = Some 100).
Proof.
  apply (worker_windowed_run_agrees two_word_model first_text 0%nat 1 0 cpu
           (signal_world [1; 2]%Q)
           (World [Cell [1; 2]%Q float32 cpu; Cell [2%Q] float32 cpu]
                  [[1%Q]; [2%Q]] None 0 [])
           [lit "ab"; lit "bc"] [0; 1] 1 0).
  - intros batch. apply oblivious_value_model.
  - intros o. apply oblivious_first_text.
  - reflexivity.
  - vm_compute. reflexivity.
Defined.

(** The merge loop of the worker, when no abort is seen. *)
Lemma worker_merge_loop (thresh : Q) (moc : option Z) (num : Z)
    (l : list (Z * str)) :
  forall (locals : str * list Q) (w : world) (ab : option nat) (p : nat)
         (g : list Z),
    match ab with Some a => (p + length l <= a)%nat | None => True end ->
    for_return
      (fun locals '(i, ch) =>
         aborted <- WavToTextSileroWorker.read_abort ;;
         if aborted : bool then ret (inr tt)
         else
           WavToTextSileroWorker.update_progress
             (WavToTextSileroWorker.percent i num) ;;
           ret (inl (stt_utils.merge_body thresh moc locals (i, ch))))
      l locals (with_worker w ab p g)
    = (Ret (inl (fold_left (stt_utils.merge_body thresh moc) l locals)),
       with_worker w ab (p + length l)
         (g ++ map (fun ib => WavToTextSileroWorker.percent (fst ib) num) l)).
Proof.
  induction l as [|[i ch] l IH]; intros locals w ab p g Hun.
  - cbn [for_return length map fold_left].
    rewrite Nat.add_0_r, app_nil_r. reflexivity.
  - cbn [for_return]. cbn [length] in Hun.
    assert (Hrd : match ab with
                  | Some k => (k <=? p)%nat
                  | None => false
                  end = false).
    { destruct ab as [a |]; [apply Nat.leb_gt; lia | reflexivity]. }
    unfold bind at 1. unfold bind at 1.
    unfold WavToTextSileroWorker.read_abort at 1.
    cbn [abort_at with_worker heap calls polls progress].
    rewrite Hrd.
    unfold bind at 1.
    unfold WavToTextSileroWorker.update_progress at 1.
    cbn [abort_at with_worker heap calls polls progress].
    unfold ret at 1.
    change (World (heap w) (calls w) ab (S p)
                  (g ++ [WavToTextSileroWorker.percent i num]))
      with (with_worker w ab (S p)
              (g ++ [WavToTextSileroWorker.percent i num])).
    rewrite IH by (destruct ab; [lia | exact I]).
    cbn [length map fst fold_left].
    rewrite <- app_assoc.
    replace (S p + length l)%nat with (p + S (length l))%nat by lia.
    reflexivity.
Qed.

(** A run of the worker that is never aborted, for a model that does not
    touch the worker's state: when [stt_utils.windowed_stt_rendering]
    returns a transcript for the prepared audio, [run] returns that
    transcript, after the same model calls. The progress values it emits
    are all accepted by the assertion of the dialog's [update_progress],
    and they leave the progress bar at 100. *)
Theorem worker_run_returns_the_transcript {E}
    (stt_model : tensor -> M (list str * E)) (whole_audio : tensor)
    (max_win_secs win_overlap_ratio : Q) (device : device) (w w' : world)
    (merged : str) (scores : list Q) :
  (forall batch, oblivious (stt_model batch)) ->
  abort_at w = None ->
  finite_product max_win_secs WavToTextSileroWorker.EXPECTED_SRATE = true ->
  stt_utils.windowed_stt_rendering stt_model whole_audio
    (max_win_samples_of max_win_secs)
    win_overlap_ratio device WavToTextSileroWorker.OVERLAP_MERGE_THRESHOLD
    (Some WavToTextSileroWorker.MAX_OVERLAP_CHARS) w
  = (Ret (merged, scores), w') ->
  exists ps,
    WavToTextSileroWorker.run stt_model whole_audio max_win_secs
      win_overlap_ratio device w
    = (Ret merged,
       World (heap w') (calls w') None (polls w + 2 * length scores)
             (progress w ++ ps))
    /\ length ps = (2 * length scores)%nat
    /\ forall value,
         deliver_progress true value ps
         = Some (if decide (scores = []) then value else 100).
Proof.
  intros Hm Hab Hfin Hrun.
  unfold stt_utils.windowed_stt_rendering in Hrun.
  apply bind_ret_inv in Hrun.
  destruct Hrun as ([[[chunks begs] winsize] overlap] & w1 & Hwin & Hret).
  injection Hret as Hmerge <-.
  destruct (worker_windowed_run_refines stt_model first_text whole_audio
              _ win_overlap_ratio device w w1 chunks begs winsize overlap
              Hm (fun o => oblivious_first_text o)
              ltac:(rewrite Hab; exact I) Hwin)
    as (ps1 & Hrun1 & Hps1).
  rewrite Hab in Hrun1.
  destruct (percents_ok begs) as (Hlen1 & Hall1 & Hlast1).
  rewrite <- Hps1 in Hlen1, Hall1, Hlast1.
  pose proof (windowed_run_length _ _ _ _ _ _ _ _ _ _ _ _ Hwin) as Hcb.
  pose proof (merge_chunks_length chunks
                WavToTextSileroWorker.OVERLAP_MERGE_THRESHOLD
                (Some WavToTextSileroWorker.MAX_OVERLAP_CHARS)) as Hsc.
  rewrite Hmerge in Hsc. cbn [snd] in Hsc.
  destruct (percents_ok chunks) as (Hlen2 & Hall2 & Hlast2).
  set (ps2 := map (fun ib => WavToTextSileroWorker.percent (fst ib)
                               (len chunks)) (enumerate chunks 1)) in *.
  exists (ps1 ++ ps2). split; [| split].
  - unfold WavToTextSileroWorker.run.
    rewrite overlap_computed by exact Hfin.
    change (overlap_of max_win_secs WavToTextSileroWorker.EXPECTED_SRATE)
      with (max_win_samples_of max_win_secs).
    unfold WavToTextSileroWorker.windowed_stt_rendering.
    unfold bind at 1. unfold bind at 1. rewrite Hrun1.
    unfold bind at 1. unfold unpack at 1. unfold ret at 1.
    change (World (heap w1) (calls w1) None (polls w + length begs)
                  (progress w ++ ps1))
      with (with_worker w1 None (polls w + length begs) (progress w ++ ps1)).
    unfold bind at 1. rewrite worker_merge_loop by exact I.
    unfold stt_utils.merge_chunks in Hmerge. rewrite Hmerge.
    unfold ret at 1. unfold unpack, ret.
    rewrite enumerate_length, <- app_assoc. fold ps2. unfold with_worker.
    unfold bind.
    replace (polls w + length begs + length chunks)%nat
      with (polls w + 2 * length scores)%nat by lia.
    reflexivity.
  - rewrite length_app, Hlen1, Hlen2. lia.
  - intros value. rewrite deliver_accepts
      by (apply Forall_app; split; assumption).
    f_equal. destruct (decide (scores = [])) as [-> | Hne].
    + destruct chunks; [| discriminate]. destruct begs; [| discriminate].
      destruct ps1; [| discriminate]. reflexivity.
    + rewrite last_app, Hlast2; [reflexivity |].
      intros ->. apply Hne. destruct scores; [reflexivity | discriminate].
Qed.

Lemma worker_run_returns_the_transcript_witness :
  exists ps,
    WavToTextSileroWorker.run two_word_model 0%nat (1 # 8192) 0 cpu
      (signal_world [1; 2]%Q)
    = (Ret (lit "abc"),
       World [Cell [1; 2]%Q float32 cpu; Cell [2%Q] float32 cpu]
             [[1%Q]; [2%Q]] None (0 + 2 * length [1%Q; 2 # 2]) ([] ++ ps))
    /\ length ps = (2 * length [1%Q; 2 # 2])%nat
    /\ forall value,
         deliver_progress true value ps
         = Some (if decide ([1%Q; 2 # 2] = []) then value else 100).
Proof.
  apply (worker_run_returns_the_transcript two_word_model 0%nat (1 # 8192)
           0 cpu (signal_world [1; 2]%Q)
           (World [Cell [1; 2]%Q float32 cpu; Cell [2%Q] float32 cpu]
                  [[1%Q]; [2%Q]] None 0 [])
           (lit "abc") [1%Q; 2 # 2]).
  - intros batch. apply oblivious_value_model.
  - reflexivity.
  - vm_compute. reflexivity.
  - vm_compute. reflexivity.
Defined.

(* ================================================================== *)
(** * The lines of the result dialog                                   *)
(* ================================================================== *)

Lemma range_items_eq (n step : Z) :
  0 < step ->
  range_items 0 n step
  = map (fun k => Z.of_nat k * step)
        (seq 0 (Z.to_nat ((n + step - 1) / step))).
Proof.
  intros Hs. unfold range_items. rewrite range_len_pos by exact Hs.
  replace (Z.to_nat (Z.max 0 ((n + step - 1) / step)))
    with (Z.to_nat ((n + step - 1) / step)) by lia.
  apply map_ext. intros k. lia.
Qed.

Lemma slice_window {A} (l : list A) (i s : Z) :
  0 <= i -> 0 <= s ->
  slice l (Some i) (Some (i + s)) = take (Z.to_nat s) (drop (Z.to_nat i) l).
Proof.
  intros Hi Hs. rewrite slice_between by lia. unfold len.
  destruct (Z_le_gt_dec i (Z.of_nat (length l))) as [Hle | Hgt].
  - rewrite (Z.min_l i) by lia.
    destruct (Z_le_gt_dec (i + s) (Z.of_nat (length l))) as [Hle' | Hgt'].
    + rewrite Z.min_l by lia. f_equal. lia.
    + rewrite Z.min_r by lia.
      rewrite !take_ge by (rewrite length_drop; lia). reflexivity.
  - rewrite !Z.min_r by lia. rewrite !drop_ge by lia.
    rewrite !take_nil. reflexivity.
Qed.

Lemma pieces_concat {A} (l : list A) (s : nat) (m j : nat) :
  concat (map (fun k => take s (drop (k * s) l)) (seq j m))
  = take (m * s) (drop (j * s) l).
Proof.
  revert j. induction m as [|m IH]; intros j.
  - reflexivity.
  - cbn [seq map concat]. rewrite IH.
    replace (S j * s)%nat with (j * s + s)%nat by lia.
    rewrite <- drop_drop, take_take_drop. reflexivity.
Qed.

Lemma str_join_length (sep : str) (ls : list str) :
  length (str_join sep ls)
  = (length (concat ls) + length sep * (length ls - 1))%nat.
Proof.
  destruct ls as [|x rest]; [simpl; lia |].
  cbn [str_join concat length]. rewrite !length_app.
  replace (S (length rest) - 1)%nat with (length rest) by lia.
  induction rest as [|y rest IH]; [simpl; lia |].
  cbn [flat_map concat length]. rewrite !length_app. lia.
Qed.

(** The label text of the newlined dialog: [result] is cut into
    consecutive pieces that put together give [result] again, no
    character lost or moved; there are [ceil(len(result) / 100)] of them,
    none empty and none longer than 100 characters, and the text has one
    separating line break between two pieces, none at its end. *)
Theorem newlined_result_keeps_the_text (result : str) :
  let ls := NewlinedProfileDialog.lines result in
  NewlinedProfileDialog.setup_result_layout result = str_join ["010"%char] ls
  /\ concat ls = result
  /\ Forall (fun l => (1 <= length l <= 100)%nat) ls
  /\ Z.of_nat (length ls) = (len result + 99) / 100
  /\ length (NewlinedProfileDialog.setup_result_layout result)
     = (length result + (length ls - 1))%nat.
Proof.
  intros ls.
  assert (Hls : ls = map (fun k => take 100 (drop (k * 100) result))
                         (seq 0 (Z.to_nat ((len result + 99) / 100)))).
  { unfold ls, NewlinedProfileDialog.lines,
      NewlinedProfileDialog.MAX_CHARS_PER_LINE.
    rewrite range_items_eq by lia. rewrite map_map.
    replace (len result + 100 - 1) with (len result + 99) by lia.
    apply map_ext. intros k. rewrite slice_window by lia.
    f_equal. f_equal. lia. }
  assert (Hm : 0 <= (len result + 99) / 100)
    by (apply Z.div_pos; unfold len; lia).
  assert (Hcat : concat ls = result).
  { rewrite Hls, pieces_concat. rewrite drop_0. apply take_ge.
    pose proof (Z.mul_div_le (len result + 99) 100 ltac:(lia)).
    pose proof (Z.mod_pos_bound (len result + 99) 100 ltac:(lia)).
    pose proof (Z.div_mod (len result + 99) 100 ltac:(lia)).
    unfold len in *. lia. }
  split; [reflexivity |]. split; [exact Hcat |]. split; [| split].
  - rewrite Hls. apply Forall_map. apply Forall_forall. intros k Hk.
    apply elem_of_seq in Hk. cbv beta. unfold compose.
    rewrite length_take, length_drop.
    pose proof (Z.div_mod (len result + 99) 100 ltac:(lia)).
    pose proof (Z.mod_pos_bound (len result + 99) 100 ltac:(lia)).
    unfold len in *. lia.
  - rewrite Hls, length_map, length_seq. lia.
  - unfold NewlinedProfileDialog.setup_result_layout. fold ls.
    rewrite str_join_length, Hcat. simpl. lia.
Qed.

(* ================================================================== *)
(** * The stitched signal of a sample-wise model                       *)
(* ================================================================== *)
















(* ================================================================== *)
(** * The worker with an abort                                         *)
(* ================================================================== *)

(** The window loop of the worker when the flag is seen at the read that
    follows the windows of [l1]. *)
Lemma worker_window_loop_abort {O C} (model : tensor -> M O)
    (chunk_hook : O -> M C) (tnsr batch : tensor) (winsize num : Z)
    (a : nat) :
  oblivious (model batch) -> (forall o, oblivious (chunk_hook o)) ->
  forall (l1 : list (Z * Z)) (x : Z * Z) (l2 : list (Z * Z))
         (acc acc1 : list C) (w w1 : world) (p : nat) (g : list Z),
    foldM (fun chunks '(i, beg) =>
             stt_utils.window_body model tnsr winsize batch chunk_hook
                                   chunks beg) l1 acc w
    = (Ret acc1, w1) ->
    length l1 = (a - p)%nat ->
    for_return
      (fun chunks '(i, beg) =>
         aborted <- WavToTextSileroWorker.read_abort ;;
         if aborted : bool then ret (inr tt)
         else
           WavToTextSileroWorker.update_progress
             (WavToTextSileroWorker.percent i num) ;;
           chunks <- stt_utils.window_body model tnsr winsize batch
                                           chunk_hook chunks beg ;;
           ret (inl chunks))
      (l1 ++ x :: l2) acc (with_worker w (Some a) p g)
    = (Ret (inr tt),
       with_worker w1 (Some a) (S (p + length l1))
         (g ++ map (fun ib => WavToTextSileroWorker.percent (fst ib) num)
                   l1)).
Proof.
  intros Hm Hh l1. induction l1 as [|[i beg] l1 IH];
    intros x l2 acc acc1 w w1 p g Hrun Hlen.
  - injection Hrun as <- <-. cbn [length] in Hlen.
    cbn [app for_return map length]. destruct x as [i beg].
    unfold bind at 1. unfold bind at 1.
    unfold WavToTextSileroWorker.read_abort at 1.
    cbn [abort_at with_worker heap calls polls progress].
    assert (Hle : (a <=? p)%nat = true) by (apply Nat.leb_le; lia).
    rewrite Hle. unfold ret. rewrite Nat.add_0_r, app_nil_r. reflexivity.
  - cbn [foldM] in Hrun. apply bind_ret_inv in Hrun.
    destruct Hrun as (acc0 & w0 & Hbody & Hrest).
    cbn [length] in Hlen.
    rewrite <- app_comm_cons. cbn [for_return].
    pose proof (oblivious_run _ _ _ _ (Some a) (S p)
                  (g ++ [WavToTextSileroWorker.percent i num])
                  (oblivious_window_body model tnsr winsize batch chunk_hook
                     acc beg Hm Hh) Hbody) as Hbody'.
    unfold bind at 1. unfold bind at 1.
    unfold WavToTextSileroWorker.read_abort at 1.
    cbn [abort_at with_worker heap calls polls progress].
    assert (Hle : (a <=? p)%nat = false) by (apply Nat.leb_gt; lia).
    rewrite Hle.
    unfold bind at 1.
    unfold WavToTextSileroWorker.update_progress at 1.
    cbn [abort_at with_worker heap calls polls progress].
    unfold bind at 1.
    change (World (heap w) (calls w) (Some a) (S p)
                  (g ++ [WavToTextSileroWorker.percent i num]))
      with (with_worker w (Some a) (S p)
              (g ++ [WavToTextSileroWorker.percent i num])).
    rewrite Hbody'. unfold ret at 1.
    rewrite (IH x l2 _ _ _ _ (S p) _ Hrest) by lia.
    cbn [length map fst]. rewrite <- app_assoc.
    replace (S p + length l1)%nat with (p + S (length l1))%nat by lia.
    reflexivity.
Qed.

Lemma enumerate_take {A} (l : list A) (start : Z) (j : nat) :
  take j (enumerate l start) = enumerate (take j l) start.
Proof.
  revert start j. induction l as [|a l IH]; intros start j.
  - destruct j; reflexivity.
  - destruct j as [|j]; [reflexivity |].
    rewrite enumerate_cons. cbn [take]. rewrite enumerate_cons, IH.
    reflexivity.
Qed.

(** The worker's [windowed_run] when the flag is seen in its loop. *)
Lemma worker_windows_aborted {E} (model : tensor -> M (list str * E))
    (tnsr : tensor) (max_winsize : Z) (overlap_ratio : Q) (device : device)
    (w : world) (ct : cell) (a : nat) :
  well_behaved model first_text ->
  (forall batch, oblivious (model batch)) ->
  heap w !! tnsr = Some ct ->
  1 <= len (data ct) -> 1 <= max_winsize ->
  (0 <= overlap_ratio)%Q -> (overlap_ratio < 1)%Q ->
  is_float overlap_ratio ->
  winsize_of max_winsize (len (data ct)) <= 2 ^ 53 ->
  abort_at w = Some a ->
  (a - polls w
   < length (range_items 0 (len (data ct))
               (stride_of max_winsize overlap_ratio (len (data ct)))))%nat ->
  exists w' bs,
    WavToTextSileroWorker.windowed_run model tnsr max_winsize overlap_ratio
      device first_text w = (Ret None, w')
    /\ calls w' = calls w ++ bs
    /\ length bs = (a - polls w)%nat
    /\ polls w' = S (polls w + (a - polls w))
    /\ length (progress w') = (length (progress w) + (a - polls w))%nat.
Proof.
  intros Hwb Hm Ht Hn Hmax Hr0 Hr1 Hfl Hfit Hab Hj.
  set (n := len (data ct)) in *.
  set (winsize := winsize_of max_winsize n).
  set (overlap := overlap_of overlap_ratio winsize).
  set (stride := stride_of max_winsize overlap_ratio n) in *.
  set (j := (a - polls w)%nat) in *.
  assert (Hws : 1 <= winsize <= n) by (unfold winsize, winsize_of; lia).
  pose proof (overlap_bounds overlap_ratio winsize Hfl Hr0 Hr1
                (conj (proj1 Hws) Hfit)) as Hov.
  fold overlap in Hov.
  assert (Hstr : stride = winsize - overlap) by reflexivity.
  pose proof (lookup_lt_Some _ _ _ Ht) as Htl.
  set (zc := Cell (replicate (length (slice (data ct) None (Some winsize)))
                             0%Q) (dt ct) (dev ct)).
  assert (Hz : heap (extend w [zc]) !! length (heap w) = Some zc).
  { unfold extend, set_heap. cbn [heap]. rewrite lookup_app_r by lia.
    rewrite Nat.sub_diag. reflexivity. }
  destruct (to_cases (length (heap w)) device zc (extend w [zc]) Hz)
    as (batch & cells & Hto & Hge & _ & _ & Hb).
  rewrite extend_extend in Hto, Hb.
  set (wp := extend w ([zc] ++ cells)) in *.
  set (cb := Cell (data zc) (dt zc) device) in *.
  assert (Hcbl : length (data cb) = Z.to_nat winsize).
  { unfold cb, zc. cbn [data]. rewrite length_replicate.
    rewrite slice_prefix by lia. rewrite length_take. unfold n, len in Hws.
    lia. }
  assert (Ht' : heap wp !! tnsr = Some ct).
  { unfold wp, extend, set_heap. cbn [heap]. apply lookup_app_l_Some.
    exact Ht. }
  set (begs := range_items 0 n stride) in *.
  assert (Hr3 : range3 0 n (winsize - overlap) wp = (Ret begs, wp)).
  { unfold range3. destruct (Z.eqb_spec (winsize - overlap) 0); [lia |].
    reflexivity. }
  (* the windows before the abort *)
  destruct (lookup_lt_is_Some_2 (enumerate begs 1) j) as [x Hx].
  { rewrite enumerate_length. exact Hj. }
  pose proof (take_drop_middle _ _ _ Hx) as Hsplit.
  rewrite enumerate_take in Hsplit.
  destruct (window_loop model first_text tnsr batch winsize ct
              (enumerate (take j begs) 1) Hwb
              ltac:(lia) ltac:(lia)) with (acc := @nil str) (w := wp)
              (cb := cb)
    as (chunks & w1 & Hloop & Hsteps); try assumption.
  { rewrite enumerate_snd. apply Forall_take.
    apply range_items_nonneg. lia. }
  rewrite app_nil_l in Hloop. rewrite enumerate_snd in Hsteps.
  destruct (steps_calls _ _ _ _ _ _ _ _ _ Hsteps) as (bs & Hcalls & Hbs).
  apply Forall2_length in Hbs. rewrite length_take in Hbs.
  assert (Hwpid : wp = with_worker wp (Some a) (polls w) (progress w)).
  { rewrite <- (with_worker_id wp) at 1. f_equal. exact Hab. }
  pose proof (worker_window_loop_abort model first_text tnsr batch winsize
                (len begs) a (Hm batch) (fun o => oblivious_first_text o)
                (enumerate (take j begs) 1) x
                (drop (S j) (enumerate begs 1)) [] chunks wp w1 (polls w)
                (progress w) Hloop) as Habort.
  rewrite enumerate_length, length_take in Habort.
  specialize (Habort ltac:(fold j; lia)).
  rewrite Hsplit, <- Hwpid in Habort.
  set (w' := with_worker w1 (Some a) _ _) in Habort.
  assert (Hrun : WavToTextSileroWorker.windowed_run model tnsr max_winsize
                   overlap_ratio device first_text w = (Ret None, w')).
  { unfold WavToTextSileroWorker.windowed_run.
    rewrite (bind_ret _ _ _ _ _ (tlen_ok tnsr ct w Ht)).
    fold n. fold (winsize_of max_winsize n). fold winsize.
    rewrite overlap_computed
      by (apply overlap_finite;
          [assumption .. | split; [lia | exact Hfit]]).
    fold overlap.
    rewrite (bind_ret _ _ _ _ _ (zeros_like_ok tnsr None _ ct w Ht)).
    fold zc.
    rewrite (bind_ret _ _ _ _ _ Hto).
    rewrite (bind_ret _ _ _ _ _ Hr3).
    rewrite (bind_ret _ _ _ _ _ Habort). reflexivity. }
  exists w', bs. split; [exact Hrun |]. split; [| split; [| split]].
  - unfold w'. cbn [calls with_worker]. exact Hcalls.
  - lia.
  - unfold w'. cbn [polls with_worker]. lia.
  - unfold w'. cbn [progress with_worker].
    rewrite length_app, length_map, enumerate_length, length_take. lia.
Qed.

(** An abort that the worker sees at one of its reads of the flag in the
    window loop of a valid run, after [j] windows: these [j] windows are
    processed, with one model call and one progress value each, no model
    call follows, [windowed_run] returns [None], and
    [windowed_stt_rendering], which unpacks that result, raises
    [TypeError]. *)
Theorem worker_abort_stops_the_windows {E} (model : tensor -> M (list str * E))
    (tnsr : tensor) (max_winsize : Z) (overlap_ratio : Q) (device : device)
    (thresh : Q) (moc : option Z) (w : world) (ct : cell) (a : nat) :
  well_behaved model first_text ->
  (forall batch, oblivious (model batch)) ->
  heap w !! tnsr = Some ct ->
  1 <= len (data ct) -> 1 <= max_winsize ->
  (0 <= overlap_ratio)%Q -> (overlap_ratio < 1)%Q ->
  is_float overlap_ratio ->
  winsize_of max_winsize (len (data ct)) <= 2 ^ 53 ->
  abort_at w = Some a ->
  (a - polls w
   < length (range_items 0 (len (data ct))
               (stride_of max_winsize overlap_ratio (len (data ct)))))%nat ->
  exists w' bs,
    WavToTextSileroWorker.windowed_run model tnsr max_winsize overlap_ratio
      device first_text w = (Ret None, w')
    /\ WavToTextSileroWorker.windowed_stt_rendering model tnsr max_winsize
         overlap_ratio device thresh moc w = (Raise TypeError, w')
    /\ calls w' = calls w ++ bs
    /\ length bs = (a - polls w)%nat
    /\ polls w' = S (polls w + (a - polls w))
    /\ length (progress w') = (length (progress w) + (a - polls w))%nat.
Proof.
  intros Hwb Hm Ht Hn Hmax Hr0 Hr1 Hfl Hfit Hab Hj.
  destruct (worker_windows_aborted model tnsr max_winsize overlap_ratio
              device w ct a Hwb Hm Ht Hn Hmax Hr0 Hr1 Hfl Hfit Hab Hj)
    as (w' & bs & Hrun & Hcalls & Hbs & Hpolls & Hprog).
  exists w', bs. split; [exact Hrun |].
  split; [| split; [exact Hcalls | split; [exact Hbs |
    split; [exact Hpolls | exact Hprog]]]].
  unfold WavToTextSileroWorker.windowed_stt_rendering.
  rewrite (bind_ret _ _ _ _ _ Hrun). reflexivity.
Qed.

Lemma two_word_model_well_behaved : well_behaved two_word_model first_text.
Proof.
  intros batch w [c Hc]. unfold two_word_model, value_model.
  rewrite (bind_ret _ _ _ _ _ (deref_ok batch c w Hc)).
  destruct (data c) as [|x l]; [| destruct (Qeq_bool x 1)];
    eexists _, [], _, []; rewrite !extend_nil; split; reflexivity.
Qed.

Lemma worker_abort_stops_the_windows_witness :
  exists w' bs,
    WavToTextSileroWorker.windowed_run two_word_model 0%nat 1 0 cpu
      first_text (worker_world [1; 2]%Q 1) = (Ret None, w')
    /\ WavToTextSileroWorker.windowed_stt_rendering two_word_model 0%nat 1
         0 cpu (9 # 10) (Some 3) (worker_world [1; 2]%Q 1)
       = (Raise TypeError, w')
    /\ calls w' = calls (worker_world [1; 2]%Q 1) ++ bs
    /\ length bs = (1 - polls (worker_world [1; 2]%Q 1))%nat
    /\ polls w' = S (polls (worker_world [1; 2]%Q 1)
                     + (1 - polls (worker_world [1; 2]%Q 1)))
    /\ length (progress w')
       = (length (progress (worker_world [1; 2]%Q 1))
          + (1 - polls (worker_world [1; 2]%Q 1)))%nat.
Proof.
  apply (worker_abort_stops_the_windows two_word_model 0%nat 1 0 cpu
           (9 # 10) (Some 3) (worker_world [1; 2]%Q 1)
           (Cell [1; 2]%Q float32 cpu) 1%nat).
  - exact two_word_model_well_behaved.
  - intros batch. apply oblivious_value_model.
  - reflexivity.
  - vm_compute. discriminate.
  - lia.
  - discriminate.
  - reflexivity.
  - vm_compute. reflexivity.
  - vm_compute. discriminate.
  - reflexivity.
  - vm_compute. lia.
Defined.

(** The merge loop of the worker when the flag is seen at the read that
    follows the chunks of [l1]. *)
Lemma worker_merge_loop_abort (thresh : Q) (moc : option Z) (num : Z)
    (a : nat) (l1 : list (Z * str)) :
  forall (x : Z * str) (l2 : list (Z * str)) (locals : str * list Q)
         (w : world) (p : nat) (g : list Z),
    length l1 = (a - p)%nat ->
    for_return
      (fun locals '(i, ch) =>
         aborted <- WavToTextSileroWorker.read_abort ;;
         if aborted : bool then ret (inr tt)
         else
           WavToTextSileroWorker.update_progress
             (WavToTextSileroWorker.percent i num) ;;
           ret (inl (stt_utils.merge_body thresh moc locals (i, ch))))
      (l1 ++ x :: l2) locals (with_worker w (Some a) p g)
    = (Ret (inr tt),
       with_worker w (Some a) (S (p + length l1))
         (g ++ map (fun ib => WavToTextSileroWorker.percent (fst ib) num)
                   l1)).
Proof.
  induction l1 as [|[i ch] l1 IH]; intros x l2 locals w p g Hlen.
  - cbn [length] in Hlen. cbn [app for_return map length].
    destruct x as [i ch].
    unfold bind at 1. unfold bind at 1.
    unfold WavToTextSileroWorker.read_abort at 1.
    cbn [abort_at with_worker heap calls polls progress].
    assert (Hle : (a <=? p)%nat = true) by (apply Nat.leb_le; lia).
    rewrite Hle. unfold ret. rewrite Nat.add_0_r, app_nil_r. reflexivity.
  - cbn [length] in Hlen. rewrite <- app_comm_cons. cbn [for_return].
    unfold bind at 1. unfold bind at 1.
    unfold WavToTextSileroWorker.read_abort at 1.
    cbn [abort_at with_worker heap calls polls progress].
    assert (Hle : (a <=? p)%nat = false) by (apply Nat.leb_gt; lia).
    rewrite Hle.
    unfold bind at 1.
    unfold WavToTextSileroWorker.update_progress at 1.
    cbn [abort_at with_worker heap calls polls progress].
    unfold ret at 1.
    change (World (heap w) (calls w) (Some a) (S p)
                  (g ++ [WavToTextSileroWorker.percent i num]))
      with (with_worker w (Some a) (S p)
              (g ++ [WavToTextSileroWorker.percent i num])).
    rewrite IH by lia. cbn [length map fst]. rewrite <- app_assoc.
    replace (S p + length l1)%nat with (p + S (length l1))%nat by lia.
    reflexivity.
Qed.

(** An abort that the worker sees at any of its reads of the flag, in the
    window loop or in the merge loop of a valid run, makes [run] raise
    [TypeError]: [windowed_run] or [windowed_stt_rendering] returns [None]
    and its caller unpacks it. When the flag is seen only in the merge
    loop, every window has been given to the model before. *)
Theorem worker_run_aborted_raises {E}
    (stt_model : tensor -> M (list str * E)) (whole_audio : tensor)
    (max_win_secs win_overlap_ratio : Q) (device : device) (w : world)
    (ct : cell) (a : nat) :
  well_behaved stt_model first_text ->
  (forall batch, oblivious (stt_model batch)) ->
  heap w !! whole_audio = Some ct ->
  1 <= len (data ct) ->
  finite_product max_win_secs WavToTextSileroWorker.EXPECTED_SRATE = true ->
  1 <= max_win_samples_of max_win_secs ->
  (0 <= win_overlap_ratio)%Q -> (win_overlap_ratio < 1)%Q ->
  is_float win_overlap_ratio ->
  winsize_of (max_win_samples_of max_win_secs) (len (data ct)) <= 2 ^ 53 ->
  abort_at w = Some a ->
  let windows :=
    length (range_items 0 (len (data ct))
              (stride_of (max_win_samples_of max_win_secs)
                 win_overlap_ratio (len (data ct)))) in
  (a - polls w < 2 * windows)%nat ->
  exists w' bs,
    WavToTextSileroWorker.run stt_model whole_audio max_win_secs
      win_overlap_ratio device w = (Raise TypeError, w')
    /\ calls w' = calls w ++ bs
    /\ length bs = Nat.min (a - polls w) windows.
Proof.
  intros Hwb Hm Ht Hn Hfin Hmax Hr0 Hr1 Hfl Hfit Hab windows Hj.
  set (mws := max_win_samples_of max_win_secs) in *.
  assert (Hmws : forall A (k : Z -> M A),
             (product <- float_times_int max_win_secs
                           WavToTextSileroWorker.EXPECTED_SRATE ;;
              max_win_samples <- int_of_float product ;;
              k max_win_samples) w = k mws w)
    by (intros A k; apply overlap_computed; exact Hfin).
  destruct (Nat.lt_ge_cases (a - polls w) windows) as [Hin | Hpast].
  - (* seen in the window loop *)
    destruct (worker_windows_aborted stt_model whole_audio mws
                win_overlap_ratio device w ct a Hwb Hm Ht Hn Hmax Hr0 Hr1 Hfl Hfit
                Hab Hin)
      as (w' & bs & Hrun & Hcalls & Hbs & _).
    exists w', bs. split; [| split; [exact Hcalls | lia]].
    unfold WavToTextSileroWorker.run. rewrite Hmws.
    unfold WavToTextSileroWorker.windowed_stt_rendering.
    apply bind_raise. rewrite (bind_ret _ _ _ _ _ Hrun). reflexivity.
  - (* seen in the merge loop *)
    destruct (windowed_run_steps stt_model first_text whole_audio mws
                win_overlap_ratio device w ct Hwb Ht Hn Hmax Hr0 Hr1 Hfl Hfit)
      as (chunks & w1 & pre & batch & cb & Hstt & Hsteps & _).
    set (begs := range_items 0 (len (data ct))
                   (stride_of mws win_overlap_ratio (len (data ct)))) in *.
    destruct (steps_calls _ _ _ _ _ _ _ _ _ Hsteps) as (bs & Hcalls & Hbs).
    apply Forall2_length in Hbs.
    pose proof (windowed_run_length _ _ _ _ _ _ _ _ _ _ _ _ Hstt) as Hcl.
    destruct (worker_windowed_run_refines stt_model first_text whole_audio
                mws win_overlap_ratio device w w1 chunks begs _ _ Hm
                (fun o => oblivious_first_text o)
                ltac:(rewrite Hab; fold windows; lia) Hstt)
      as (ps & Hrun & _).
    rewrite Hab in Hrun.
    destruct (lookup_lt_is_Some_2 (enumerate chunks 1)
                (a - polls w - windows)) as [x Hx].
    { rewrite enumerate_length, Hcl. fold windows. lia. }
    pose proof (take_drop_middle _ _ _ Hx) as Hsplit.
    set (l1 := take (a - polls w - windows) (enumerate chunks 1)) in *.
    assert (Hl1 : length l1 = (a - (polls w + length begs))%nat).
    { unfold l1. rewrite length_take, enumerate_length, Hcl.
      fold windows. lia. }
    pose proof (worker_merge_loop_abort
                  WavToTextSileroWorker.OVERLAP_MERGE_THRESHOLD
                  (Some WavToTextSileroWorker.MAX_OVERLAP_CHARS)
                  (len chunks) a l1 x
                  (drop (S (a - polls w - windows)) (enumerate chunks 1))
                  ([], []) w1 (polls w + length begs) (progress w ++ ps) Hl1)
      as Hmerge.
    rewrite Hsplit in Hmerge.
    eexists _, bs. split; [| split; [| fold windows; lia]].
    + unfold WavToTextSileroWorker.run. rewrite Hmws.
      unfold WavToTextSileroWorker.windowed_stt_rendering.
      unfold bind at 1. unfold bind at 1. rewrite Hrun.
      unfold bind at 1. unfold unpack at 1. unfold ret at 1.
      change (World (heap w1) (calls w1) (Some a) (polls w + length begs)
                    (progress w ++ ps))
        with (with_worker w1 (Some a) (polls w + length begs)
                (progress w ++ ps)).
      unfold bind at 1. rewrite Hmerge. reflexivity.
    + cbn [calls with_worker]. exact Hcalls.
Qed.

Lemma worker_run_aborted_raises_witness :
  exists w' bs,
    WavToTextSileroWorker.run two_word_model 0%nat (1 # 8192) 0 cpu
      (worker_world [1; 2]%Q 3) = (Raise TypeError, w')
    /\ calls w' = calls (worker_world [1; 2]%Q 3) ++ bs
    /\ length bs = Nat.min (3 - polls (worker_world [1; 2]%Q 3)) 2.
Proof.
  apply (worker_run_aborted_raises two_word_model 0%nat (1 # 8192) 0 cpu
           (worker_world [1; 2]%Q 3) (Cell [1; 2]%Q float32 cpu) 3%nat).
  - exact two_word_model_well_behaved.
  - intros batch. apply oblivious_value_model.
  - reflexivity.
  - vm_compute. discriminate.
  - vm_compute. reflexivity.
  - vm_compute. discriminate.
  - discriminate.
  - reflexivity.
  - vm_compute. reflexivity.
  - vm_compute. discriminate.
  - reflexivity.
  - vm_compute. lia.
Defined.

(** A window of one second with the overlap ratio 0.3 on 22402 samples:
    the product [0.3 * 16000] rounds to 4800.0, the stride is 11200 and
    there are three windows. *)
Example worker_windows_of_one_second :
  max_win_samples_of 1 = 16000
  /\ overlap_of (round_float (3 # 10)) 16000 = 4800
  /\ range_items 0 22402 (stride_of (max_win_samples_of 1)
                            (round_float (3 # 10)) 22402)
     = [0; 11200; 22400].
Proof. repeat split; vm_compute; reflexivity. Qed.

(** With a window of 0.3 seconds the product [0.3 * 16000] rounds to
    4800.0: the window has 4800 samples. *)
Example worker_window_of_three_tenths :
  max_win_samples_of (round_float (3 # 10)) = 4800.
Proof. vm_compute. reflexivity. Qed.

(* ================================================================== *)
(** * Signals of one window                                            *)
(* ================================================================== *)

(** The steps of the window loop for a model that is a function [f] of
    its batch and a hook that is a partial function [h] of the model's
    output. *)
Lemma steps_pure {O C} (f : list Q -> O) (hook : O -> M C)
    (h : O -> option C) (signal : list Q) (winsize : Z) (batch : tensor)
    (w w' : world) (begs : list Z) (chunks : list C) :
  (forall o w c w', hook o w = (Ret c, w') -> w' = w /\ h o = Some c) ->
  window_steps (value_model f) hook signal winsize batch w begs chunks w' ->
  exists bs,
    calls w' = calls w ++ bs
    /\ Forall2 (fun b beg => is_padded_window signal winsize beg b) bs begs
    /\ Forall2 (fun ch b => h (f b) = Some ch) chunks bs
    /\ length (heap w') = length (heap w).
Proof.
  intros Hpure.
  induction 1 as [w | w w' cb b o ch cells cells' beg begs chunks
                      Hb Hpad Hmodel Hhook Hsteps IH].
  - exists []. rewrite app_nil_r. repeat split; constructor.
  - pose proof (lookup_lt_Some _ _ _ Hb) as Hlt.
    assert (Hcell : heap (refilled w batch cb b) !! batch
                    = Some (Cell b (dt cb) (dev cb)))
      by (unfold refilled; cbn [heap]; apply list_lookup_insert_eq; exact Hlt).
    unfold value_model in Hmodel.
    rewrite (bind_ret _ _ _ _ _ (deref_ok _ _ _ Hcell)) in Hmodel.
    unfold ret in Hmodel. cbn [data] in Hmodel.
    injection Hmodel as Ho Hw1. apply app_same in Hw1. subst cells o.
    rewrite extend_nil in Hhook.
    destruct (Hpure _ _ _ _ Hhook) as [Hw2 Hh].
    apply (f_equal heap) in Hw2. unfold extend, set_heap in Hw2.
    cbn [heap] in Hw2. symmetry in Hw2. apply app_same in Hw2. subst cells'.
    rewrite !extend_nil in *.
    destruct IH as (bs & Hcalls & Hall & Hchunks & Hlen).
    exists (b :: bs). split; [| split; [| split]].
    + rewrite Hcalls. unfold refilled. cbn [calls].
      rewrite <- app_assoc. reflexivity.
    + constructor; assumption.
    + constructor; assumption.
    + rewrite Hlen. unfold refilled. cbn [heap]. apply length_insert.
Qed.

Lemma padded_whole (signal b : list Q) :
  is_padded_window signal (len signal) 0 b -> b = signal.
Proof.
  intros (Hlen & Htake & _). unfold window_samples in Htake.
  rewrite slice_window in Htake by (unfold len; lia).
  change (Z.to_nat 0) with 0%nat in Htake. rewrite drop_0 in Htake.
  rewrite (take_ge signal) in Htake by (unfold len; lia).
  rewrite take_ge in Htake by (unfold len in Hlen; lia). exact Htake.
Qed.

Lemma range_items_one (n : Z) : 1 <= n -> range_items 0 n n = [0].
Proof.
  intros Hn. rewrite range_items_eq by lia.
  assert (Hq : (n + n - 1) / n = 1).
  { symmetry. apply (Z.div_unique _ _ _ (n - 1)); lia. }
  rewrite Hq. reflexivity.
Qed.

Lemma range_items_two (n k : Z) :
  1 <= k -> 2 * k <= n -> range_items 0 n (n - k) = [0; n - k].
Proof.
  intros Hk Hn. rewrite range_items_eq by lia.
  assert (Hq : (n + (n - k) - 1) / (n - k) = 2).
  { symmetry. apply (Z.div_unique _ _ _ (k - 1)); lia. }
  rewrite Hq. change (Z.to_nat 2) with 2%nat. cbn [seq map].
  change (Z.of_nat 0) with 0. change (Z.of_nat 1) with 1.
  rewrite Z.mul_0_l, Z.mul_1_l. reflexivity.
Qed.

(** A signal that fits into one window is still cut into two windows as
    soon as the overlap that the code computes is at least one sample (and
    at most half of the window): the model is called on the whole signal
    and then on its last [overlap] samples, padded with zeros. *)
Theorem short_signal_is_windowed_twice {O} (f : list Q -> O)
    (tnsr : tensor) (max_winsize : Z) (overlap_ratio : Q) (device : device)
    (w : world) (ct : cell) :
  heap w !! tnsr = Some ct ->
  1 <= len (data ct) <= max_winsize ->
  (0 <= overlap_ratio)%Q -> (overlap_ratio < 1)%Q ->
  is_float overlap_ratio ->
  winsize_of max_winsize (len (data ct)) <= 2 ^ 53 ->
  1 <= overlap_of overlap_ratio (len (data ct)) ->
  2 * overlap_of overlap_ratio (len (data ct)) <= len (data ct) ->
  let n := len (data ct) in
  let overlap := overlap_of overlap_ratio n in
  exists b1 w',
    stt_utils.windowed_run (value_model f) tnsr max_winsize overlap_ratio
      device ret w
    = (Ret ([f (data ct); f b1], [0; n - overlap], n, overlap), w')
    /\ is_padded_window (data ct) n (n - overlap) b1
    /\ calls w' = calls w ++ [data ct; b1].
Proof.
  intros Ht Hn Hr0 Hr1 Hfl Hfit Hk Hov2 n overlap.
  destruct (windowed_run_steps (value_model f) ret tnsr max_winsize
              overlap_ratio device w ct (value_model_well_behaved f)
              Ht ltac:(lia) ltac:(lia) Hr0 Hr1 Hfl Hfit)
    as (chunks & w' & pre & batch & cb & Hrun & Hsteps & _).
  assert (Hws : winsize_of max_winsize (len (data ct)) = n)
    by (unfold winsize_of, n; lia).
  unfold stride_of in Hrun, Hsteps. rewrite Hws in Hrun, Hsteps.
  fold overlap in Hrun, Hsteps.
  fold n in Hrun, Hsteps, Hov2. fold overlap in Hov2.
  rewrite (range_items_two n overlap) in Hrun, Hsteps
    by (unfold overlap, n in *; lia).
  destruct (steps_value f _ _ _ _ _ _ _ Hsteps)
    as (bs & Hcalls & Hall & Hchunks & _).
  inversion Hall as [| b0 beg0 bs' begs' Hp0 Hall']. subst.
  inversion Hall' as [| b1 beg1 bs'' begs'' Hp1 Hall'']. subst.
  inversion Hall''. subst.
  apply padded_whole in Hp0. subst b0.
  exists b1, w'. split; [exact Hrun |]. split; [exact Hp1 | exact Hcalls].
Qed.

Lemma short_signal_is_windowed_twice_witness :
  exists b1 w',
    stt_utils.windowed_run (value_model (fun v : list Q => v)) 0%nat
      100 (round_float (3 # 10)) cpu ret
      (signal_world [1; 2; 3; 4; 5; 6; 7; 8; 9; 10]%Q)
    = (Ret ([[1; 2; 3; 4; 5; 6; 7; 8; 9; 10]%Q; b1],
            [0; 10 - overlap_of (round_float (3 # 10)) 10], 10,
            overlap_of (round_float (3 # 10)) 10), w')
    /\ is_padded_window [1; 2; 3; 4; 5; 6; 7; 8; 9; 10]%Q 10
         (10 - overlap_of (round_float (3 # 10)) 10) b1
    /\ calls w' = [] ++ [[1; 2; 3; 4; 5; 6; 7; 8; 9; 10]%Q; b1].
Proof.
  apply (short_signal_is_windowed_twice (fun v : list Q => v) 0%nat 100
           (round_float (3 # 10)) cpu
           (signal_world [1; 2; 3; 4; 5; 6; 7; 8; 9; 10]%Q)
           (Cell [1; 2; 3; 4; 5; 6; 7; 8; 9; 10]%Q float32 cpu)).
  - reflexivity.
  - vm_compute. split; discriminate.
  - vm_compute. discriminate.
  - reflexivity.
  - vm_compute. reflexivity.
  - vm_compute. discriminate.
  - vm_compute. discriminate.
  - vm_compute. discriminate.
Defined.

(** The run of the witness: with the float 0.3 on ten samples the overlap
    is 3, and the second window starts at 7. *)
Example short_signal_at_three_tenths :
  exists w',
    stt_utils.windowed_run (value_model (fun v : list Q => v)) 0%nat
      100 (round_float (3 # 10)) cpu ret
      (signal_world [1; 2; 3; 4; 5; 6; 7; 8; 9; 10]%Q)
    = (Ret ([[1; 2; 3; 4; 5; 6; 7; 8; 9; 10]%Q;
             [8; 9; 10; 0; 0; 0; 0; 0; 0; 0]%Q],
            [0; 7], 10, 3), w').
Proof. eexists. vm_compute. reflexivity. Qed.

Lemma first_text_pure {E} (o : list str * E) (w : world) (c : str)
    (w' : world) :
  first_text o w = (Ret c, w') -> w' = w /\ head (fst o) = Some c.
Proof.
  unfold first_text. destruct (fst o) as [|t ts]; [discriminate |].
  intros H. injection H as <- <-. split; reflexivity.
Qed.

Lemma value_model_text_well_behaved {E} (f : list Q -> list str * E) :
  (forall v, fst (f v) <> []) ->
  well_behaved (value_model f) first_text.
Proof.
  intros Hf batch w [c Hc]. unfold value_model.
  rewrite (bind_ret _ _ _ _ _ (deref_ok batch c w Hc)).
  unfold first_text. specialize (Hf (data c)).
  destruct (fst (f (data c))) as [|t ts] eqn:Hfst; [congruence |].
  exists (f (data c)), [], t, []. rewrite !extend_nil.
  split; [reflexivity |]. rewrite Hfst. reflexivity.
Qed.

(** A signal that is processed in one window (it fits into the window
    and the overlap is less than one sample) is transcribed as the first
    text the model returns for the whole signal, with the single match
    score 1. *)
Theorem one_window_transcript {E} (f : list Q -> list str * E)
    (tnsr : tensor) (max_winsize : Z) (overlap_ratio : Q) (device : device)
    (thresh : Q) (m : Z) (w : world) (ct : cell) :
  (forall v, fst (f v) <> []) ->
  heap w !! tnsr = Some ct ->
  1 <= len (data ct) <= max_winsize ->
  (0 <= overlap_ratio)%Q -> (overlap_ratio < 1)%Q ->
  is_float overlap_ratio ->
  winsize_of max_winsize (len (data ct)) <= 2 ^ 53 ->
  overlap_of overlap_ratio (len (data ct)) = 0 ->
  (0 < thresh)%Q -> (thresh <= 1)%Q -> 0 < m ->
  exists w',
    stt_utils.windowed_stt_rendering (value_model f) tnsr max_winsize
      overlap_ratio device thresh (Some m) w
    = (Ret (default [] (head (fst (f (data ct)))), [1%Q]), w')
    /\ calls w' = calls w ++ [data ct].
Proof.
  intros Hf Ht Hn Hr0 Hr1 Hfl Hfit Hk Hpos Hle1 Hm.
  destruct (windowed_run_steps (value_model f) first_text tnsr max_winsize
              overlap_ratio device w ct (value_model_text_well_behaved f Hf)
              Ht ltac:(lia) ltac:(lia) Hr0 Hr1 Hfl Hfit)
    as (chunks & w' & pre & batch & cb & Hrun & Hsteps & _).
  assert (Hws : winsize_of max_winsize (len (data ct)) = len (data ct))
    by (unfold winsize_of; lia).
  unfold stride_of in Hrun, Hsteps. rewrite Hws, Hk in Hrun, Hsteps.
  rewrite Z.sub_0_r in Hrun, Hsteps.
  rewrite range_items_one in Hrun, Hsteps by lia.
  destruct (steps_pure f first_text (fun o => head (fst o)) _ _ _ _ _ _ _
              (@first_text_pure E) Hsteps)
    as (bs & Hcalls & Hall & Hchunks & _).
  inversion Hall as [| b0 beg0 bs' begs' Hp0 Hall']. subst.
  inversion Hall'. subst.
  apply padded_whole in Hp0. subst b0.
  inversion Hchunks as [| ch b chs bs0 Hch Hchs]. subst.
  inversion Hchs. subst.
  exists w'. split; [| exact Hcalls].
  unfold stt_utils.windowed_stt_rendering.
  rewrite (bind_ret _ _ _ _ _ Hrun). cbv beta iota.
  destruct (merge_chunks_cons ch [] thresh m Hpos Hle1 Hm) as (_ & _ & Hone).
  rewrite Hone, Hch. reflexivity.
Qed.

Lemma one_window_transcript_witness :
  exists w',
    stt_utils.windowed_stt_rendering
      (value_model (fun _ : list Q => ([lit "hi"], tt))) 0%nat 5 0 cpu
      (9 # 10) (Some 1000) (signal_world [1; 2]%Q)
    = (Ret (default [] (head (fst ([lit "hi"], tt))), [1%Q]), w')
    /\ calls w' = [] ++ [[1; 2]%Q].
Proof.
  apply (one_window_transcript (fun _ : list Q => ([lit "hi"], tt)) 0%nat 5
           0 cpu (9 # 10) 1000 (signal_world [1; 2]%Q)
           (Cell [1; 2]%Q float32 cpu));
    try reflexivity; try (vm_compute; discriminate);
    try (vm_compute; split; discriminate).
Defined.

(* ================================================================== *)
(** * The prepared audio                                               *)
(* ================================================================== *)

Lemma tensor_max_ge (r : list Q) (a : Q) :
  (a <= tensor_max a r)%Q
  /\ Forall (fun x => (x <= tensor_max a r)%Q) r.
Proof.
  unfold tensor_max. revert a. induction r as [|x r IH]; intros a.
  - split; [apply Qle_refl | constructor].
  - cbn [fold_left]. destruct (IH (Qmax a x)) as [Hm Hr]. split.
    + eapply Qle_trans; [apply Q.le_max_l | exact Hm].
    + constructor; [| exact Hr].
      eapply Qle_trans; [apply Q.le_max_r | exact Hm].
Qed.

Lemma tensor_max_in (r : list Q) (a : Q) :
  Exists (fun x => (tensor_max a r == x)%Q) (a :: r).
Proof.
  unfold tensor_max. revert a. induction r as [|x r IH]; intros a.
  - constructor. reflexivity.
  - cbn [fold_left]. specialize (IH (Qmax a x)).
    apply Exists_cons in IH. destruct IH as [Hm | Hr].
    + destruct (Q.max_dec a x) as [Ha | Hx].
      * constructor. rewrite Hm. exact Ha.
      * apply Exists_cons_tl. constructor. rewrite Hm. exact Hx.
    + apply Exists_cons_tl, Exists_cons_tl. exact Hr.
Qed.

Lemma tensor_sum_shift (l : list Q) (c : Q) :
  (tensor_sum (map (fun x => x - c) l)
   == tensor_sum l - inject_Z (len l) * c)%Q.
Proof.
  induction l as [|x l IH].
  - unfold len. simpl. ring.
  - cbn [map tensor_sum fold_right]. fold (tensor_sum l).
    fold (tensor_sum (map (fun x => (x - c)%Q) l)). rewrite IH.
    unfold len. rewrite length_cons, Nat2Z.inj_succ. unfold Z.succ.
    rewrite inject_Z_plus. ring.
Qed.

Lemma tensor_sum_scale (l : list Q) (c : Q) :
  (tensor_sum (map (fun x => x / c) l) == tensor_sum l / c)%Q.
Proof.
  induction l as [|x l IH].
  - unfold Qdiv. simpl. ring.
  - cbn [map tensor_sum fold_right]. fold (tensor_sum l).
    fold (tensor_sum (map (fun x => (x / c)%Q) l)). rewrite IH.
    unfold Qdiv. ring.
Qed.

Lemma centred_sum (l : list Q) :
  l <> [] ->
  (tensor_sum (map (fun x => x - tensor_mean l) l) == 0)%Q.
Proof.
  intros Hne. rewrite tensor_sum_shift. unfold tensor_mean.
  assert (Hb : ~ (inject_Z (len l) == 0)%Q).
  { unfold Qeq, len. cbn [Qnum Qden inject_Z].
    destruct l; [congruence | rewrite length_cons; lia]. }
  revert Hb. generalize (inject_Z (len l)), (tensor_sum l).
  intros n s Hb. field. exact Hb.
Qed.

Lemma Qabs_zero (v : Q) : (Qabs v == 0)%Q -> (v == 0)%Q.
Proof.
  intros H. assert (Hle : (Qabs v <= 0)%Q) by (rewrite H; apply Qle_refl).
  apply Qabs_Qle_condition in Hle. destruct Hle as [H1 H2].
  apply Qle_antisym; [exact H2 | exact H1].
Qed.

Lemma Qabs_div (v m : Q) : (0 < m)%Q -> (Qabs (v / m) == Qabs v / m)%Q.
Proof.
  intros Hm. unfold Qdiv. rewrite Qabs_Qmult, Qabs_Qinv.
  rewrite (Qabs_pos m) by (apply Qlt_le_weak; exact Hm). reflexivity.
Qed.

(** [prepare_arr] with normalization, on audio that is not constant after
    the resampling step: the new tensor has as many samples, their sum
    (so their mean) is 0, every sample is between -1 and 1, and one of them
    has absolute value 1 (in rational arithmetic). *)
Theorem prepare_arr_normalizes (resample : Z -> Z -> list Q -> list Q)
    (arr : list Q) (arr_sr : Z) (target_sr : option Z) (w : world) :
  let wav := resampled resample arr arr_sr target_sr in
  Exists (fun x => ~ (x == tensor_mean wav)%Q) wav ->
  exists y,
    prepare_arr resample arr arr_sr target_sr true w
    = (Ret (Audio (length (heap w))), extend w [Cell y float32 cpu])
    /\ length y = length wav
    /\ (tensor_sum y == 0)%Q
    /\ Forall (fun v => (Qabs v <= 1)%Q) y
    /\ Exists (fun v => (Qabs v == 1)%Q) y.
Proof.
  intros wav Hex.
  set (mu := tensor_mean wav).
  set (c := map (fun x => (x - mu)%Q) wav).
  assert (Hne : wav <> []) by (intros E; rewrite E in Hex; inversion Hex).
  destruct (map Qabs c) as [|a r] eqn:Habs.
  { destruct wav; [congruence | discriminate]. }
  set (M := tensor_max a r).
  destruct (tensor_max_ge r a) as [Ha Hr]. fold M in Ha, Hr.
  assert (Hall : forall v, In v c -> (Qabs v <= M)%Q).
  { intros v Hv.
    assert (Hin : In (Qabs v) (a :: r))
      by (rewrite <- Habs; apply in_map; exact Hv).
    destruct Hin as [<- | Hin]; [exact Ha |].
    rewrite List.Forall_forall in Hr. apply Hr. exact Hin. }
  assert (HM : (0 < M)%Q).
  { apply List.Exists_exists in Hex. destruct Hex as (x & Hx & Hxm).
    apply Qlt_le_trans with (Qabs (x - mu)).
    - apply Qnot_le_lt. intros Hle. apply Hxm.
      assert (Hz : (Qabs (x - mu) == 0)%Q)
        by (apply Qle_antisym; [exact Hle | apply Qabs_nonneg]).
      apply Qabs_zero in Hz.
      fold mu.
      setoid_replace x with ((x - mu) + mu)%Q using relation Qeq by ring.
      rewrite Hz. ring.
    - apply Hall. unfold c. apply (in_map (fun x => (x - mu)%Q)). exact Hx. }
  assert (Hnz : Qeq_bool M 0 = false).
  { destruct (Qeq_bool M 0) eqn:E; [| reflexivity].
    apply Qeq_bool_iff in E. rewrite E in HM. discriminate. }
  exists (map (fun x => (x / M)%Q) c).
  split; [| split; [| split; [| split]]].
  - unfold prepare_arr. fold wav. fold mu. fold c. rewrite Habs.
    fold M. rewrite Hnz. reflexivity.
  - unfold c. rewrite !length_map. reflexivity.
  - rewrite tensor_sum_scale. unfold c, mu.
    rewrite (centred_sum wav Hne). unfold Qdiv. ring.
  - apply List.Forall_forall. intros v Hv.
    apply in_map_iff in Hv. destruct Hv as (x & <- & Hx).
    rewrite Qabs_div by exact HM.
    apply Qle_shift_div_r; [exact HM |]. rewrite Qmult_1_l.
    apply Hall. exact Hx.
  - pose proof (tensor_max_in r a) as Hin. fold M in Hin.
    apply List.Exists_exists in Hin. destruct Hin as (m & Hm & HMm).
    rewrite <- Habs in Hm. apply in_map_iff in Hm.
    destruct Hm as (v & <- & Hv).
    apply List.Exists_exists. exists (v / M)%Q. split.
    + apply (in_map (fun x => (x / M)%Q)). exact Hv.
    + rewrite Qabs_div by exact HM. rewrite <- HMm.
      unfold Qdiv. apply Qmult_inv_r.
      intros E. rewrite E in HM. discriminate.
Qed.

Lemma prepare_arr_normalizes_witness :
  exists y,
    prepare_arr (fun _ _ v => v) [1; 3; 2]%Q 16000 (Some 16000) true
      (World [] [] None 0 [])
    = (Ret (Audio 0%nat), extend (World [] [] None 0 []) [Cell y float32 cpu])
    /\ length y = 3%nat
    /\ (tensor_sum y == 0)%Q
    /\ Forall (fun v => (Qabs v <= 1)%Q) y
    /\ Exists (fun v => (Qabs v == 1)%Q) y.
Proof.
  apply (prepare_arr_normalizes (fun _ _ v => v) [1; 3; 2]%Q 16000
           (Some 16000) (World [] [] None 0 [])).
  vm_compute. constructor. discriminate.
Defined.

Lemma constant_sum (l : list Q) (c : Q) :
  Forall (fun x => (x == c)%Q) l ->
  (tensor_sum l == inject_Z (len l) * c)%Q.
Proof.
  induction 1 as [|x l Hx Hl IH].
  - unfold len. simpl. ring.
  - cbn [tensor_sum fold_right]. fold (tensor_sum l).
    assert (Hx' : (x == c)%Q) by exact Hx.
    unfold len in *. rewrite length_cons, Nat2Z.inj_succ. unfold Z.succ.
    rewrite inject_Z_plus, IH, Hx'. ring.
Qed.

(** [prepare_arr] with normalization on degenerate audio: an empty signal
    makes the maximum raise ([RuntimeError]), and silence (every sample is
    zero) has mean 0 and peak 0, so the division turns every sample into
    NaN. *)
Theorem prepare_arr_degenerate (resample : Z -> Z -> list Q -> list Q)
    (arr : list Q) (arr_sr : Z) (target_sr : option Z) (w : world) :
  let wav := resampled resample arr arr_sr target_sr in
  Forall (fun x => (x == 0)%Q) wav ->
  prepare_arr resample arr arr_sr target_sr true w
  = (match wav with
     | [] => Raise RuntimeError
     | _ :: _ => Ret (NaNs (length wav))
     end, w).
Proof.
  intros wav Hconst.
  destruct wav as [|x0 wav0] eqn:Ewav.
  { unfold prepare_arr. fold wav. rewrite Ewav. reflexivity. }
  rewrite <- Ewav in *.
  assert (Hne : wav <> []) by (rewrite Ewav; discriminate).
  set (mu := tensor_mean wav).
  set (d := map (fun x => (x - mu)%Q) wav).
  assert (Hmu : (mu == 0)%Q).
  { unfold mu, tensor_mean. rewrite (constant_sum wav 0 Hconst).
    assert (Hb : ~ (inject_Z (len wav) == 0)%Q).
    { unfold Qeq, len. cbn [Qnum Qden inject_Z].
      destruct wav; [congruence | rewrite length_cons; lia]. }
    revert Hb. generalize (inject_Z (len wav)). intros n Hb.
    field. exact Hb. }
  assert (Hzero : forall v, In v (map Qabs d) -> (v == 0)%Q).
  { intros v Hv. apply in_map_iff in Hv. destruct Hv as (y & <- & Hy).
    unfold d in Hy. apply in_map_iff in Hy. destruct Hy as (x & <- & Hx).
    rewrite List.Forall_forall in Hconst.
    rewrite (Hconst x Hx), Hmu. reflexivity. }
  unfold prepare_arr. fold wav. fold mu. fold d.
  destruct (map Qabs d) as [|a r] eqn:Habs.
  { destruct wav; [congruence | discriminate]. }
  pose proof (tensor_max_in r a) as Hin.
  apply List.Exists_exists in Hin. destruct Hin as (m & Hm & HMm).
  assert (HM : Qeq_bool (tensor_max a r) 0 = true).
  { apply Qeq_bool_iff. rewrite HMm. apply Hzero. exact Hm. }
  cbv zeta. rewrite HM. unfold d. rewrite length_map. reflexivity.
Qed.

Lemma prepare_arr_degenerate_witness :
  prepare_arr (fun _ _ v => v) [0; 0; 0]%Q 16000 (Some 16000) true
    (World [] [] None 0 [])
  = (Ret (NaNs 3), World [] [] None 0 []).
Proof.
  apply (prepare_arr_degenerate (fun _ _ v => v) [0; 0; 0]%Q 16000
           (Some 16000) (World [] [] None 0 [])).
  repeat constructor.
Defined.
